(** * SplitChunksPlugin: a shallow embedding of lib/optimize/SplitChunksPlugin.js

    The development follows the layout of the source file: size accounting
    helpers, the comparison of chunks-info items, the normalisation of cache
    groups, the chunk-set index ([getCombinations]), the candidate builder
    ([addModuleToChunksInfoMap]) and the body of the selection loop, followed by
    the warning bookkeeping of the max-size pass, the normalisation of the
    options, and the limits and part names of the max-size pass.

    JavaScript numbers are modelled by [Z] (sizes, priorities, counters) and by
    [JsNum] where [Infinity] is a value the code produces and tests for.
    Plain objects used as string-keyed records of sizes are [gmap string Z];
    the sizes of a chunks-info item, the one such record that is created
    with [Object.prototype] behind it, are read through [readSize];
    insertion-ordered [Map]s and [Set]s whose iteration order the code observes
    are association lists and duplicate-free lists. *)

From Stdlib Require Import ZArith Ascii String List Lia DecimalString.
From Stdlib Require DecimalPos DecimalZ.
From stdpp Require Import base option list gmap strings sorting.

Local Open Scope string_scope.
Local Open Scope list_scope.
Local Open Scope Z_scope.

(** ** JavaScript values reaching the size options *)

Inductive JsValue :=
| JsUndefined
| JsNull
| JsBoolean (b : bool)
| JsNumber (n : Z)
| JsString (s : string)
| JsFunction
| JsObject (props : gmap string Z).

(** Numbers that may be [Infinity] (request budgets). *)
Inductive JsNum :=
| Num (n : Z)
| Infinity.

Definition isFinite (n : JsNum) : bool :=
  match n with Num _ => true | Infinity => false end.

(** [a < b] for a finite left operand. *)
Definition ltNum (a : Z) (b : JsNum) : bool :=
  match b with Num n => a <? n | Infinity => true end.

Definition minNum (a b : JsNum) : JsNum :=
  match a, b with
  | Num x, Num y => Num (Z.min x y)
  | Num x, Infinity => Num x
  | Infinity, Num y => Num y
  | Infinity, Infinity => Infinity
  end.

(** Outcome of code that may [throw]. *)
Inductive Result (A : Type) :=
| Ok (a : A)
| Throw (message : string).
Arguments Ok {A} a.
Arguments Throw {A} message.

#[global] Instance Result_bind : MBind Result := λ A B k r,
  match r with
  | Ok a => k a
  | Throw msg => Throw msg
  end.

#[global] Instance Result_ret : MRet Result := λ A a, Ok a.

(** ** Insertion-ordered [Map] and [Set]

    A JavaScript [Map] iterates in insertion order and [set] on an existing key
    keeps the key's position; a [Set] iterates in insertion order and [add] of
    a present element does nothing.  [delete] leaves no entry under the key,
    respectively no occurrence of the element. *)

Section Collections.
Context {K V : Type} `{EqDecision K}.

Fixpoint mapGet (key : K) (m : list (K * V)) : option V :=
  match m with
  | [] => None
  | (k, v) :: rest => if decide (k = key) then Some v else mapGet key rest
  end.

Definition mapHas (key : K) (m : list (K * V)) : bool :=
  match mapGet key m with Some _ => true | None => false end.

Fixpoint mapSet (key : K) (value : V) (m : list (K * V)) : list (K * V) :=
  match m with
  | [] => [(key, value)]
  | (k, v) :: rest =>
      if decide (k = key) then (k, value) :: rest
      else (k, v) :: mapSet key value rest
  end.

Definition mapDelete (key : K) (m : list (K * V)) : list (K * V) :=
  filter (λ entry, entry.1 ≠ key) m.

Definition mapKeys (m : list (K * V)) : list K := m.*1.

Definition mapValues (m : list (K * V)) : list V := m.*2.

Definition setHas (x : K) (s : list K) : bool := bool_decide (x ∈ s).

Definition setAdd (x : K) (s : list K) : list K :=
  if setHas x s then s else s ++ [x].

Definition setDelete (x : K) (s : list K) : list K :=
  filter (λ y, y ≠ x) s.

(** [isOverlap]: true if at least one item of [a] is in [b]. *)
Definition isOverlap (a b : list K) : bool :=
  existsb (λ item, setHas item b) a.
End Collections.

(** ** Size accounting *)

Module Sizes.

(** [Object.create(null)] *)
Definition emptySizes : gmap string Z := ∅.

(** [Object.assign(target, source)]: the own properties of [source] are
    written over those of [target]. *)
Definition assign (target source : gmap string Z) : gmap string Z :=
  source ∪ target.

Definition normalizeSizes (value : JsValue) : gmap string Z :=
  match value with
  | JsNumber n => <["javascript" := n]> emptySizes
  | JsObject props => assign emptySizes props
  | _ => emptySizes
  end.

Definition mergeSizes (value defaultValue : JsValue) : gmap string Z :=
  match value with
  | JsUndefined => normalizeSizes defaultValue
  | _ =>
      let sizes := normalizeSizes value in
      let defaultSizes := normalizeSizes defaultValue in
      assign (assign emptySizes defaultSizes) sizes
  end.

Definition combineSizes (a b : gmap string Z) (combine : Z → Z → Z)
  : gmap string Z :=
  merge (λ x y,
    match x, y with
    | Some va, Some vb => Some (combine va vb)
    | Some va, None => Some va
    | None, Some vb => Some vb
    | None, None => None
    end) a b.

(** The property names of [Object.prototype]. *)
Definition objectPrototypeNames : list string :=
  ["constructor"; "__defineGetter__"; "__defineSetter__"; "hasOwnProperty";
   "__lookupGetter__"; "__lookupSetter__"; "isPrototypeOf";
   "propertyIsEnumerable"; "toString"; "valueOf"; "__proto__";
   "toLocaleString"].

(** What [sizes[key]] gives.  The sizes of an entry are a plain object
    ([sizes: {}]), not one made by [Object.create(null)]: a name that is not
    an own property is looked up in [Object.prototype], which answers with a
    function or an object for its own names and with [undefined] for any
    other. *)
Inductive SizeRead :=
| ReadNumber (size : Z)
| ReadInherited
| ReadUndefined.

Definition readSize (sizes : gmap string Z) (key : string) : SizeRead :=
  match sizes !! key with
  | Some size => ReadNumber size
  | None =>
      if bool_decide (key ∈ objectPrototypeNames) then ReadInherited
      else ReadUndefined
  end.

(** The loop of [checkMinSize] over [Object.keys(minSize)], each key paired
    with [minSize[key]]: [if (size === undefined || size < minSize[key])
    return false].  An inherited function or object is not [undefined], and
    compared with a number it converts to [NaN], so [<] answers false. *)
Fixpoint checkMinSizeLoop (sizes : gmap string Z) (entries : list (string * Z))
  : bool :=
  match entries with
  | [] => true
  | (key, minValue) :: rest =>
      match readSize sizes key with
      | ReadUndefined => false
      | ReadNumber size =>
          if size <? minValue then false else checkMinSizeLoop sizes rest
      | ReadInherited => checkMinSizeLoop sizes rest
      end
  end.

Definition checkMinSize (sizes minSize : gmap string Z) : bool :=
  checkMinSizeLoop sizes (map_to_list minSize).

Definition totalSize (sizes : gmap string Z) : Z :=
  foldl (λ size kv, size + kv.2) 0 (map_to_list sizes).

(** [Object.keys(o).length > 0] *)
Definition hasKeys (o : gmap string Z) : bool :=
  negb (bool_decide (map_to_list o = [])).

End Sizes.

Export Sizes.


(** ** Data model *)

Record Module := {
  module_ref : nat;                 (* object identity *)
  module_identifier : string;       (* identifier() *)
  module_sizes : gmap string Z      (* getSourceTypes() and size(type) *)
}.

#[global] Instance Module_eq_dec : EqDecision Module.
Proof. solve_decision. Defined.

Record Chunk := {
  chunk_ref : nat;                  (* object identity *)
  chunk_name : option string        (* chunk.name *)
}.

#[global] Instance Chunk_eq_dec : EqDecision Chunk.
Proof. solve_decision. Defined.

(** A name is truthy when it is a non-empty string. *)
Definition truthy (name : option string) : bool :=
  match name with
  | Some s => negb (bool_decide (s = ""))
  | None => false
  end.

Definition NameFn := Module → list Chunk → string → option string.

(** The objects returned by [options.getCacheGroups(module, context)]. *)
Record CacheGroupSource := {
  src_key : string;
  src_priority : option Z;
  src_chunksFilter : option (Chunk → bool);
  src_enforce : bool;
  src_minSize : JsValue;
  src_maxSize : JsValue;
  src_minChunks : option Z;
  src_maxAsyncRequests : option JsNum;
  src_maxInitialRequests : option JsNum;
  src_getName : option NameFn;
  src_filename : option string;
  src_automaticNameDelimiter : option string;
  src_idHint : option string;
  src_reuseExistingChunk : bool
}.

(** [this.options], as produced by [normalizeOptions]. *)
Record Options := {
  opt_chunksFilter : Chunk → bool;
  opt_minSize : gmap string Z;
  opt_maxSize : gmap string Z;
  opt_minChunks : Z;
  opt_maxAsyncRequests : JsNum;
  opt_maxInitialRequests : JsNum;
  opt_hidePathInfo : bool;
  opt_filename : option string;
  opt_automaticNameDelimiter : option string
}.

Record CacheGroup := {
  cg_key : string;
  cg_priority : Z;
  cg_chunksFilter : Chunk → bool;
  cg_minSize : gmap string Z;
  cg_minSizeForMaxSize : gmap string Z;
  cg_maxSize : gmap string Z;
  cg_minChunks : Z;
  cg_maxAsyncRequests : JsNum;
  cg_maxInitialRequests : JsNum;
  cg_getName : option NameFn;
  cg_filename : option string;
  cg_automaticNameDelimiter : option string;
  cg_idHint : string;
  cg_reuseExistingChunk : bool
}.

(** The object literal [cacheGroup = { ... }] built for each cache group
    source of a module.  [normalizeOptions] defines no [getName] property, so
    [this.options.getName] is [undefined]. *)
Definition makeCacheGroup (options : Options) (cacheGroupSource : CacheGroupSource)
  : CacheGroup :=
  {| cg_key := src_key cacheGroupSource;
     cg_priority := default 0 (src_priority cacheGroupSource);
     cg_chunksFilter :=
       default (opt_chunksFilter options) (src_chunksFilter cacheGroupSource);
     cg_minSize :=
       mergeSizes (src_minSize cacheGroupSource)
         (if src_enforce cacheGroupSource
          then JsObject emptySizes
          else JsObject (opt_minSize options));
     cg_minSizeForMaxSize :=
       mergeSizes (src_minSize cacheGroupSource) (JsObject (opt_minSize options));
     cg_maxSize :=
       mergeSizes (src_maxSize cacheGroupSource)
         (if src_enforce cacheGroupSource
          then JsObject emptySizes
          else JsObject (opt_maxSize options));
     cg_minChunks :=
       match src_minChunks cacheGroupSource with
       | Some n => n
       | None => if src_enforce cacheGroupSource then 1 else opt_minChunks options
       end;
     cg_maxAsyncRequests :=
       match src_maxAsyncRequests cacheGroupSource with
       | Some n => n
       | None =>
           if src_enforce cacheGroupSource then Infinity
           else opt_maxAsyncRequests options
       end;
     cg_maxInitialRequests :=
       match src_maxInitialRequests cacheGroupSource with
       | Some n => n
       | None =>
           if src_enforce cacheGroupSource then Infinity
           else opt_maxInitialRequests options
       end;
     cg_getName :=
       match src_getName cacheGroupSource with
       | Some f => Some f
       | None => None
       end;
     cg_filename :=
       match src_filename cacheGroupSource with
       | Some f => Some f
       | None => opt_filename options
       end;
     cg_automaticNameDelimiter :=
       match src_automaticNameDelimiter cacheGroupSource with
       | Some d => Some d
       | None => opt_automaticNameDelimiter options
       end;
     cg_idHint :=
       match src_idHint cacheGroupSource with
       | Some h => h
       | None => src_key cacheGroupSource
       end;
     cg_reuseExistingChunk := src_reuseExistingChunk cacheGroupSource |}.

(** The [ChunksInfoItem] typedef. *)
Record ChunksInfoItem := {
  info_modules : list Module;
  info_cacheGroup : CacheGroup;
  info_name : option string;
  info_validateSize : bool;
  info_sizes : gmap string Z;
  info_chunks : list Chunk;
  info_reuseableChunks : list Chunk;
  info_chunksKeys : list string
}.

(** ** Comparison of entries *)

(** Modelled from the spec: [util/comparators] is not part of the sources at
    hand; identifiers are compared as strings, character by character, giving
    -1, 0 or 1. *)
Definition compareIds (a b : string) : Z :=
  match String.compare a b with
  | Lt => -1
  | Eq => 0
  | Gt => 1
  end.

Definition compareModulesByIdentifier (a b : Module) : Z :=
  compareIds (module_identifier a) (module_identifier b).

(** Modelled from the spec: [compareIterables] compares two sequences
    lexicographically with the element comparator; a sequence that ends first
    is the smaller one. *)
Fixpoint compareIterables {A} (elementComparator : A → A → Z) (a b : list A) : Z :=
  match a, b with
  | [], [] => 0
  | [], _ :: _ => -1
  | _ :: _, [] => 1
  | x :: a', y :: b' =>
      let res := elementComparator x y in
      if res =? 0 then compareIterables elementComparator a' b' else res
  end.

Definition compareModuleIterables : list Module → list Module → Z :=
  compareIterables compareModulesByIdentifier.

Definition moduleLe (a b : Module) : Prop := compareModulesByIdentifier a b ≤ 0.

#[global] Instance moduleLe_dec : RelDecision moduleLe.
Proof. intros a b. unfold moduleLe. apply _. Defined.

(** Modelled from the spec: [SortableSet.sort()] reorders the set in place by
    its sort function, here [compareModulesByIdentifier].  The sequence of
    identifiers that results is the same for every sorting algorithm. *)
Definition sortModules (modules : list Module) : list Module :=
  merge_sort moduleLe modules.

Definition sorted (a : ChunksInfoItem) : ChunksInfoItem :=
  {| info_modules := sortModules (info_modules a);
     info_cacheGroup := info_cacheGroup a;
     info_name := info_name a;
     info_validateSize := info_validateSize a;
     info_sizes := info_sizes a;
     info_chunks := info_chunks a;
     info_reuseableChunks := info_reuseableChunks a;
     info_chunksKeys := info_chunksKeys a |}.

Definition setSize {A} (s : list A) : Z := Z.of_nat (length s).

(** [compareEntries] returns the number computed by the source together with
    the two items as the call leaves them: step 5 sorts both module sets in
    place. *)
Definition compareEntries (a b : ChunksInfoItem)
  : Z * ChunksInfoItem * ChunksInfoItem :=
  (* 1. by priority *)
  let diffPriority :=
    cg_priority (info_cacheGroup a) - cg_priority (info_cacheGroup b) in
  if negb (diffPriority =? 0) then (diffPriority, a, b) else
  (* 2. by number of chunks *)
  let diffCount := setSize (info_chunks a) - setSize (info_chunks b) in
  if negb (diffCount =? 0) then (diffCount, a, b) else
  (* 3. by size reduction *)
  let aSizeReduce := totalSize (info_sizes a) * (setSize (info_chunks a) - 1) in
  let bSizeReduce := totalSize (info_sizes b) * (setSize (info_chunks b) - 1) in
  let diffSizeReduce := aSizeReduce - bSizeReduce in
  if negb (diffSizeReduce =? 0) then (diffSizeReduce, a, b) else
  (* 4. by number of modules *)
  let diff := setSize (info_modules a) - setSize (info_modules b) in
  if negb (diff =? 0) then (diff, a, b) else
  (* 5. by module identifiers *)
  let a' := sorted a in
  let b' := sorted b in
  (compareModuleIterables (info_modules b') (info_modules a'), a', b').

Definition compareNumbers (a b : Z) : Z := a - b.

Definition numberLe (a b : Z) : Prop := compareNumbers a b ≤ 0.

#[global] Instance numberLe_dec : RelDecision numberLe.
Proof. intros a b. unfold numberLe. apply _. Defined.


(** ** Collaborators

    [Compilation], [ChunkGraph], [Chunk] and [ChunkGroup] are consumed through
    the calls the plugin makes on them.  [G] is the state of the compilation
    with its chunk graph; every method the plugin calls is one operation. *)

Class GraphOps (G : Type) := {
  (* chunkGraph.getModuleChunksIterable(module) *)
  getModuleChunksIterable : G → Module → list Chunk;
  getNumberOfChunkModules : G → Chunk → Z;
  getNumberOfEntryModules : G → Chunk → Z;
  isModuleInChunk : G → Module → Chunk → bool;
  (* compilation.namedChunks.has(name) *)
  namedChunksHas : G → option string → bool;
  (* chunkGroup.chunks.length for each chunkGroup of chunk.groupsIterable *)
  groupsChunksLength : G → Chunk → list Z;
  isOnlyInitial : G → Chunk → bool;
  canBeInitial : G → Chunk → bool;
  (* module.chunkCondition(chunk, compilation) *)
  chunkCondition : G → Module → Chunk → bool;
  (* compilation.entrypoints.get(name) is truthy *)
  entrypointsHas : G → string → bool;
  (* compilation.addChunk(name) *)
  addChunk : option string → G → Chunk * G;
  (* chunk.split(newChunk) *)
  split : Chunk → Chunk → G → G;
  (* chunk.chunkReason = reason *)
  setChunkReason : Chunk → string → G → G;
  (* compilation.entrypoints.delete(name); entrypoint.remove();
     chunkGraph.disconnectEntries(chunk) *)
  removeEntrypoint : string → Chunk → G → G;
  (* chunk.filenameTemplate = filename *)
  setFilenameTemplate : Chunk → string → G → G;
  (* chunk.idNameHints.add(hint) *)
  addIdNameHint : Chunk → string → G → G;
  connectChunkAndModule : Chunk → Module → G → G;
  disconnectChunkAndModule : Chunk → Module → G → G
}.

Definition quote : string := String (Ascii.ascii_of_nat 34) EmptyString.
Definition newline : string := String (Ascii.ascii_of_nat 10) EmptyString.

(** Template-literal rendering of a name that may be [undefined]. *)
Definition renderName (name : option string) : string :=
  match name with
  | Some s => s
  | None => "undefined"
  end.

Definition numberToString (n : Z) : string :=
  NilZero.string_of_int (Z.to_int n).

(** [array.join()] *)
Definition join (parts : list string) : string := String.concat "," parts.

(** The message of the [WebpackError] pushed on a name conflict. *)
Definition conflictMessage (key : string) (name : option string) : string :=
  "SplitChunksPlugin" +:+ newline +:+
  "Cache group " +:+ quote +:+ key +:+ quote +:+ " conflicts with existing chunk." +:+ newline +:+
  "Both have the same name " +:+ quote +:+ renderName name +:+ quote +:+ "." +:+ newline +:+
  "Use a different name for the cache group." +:+ newline +:+
  "HINT: You can omit " +:+ quote +:+ "name" +:+ quote +:+ " to automatically create a name." +:+ newline +:+
  "BREAKING CHANGE: webpack < 5 used to allow to use the " +:+
  "entrypoint as splitChunk. This is no longer allowed. " +:+
  "Remove this entrypoint and add modules to cache group's 'test' instead. " +:+
  "If you need modules to be evaluated on startup, add them to the existing entrypoints (make them arrays). " +:+
  "See migration guide of more info.".

(** The message of the [Error] thrown by the filename check. *)
Definition filenameMessageHead : string :=
  "SplitChunksPlugin: You are trying to set a filename for a chunk which is (also) loaded on demand. " +:+
  "The runtime can only handle loading of chunks which match the chunkFilename schema. " +:+
  "Using a custom filename would fail at runtime. ".

Definition filenameMessage (key : string) : string :=
  filenameMessageHead +:+ "(cache group: " +:+ key +:+ ")".

(** [new MinMaxSizeWarning(keys, minSize, maxSize)]; [keys] is [undefined]
    for the fallback cache group. *)
Record MinMaxSizeWarning := {
  warn_keys : option (list string);
  warn_minSize : Z;
  warn_maxSize : Z
}.

(** Entries of [maxSizeQueueMap]. *)
Record MaxSizeSettings := {
  mq_minSize : gmap string Z;
  mq_maxSize : gmap string Z;
  mq_automaticNameDelimiter : option string;
  mq_keys : list string
}.


(** ** Chunk-set index *)

(** [indexMap]: each chunk gets an index, starting at 1, in iteration order. *)
Definition makeIndexMap (chunks : list Chunk) : list (Chunk * Z) :=
  (foldl (λ '(indexMap, index) chunk, (mapSet chunk index indexMap, index + 1))
     ([], 1) chunks).1.

(** [Array.prototype.sort] moves [undefined] entries to the end, and [join]
    prints them as the empty string. *)
Definition getKey (indexMap : list (Chunk * Z)) (chunks : list Chunk) : string :=
  let indices := map (λ c, mapGet c indexMap) chunks in
  let numbers := merge_sort numberLe (omap id indices) in
  let undefineds := filter (λ o, o = None) indices in
  join (map numberToString numbers ++ map (λ _, "") undefineds).

(** Modelled from the spec: [isSubset(bigSet, smallSet)] of [util/SetHelpers],
    which is not part of the sources at hand: every item of [smallSet] is in
    [bigSet]. *)
Definition isSubset (bigSet smallSet : list Chunk) : bool :=
  forallb (λ item, setHas item bigSet) smallSet.

Section Indexer.
Context {G : Type} `{GraphOps G}.

(** [chunkSetsInGraph], filled by the loop over [compilation.modules]. *)
Definition makeChunkSetsInGraph (g : G) (indexMap : list (Chunk * Z))
    (modules : list Module) : list (string * list Chunk) :=
  foldl (λ chunkSetsInGraph module,
    let chunksKey := getKey indexMap (getModuleChunksIterable g module) in
    if mapHas chunksKey chunkSetsInGraph then chunkSetsInGraph
    else mapSet chunksKey (getModuleChunksIterable g module) chunkSetsInGraph)
    [] modules.
End Indexer.

(** [chunkSetsByCount], filled by the loop over [chunkSetsInGraph.values()]. *)
Definition makeChunkSetsByCount (chunkSetsInGraph : list (string * list Chunk))
  : list (Z * list (list Chunk)) :=
  foldl (λ chunkSetsByCount chunksSet,
    let count := setSize chunksSet in
    match mapGet count chunkSetsByCount with
    | None => mapSet count [chunksSet] chunkSetsByCount
    | Some array => mapSet count (array ++ [chunksSet]) chunkSetsByCount
    end) [] (mapValues chunkSetsInGraph).

(** [getCombinations(key)]; reading [.size] of a missing entry throws. *)
Definition getCombinations (chunkSetsInGraph : list (string * list Chunk))
    (chunkSetsByCount : list (Z * list (list Chunk))) (key : string)
  : Result (list (list Chunk)) :=
  match mapGet key chunkSetsInGraph with
  | None => Throw "TypeError: Cannot read property 'size' of undefined"
  | Some chunksSet =>
      Ok ([chunksSet] ++
        (if 1 <? setSize chunksSet then
           flat_map (λ '(count, setArray),
             if count <? setSize chunksSet
             then filter (λ set, isSubset chunksSet set = true) setArray
             else []) chunkSetsByCount
         else []))
  end.


(** ** State of one run of the [optimizeChunks] callback *)

Section Pass.
Context {G : Type} `{GraphOps G}.

(** [indexMap] is filled once, before any candidate is built. *)
Variable indexMap : list (Chunk * Z).

Record PassState := {
  graph : G;                                        (* compilation, chunkGraph *)
  errors : list string;                             (* compilation.errors *)
  warnings : list MinMaxSizeWarning;                (* compilation.warnings *)
  alreadyValidatedNames : list (option string);
  chunksInfoMap : list (string * ChunksInfoItem);
  maxSizeQueueMap : list (Chunk * MaxSizeSettings)
}.

Definition withGraph (g : G) (st : PassState) : PassState :=
  {| graph := g; errors := errors st; warnings := warnings st;
     alreadyValidatedNames := alreadyValidatedNames st;
     chunksInfoMap := chunksInfoMap st;
     maxSizeQueueMap := maxSizeQueueMap st |}.

Definition withErrors (e : list string) (st : PassState) : PassState :=
  {| graph := graph st; errors := e; warnings := warnings st;
     alreadyValidatedNames := alreadyValidatedNames st;
     chunksInfoMap := chunksInfoMap st;
     maxSizeQueueMap := maxSizeQueueMap st |}.

Definition withValidatedNames (n : list (option string)) (st : PassState)
  : PassState :=
  {| graph := graph st; errors := errors st; warnings := warnings st;
     alreadyValidatedNames := n;
     chunksInfoMap := chunksInfoMap st;
     maxSizeQueueMap := maxSizeQueueMap st |}.

Definition withChunksInfoMap (m : list (string * ChunksInfoItem))
    (st : PassState) : PassState :=
  {| graph := graph st; errors := errors st; warnings := warnings st;
     alreadyValidatedNames := alreadyValidatedNames st;
     chunksInfoMap := m;
     maxSizeQueueMap := maxSizeQueueMap st |}.

Definition withMaxSizeQueueMap (q : list (Chunk * MaxSizeSettings))
    (st : PassState) : PassState :=
  {| graph := graph st; errors := errors st; warnings := warnings st;
     alreadyValidatedNames := alreadyValidatedNames st;
     chunksInfoMap := chunksInfoMap st;
     maxSizeQueueMap := q |}.

(** [getRequests] *)
Definition getRequests (g : G) (chunk : Chunk) : Z :=
  foldl (λ requests length, Z.max requests length) 0 (groupsChunksLength g chunk).

(** *** Candidate builder *)

(** The name check at the head of [addModuleToChunksInfoMap]. *)
Definition validateName (cacheGroup : CacheGroup) (name : option string)
    (st : PassState) : PassState :=
  if setHas name (alreadyValidatedNames st) then st
  else
    let st := withValidatedNames (setAdd name (alreadyValidatedNames st)) st in
    if namedChunksHas (graph st) name
    then withErrors (errors st ++ [conflictMessage (cg_key cacheGroup) name]) st
    else st.

Definition infoKey (cacheGroup : CacheGroup) (name : option string)
    (selectedChunksKey : string) : string :=
  cg_key cacheGroup +:+
    (if truthy name then " name:" +:+ renderName name
     else " chunks:" +:+ selectedChunksKey).

Definition newInfo (cacheGroup : CacheGroup) (name : option string)
  : ChunksInfoItem :=
  {| info_modules := [];
     info_cacheGroup := cacheGroup;
     info_name := name;
     info_validateSize := hasKeys (cg_minSize cacheGroup);
     info_sizes := ∅;
     info_chunks := [];
     info_reuseableChunks := [];
     info_chunksKeys := [] |}.

(** [info.sizes[type] = (info.sizes[type] || 0) + module.size(type)] for
    every source type of the module.  The source types of a module are taken
    not to be property names of [Object.prototype], for which
    [info.sizes[type]] would be an inherited function and the sum a string. *)
Definition addSizes (module : Module) (sizes : gmap string Z) : gmap string Z :=
  foldl (λ sizes kv, <[kv.1 := default 0 (sizes !! kv.1) + kv.2]> sizes)
    sizes (map_to_list (module_sizes module)).

(** The mutations of [info] at the end of [addModuleToChunksInfoMap]. *)
Definition addToInfo (selectedChunks : list Chunk) (selectedChunksKey : string)
    (module : Module) (info : ChunksInfoItem) : ChunksInfoItem :=
  let fresh := negb (setHas selectedChunksKey (info_chunksKeys info)) in
  {| info_modules := setAdd module (info_modules info);
     info_cacheGroup := info_cacheGroup info;
     info_name := info_name info;
     info_validateSize := info_validateSize info;
     info_sizes :=
       if info_validateSize info then addSizes module (info_sizes info)
       else info_sizes info;
     info_chunks :=
       if fresh
       then foldl (λ chunks chunk, setAdd chunk chunks) (info_chunks info)
              selectedChunks
       else info_chunks info;
     info_reuseableChunks := info_reuseableChunks info;
     info_chunksKeys :=
       if fresh then setAdd selectedChunksKey (info_chunksKeys info)
       else info_chunksKeys info |}.

Definition addModuleToChunksInfoMap (cacheGroup : CacheGroup)
    (selectedChunks : list Chunk) (selectedChunksKey : string)
    (module : Module) (st : PassState) : Result PassState :=
  (* Break if minimum number of chunks is not reached *)
  if setSize selectedChunks <? cg_minChunks cacheGroup then Ok st else
  (* Determine name for split chunk *)
  match cg_getName cacheGroup with
  | None => Throw "TypeError: cacheGroup.getName is not a function"
  | Some getName =>
      let name := getName module selectedChunks (cg_key cacheGroup) in
      (* Check if the name is ok *)
      let st := validateName cacheGroup name st in
      (* Create key for maps *)
      let key := infoKey cacheGroup name selectedChunksKey in
      (* Add module to maps *)
      let info :=
        match mapGet key (chunksInfoMap st) with
        | Some info => info
        | None => newInfo cacheGroup name
        end in
      Ok (withChunksInfoMap
            (mapSet key (addToInfo selectedChunks selectedChunksKey module info)
               (chunksInfoMap st)) st)
  end.

(** [for (const module of modules) addModuleToChunksInfoMap(...)] *)
Fixpoint addModulesToChunksInfoMap (cacheGroup : CacheGroup)
    (selectedChunks : list Chunk) (selectedChunksKey : string)
    (modules : list Module) (st : PassState) : Result PassState :=
  match modules with
  | [] => Ok st
  | module :: rest =>
      st ← addModuleToChunksInfoMap cacheGroup selectedChunks
             selectedChunksKey module st;
      addModulesToChunksInfoMap cacheGroup selectedChunks selectedChunksKey
        rest st
  end.

(** Filter items were size < minSize *)
Definition filterMinSize (m : list (string * ChunksInfoItem))
  : list (string * ChunksInfoItem) :=
  foldl (λ m key,
    match mapGet key m with
    | Some info =>
        if info_validateSize info
           && negb (checkMinSize (info_sizes info)
                      (cg_minSize (info_cacheGroup info)))
        then mapDelete key m else m
    | None => m
    end) m (mapKeys m).

(** [getSelectedChunks]: the chunks of the set accepted by the filter, and
    their key.  The cache in front of it does not change the result. *)
Definition getSelectedChunks (chunks : list Chunk) (chunkFilter : Chunk → bool)
  : list Chunk * string :=
  let selectedChunks := filter (λ chunk, chunkFilter chunk = true) chunks in
  (selectedChunks, getKey indexMap selectedChunks).

(** For all combination of chunk selection *)
Fixpoint addCombinations (cacheGroup : CacheGroup) (module : Module)
    (combs : list (list Chunk)) (st : PassState) : Result PassState :=
  match combs with
  | [] => Ok st
  | chunkCombination :: rest =>
      (* Break if minimum number of chunks is not reached *)
      if setSize chunkCombination <? cg_minChunks cacheGroup
      then addCombinations cacheGroup module rest st
      else
        let '(selectedChunks, selectedChunksKey) :=
          getSelectedChunks chunkCombination (cg_chunksFilter cacheGroup) in
        st ← addModuleToChunksInfoMap cacheGroup selectedChunks
               selectedChunksKey module st;
        addCombinations cacheGroup module rest st
  end.

Fixpoint addCacheGroups (options : Options) (module : Module)
    (combs : list (list Chunk)) (cacheGroups : list CacheGroupSource)
    (st : PassState) : Result PassState :=
  match cacheGroups with
  | [] => Ok st
  | cacheGroupSource :: rest =>
      st ← addCombinations (makeCacheGroup options cacheGroupSource) module
             combs st;
      addCacheGroups options module combs rest st
  end.

(** Walk through all modules.  [getCacheGroups] answers [None] when the
    result of [options.getCacheGroups] is not an array.  [combinationsCache]
    only saves calls of [getCombinations], whose result depends on the key
    alone. *)
Fixpoint walkModules (options : Options)
    (getCacheGroups : Module → option (list CacheGroupSource))
    (chunkSetsInGraph : list (string * list Chunk))
    (chunkSetsByCount : list (Z * list (list Chunk)))
    (modules : list Module) (st : PassState) : Result PassState :=
  match modules with
  | [] => Ok st
  | module :: rest =>
      match getCacheGroups module with
      | None | Some [] =>
          walkModules options getCacheGroups chunkSetsInGraph
            chunkSetsByCount rest st
      | Some cacheGroups =>
          let chunksKey :=
            getKey indexMap (getModuleChunksIterable (graph st) module) in
          combs ← getCombinations chunkSetsInGraph chunkSetsByCount chunksKey;
          st ← addCacheGroups options module combs cacheGroups st;
          walkModules options getCacheGroups chunkSetsInGraph
            chunkSetsByCount rest st
      end
  end.

(** *** Selection loop *)

(** Find best matching entry: the [for] loop over [chunksInfoMap]; the
    entries compared are the objects stored in the map, which
    [compareEntries] may sort in place. *)
Fixpoint findBestEntry (keys : list string) (bestEntryKey : option string)
    (m : list (string * ChunksInfoItem))
  : option string * list (string * ChunksInfoItem) :=
  match keys with
  | [] => (bestEntryKey, m)
  | key :: rest =>
      match bestEntryKey with
      | None => findBestEntry rest (Some key) m
      | Some bestKey =>
          match mapGet bestKey m, mapGet key m with
          | Some bestEntry, Some info =>
              let '(res, bestEntry', info') := compareEntries bestEntry info in
              let m := mapSet key info' (mapSet bestKey bestEntry' m) in
              if res <? 0 then findBestEntry rest (Some key) m
              else findBestEntry rest (Some bestKey) m
          | _, _ => findBestEntry rest bestEntryKey m
          end
      end
  end.

(** [const item = bestEntry; chunksInfoMap.delete(bestEntryKey)] *)
Definition takeBestEntry (m : list (string * ChunksInfoItem))
  : option (ChunksInfoItem * list (string * ChunksInfoItem)) :=
  let '(bestEntryKey, m) := findBestEntry (mapKeys m) None m in
  match bestEntryKey with
  | None => None
  | Some key =>
      match mapGet key m with
      | Some item => Some (item, mapDelete key m)
      | None => None
      end
  end.

Definition nameLength (name : option string) : Z :=
  match name with
  | Some s => Z.of_nat (String.length s)
  | None => 0
  end.

Definition nameLt (a b : option string) : bool :=
  match a, b with
  | Some x, Some y => String.ltb x y
  | _, _ => false
  end.

(** The variables [newChunk], [chunkName] and [isReused]. *)
Record Reuse := {
  newChunk : option Chunk;
  chunkName : option string;
  isReused : bool
}.

(** One round of the loop labelled [outer]. *)
Definition reuseBody (g : G) (item : ChunksInfoItem) (r : Reuse) (chunk : Chunk)
  : Reuse :=
  if negb (getNumberOfChunkModules g chunk =? setSize (info_modules item))
  then r
  else if 0 <? getNumberOfEntryModules g chunk then r
  else if negb (forallb (λ module, isModuleInChunk g module chunk)
                  (info_modules item))
  then r
  else
    {| newChunk :=
         match newChunk r with
         | None => Some chunk
         | Some current =>
             if negb (truthy (chunk_name current)) then Some chunk
             else if truthy (chunk_name chunk)
                     && (nameLength (chunk_name chunk)
                           <? nameLength (chunk_name current))
             then Some chunk
             else if truthy (chunk_name chunk)
                     && (nameLength (chunk_name chunk)
                           =? nameLength (chunk_name current))
                     && nameLt (chunk_name chunk) (chunk_name current)
             then Some chunk
             else Some current
         end;
       chunkName := None;
       isReused := true |}.

Definition reuseDecision (g : G) (item : ChunksInfoItem) : Reuse :=
  let start :=
    {| newChunk := None; chunkName := info_name item; isReused := false |} in
  if cg_reuseExistingChunk (info_cacheGroup item)
  then foldl (reuseBody g item) start (info_chunks item)
  else start.

Definition usedChunksOf (item : ChunksInfoItem) (r : Reuse) : list Chunk :=
  filter (λ chunk,
    (negb (truthy (chunkName r))
       || negb (bool_decide (chunk_name chunk = chunkName r)))
    && negb (bool_decide (Some chunk = newChunk r)) = true)
    (info_chunks item).

Definition maxRequestsOf (g : G) (cacheGroup : CacheGroup) (chunk : Chunk)
  : JsNum :=
  if isOnlyInitial g chunk then cg_maxInitialRequests cacheGroup
  else if canBeInitial g chunk
  then minNum (cg_maxInitialRequests cacheGroup) (cg_maxAsyncRequests cacheGroup)
  else cg_maxAsyncRequests cacheGroup.

(** [chunksInLimit], after the reused chunk has been pushed. *)
Definition chunksInLimitOf (g : G) (item : ChunksInfoItem) (r : Reuse)
    (usedChunks : list Chunk) : list Chunk :=
  let chunksInLimit :=
    filter (λ chunk,
      let maxRequests := maxRequestsOf g (info_cacheGroup item) chunk in
      negb (isFinite maxRequests) || ltNum (getRequests g chunk) maxRequests
      = true) usedChunks in
  if isReused r
  then match newChunk r with
       | Some chunk => chunksInLimit ++ [chunk]
       | None => chunksInLimit
       end
  else chunksInLimit.

(** The request-budget block: [Some] result when the block ends in
    [continue], [None] when control falls through to the creation of the
    chunk. *)
Definition requestBudget (item : ChunksInfoItem) (r : Reuse)
    (usedChunks : list Chunk) (st : PassState) : option (Result PassState) :=
  if isFinite (cg_maxInitialRequests (info_cacheGroup item))
     || isFinite (cg_maxAsyncRequests (info_cacheGroup item))
  then
    let chunksInLimit := chunksInLimitOf (graph st) item r usedChunks in
    if setSize chunksInLimit <? setSize usedChunks then
      if cg_minChunks (info_cacheGroup item) <=? setSize chunksInLimit
      then Some (addModulesToChunksInfoMap (info_cacheGroup item)
                   chunksInLimit (getKey indexMap chunksInLimit)
                   (info_modules item) st)
      else Some (Ok st)
    else None
  else None.

(** Creation or reuse of the target chunk, up to the filename check. *)
Definition chunkReasonOf (item : ChunksInfoItem) (r : Reuse) : string :=
  (if isReused r then "reused as split chunk" else "split chunk") +:+
  (if negb (bool_decide (cg_key (info_cacheGroup item) = ""))
   then " (cache group: " +:+ cg_key (info_cacheGroup item) +:+ ")" else "") +:+
  (if truthy (chunkName r)
   then " (name: " +:+ renderName (chunkName r) +:+ ")" else "").

Definition prepareChunk (item : ChunksInfoItem) (r : Reuse)
    (usedChunks : list Chunk) (g : G) : option (Chunk * G) :=
  (* Create the new chunk if not reusing one *)
  let target :=
    if negb (isReused r) then Some (addChunk (chunkName r) g)
    else match newChunk r with
         | Some chunk => Some (chunk, g)
         | None => None
         end in
  match target with
  | None => None
  | Some (newChunk, g) =>
      (* Add graph connections for splitted chunk *)
      let g := foldl (λ g chunk, split chunk newChunk g) g usedChunks in
      (* Add a note to the chunk *)
      let g := setChunkReason newChunk (chunkReasonOf item r) g in
      let g :=
        match chunkName r with
        | Some name =>
            if truthy (chunkName r) && entrypointsHas g name
            then removeEntrypoint name newChunk g else g
        | None => g
        end in
      Some (newChunk, g)
  end.

(** [if (item.cacheGroup.filename) { ... }] *)
Definition checkFilename (item : ChunksInfoItem) (newChunk : Chunk) (g : G)
  : Result G :=
  match cg_filename (info_cacheGroup item) with
  | Some filename =>
      if truthy (Some filename) then
        if negb (isOnlyInitial g newChunk)
        then Throw (filenameMessage (cg_key (info_cacheGroup item)))
        else Ok (setFilenameTemplate newChunk filename g)
      else Ok g
  | None => Ok g
  end.

(** Id hint and transfer of the modules. *)
Definition transferModules (item : ChunksInfoItem) (r : Reuse)
    (usedChunks : list Chunk) (newChunk : Chunk) (g : G) : G :=
  let g :=
    if negb (bool_decide (cg_idHint (info_cacheGroup item) = ""))
    then addIdNameHint newChunk (cg_idHint (info_cacheGroup item)) g else g in
  if negb (isReused r) then
    (* Add all modules to the new chunk *)
    foldl (λ g module,
      if negb (chunkCondition g module newChunk) then g
      else
        let g := connectChunkAndModule newChunk module g in
        foldl (λ g chunk, disconnectChunkAndModule chunk module g) g usedChunks)
      g (info_modules item)
  else
    (* Remove all modules from used chunks *)
    foldl (λ g module,
      foldl (λ g chunk, disconnectChunkAndModule chunk module g) g usedChunks)
      g (info_modules item).

(** [maxSizeQueueMap.set(newChunk, { ... })] *)
Definition recordMaxSize (item : ChunksInfoItem) (newChunk : Chunk)
    (q : list (Chunk * MaxSizeSettings)) : list (Chunk * MaxSizeSettings) :=
  if hasKeys (cg_maxSize (info_cacheGroup item)) then
    let oldMaxSizeSettings := mapGet newChunk q in
    mapSet newChunk
      {| mq_minSize :=
           match oldMaxSizeSettings with
           | Some old =>
               combineSizes (mq_minSize old)
                 (cg_minSizeForMaxSize (info_cacheGroup item)) Z.max
           | None => cg_minSize (info_cacheGroup item)
           end;
         mq_maxSize :=
           match oldMaxSizeSettings with
           | Some old =>
               combineSizes (mq_maxSize old)
                 (cg_maxSize (info_cacheGroup item)) Z.min
           | None => cg_maxSize (info_cacheGroup item)
           end;
         mq_automaticNameDelimiter :=
           cg_automaticNameDelimiter (info_cacheGroup item);
         mq_keys :=
           match oldMaxSizeSettings with
           | Some old => mq_keys old ++ [cg_key (info_cacheGroup item)]
           | None => [cg_key (info_cacheGroup item)]
           end |} q
  else q.

(** *** Retraction: remove all modules from other entries and update size *)

Definition withModulesSizes (modules : list Module) (sizes : gmap string Z)
    (info : ChunksInfoItem) : ChunksInfoItem :=
  {| info_modules := modules;
     info_cacheGroup := info_cacheGroup info;
     info_name := info_name info;
     info_validateSize := info_validateSize info;
     info_sizes := sizes;
     info_chunks := info_chunks info;
     info_reuseableChunks := info_reuseableChunks info;
     info_chunksKeys := info_chunksKeys info |}.

(** [info.sizes[key] -= module.size(key)] for every source type. *)
Definition subSizes (module : Module) (sizes : gmap string Z) : gmap string Z :=
  foldl (λ sizes kv, <[kv.1 := default 0 (sizes !! kv.1) - kv.2]> sizes)
    sizes (map_to_list (module_sizes module)).

(** The inner loop of the size-tracking branch: the module set, the sizes
    and the flag [updated]. *)
Definition removeTracked (itemModules : list Module)
    (start : list Module * gmap string Z * bool)
  : list Module * gmap string Z * bool :=
  foldl (λ '(modules, sizes, updated) module,
    if setHas module modules
    then (setDelete module modules, subSizes module sizes, true)
    else (modules, sizes, updated)) start itemModules.

(** The body of the retraction loop for the entry [key]: the map after it. *)
Definition retractEntry (item : ChunksInfoItem) (key : string)
    (info : ChunksInfoItem) (m : list (string * ChunksInfoItem))
  : list (string * ChunksInfoItem) :=
  if isOverlap (info_chunks info) (info_chunks item) then
    if info_validateSize info then
      let '(modules, sizes, updated) :=
        removeTracked (info_modules item)
          (info_modules info, info_sizes info, false) in
      let info := withModulesSizes modules sizes info in
      let m := mapSet key info m in
      if updated then
        if setSize (info_modules info) =? 0 then mapDelete key m
        else if negb (checkMinSize (info_sizes info)
                        (cg_minSize (info_cacheGroup info)))
        then mapDelete key m
        else m
      else m
    else
      (* only update the modules *)
      let modules :=
        foldl (λ modules module, setDelete module modules) (info_modules info)
          (info_modules item) in
      let info := withModulesSizes modules (info_sizes info) info in
      let m := mapSet key info m in
      if setSize (info_modules info) =? 0 then mapDelete key m else m
  else m.

Definition retract (item : ChunksInfoItem) (m : list (string * ChunksInfoItem))
  : list (string * ChunksInfoItem) :=
  foldl (λ m key,
    match mapGet key m with
    | Some info => retractEntry item key info m
    | None => m
    end) m (mapKeys m).

(** *** One round of [while (chunksInfoMap.size > 0)] *)
Definition selectionStep (st : PassState) : Result PassState :=
  match takeBestEntry (chunksInfoMap st) with
  | None => Ok st
  | Some (item, m) =>
      let st := withChunksInfoMap m st in
      let r := reuseDecision (graph st) item in
      (* Check if maxRequests condition can be fulfilled *)
      let usedChunks := usedChunksOf item r in
      (* Skip when no chunk selected *)
      if (setSize usedChunks =? 0) && negb (isReused r) then Ok st else
      match requestBudget item r usedChunks st with
      | Some continue => continue
      | None =>
          match prepareChunk item r usedChunks (graph st) with
          | None => Throw "TypeError: Cannot set property 'chunkReason' of undefined"
          | Some (newChunk, g) =>
              g ← checkFilename item newChunk g;
              let g := transferModules item r usedChunks newChunk g in
              let q := recordMaxSize item newChunk (maxSizeQueueMap st) in
              Ok (withChunksInfoMap (retract item (chunksInfoMap st))
                    (withMaxSizeQueueMap q (withGraph g st)))
          end
      end
  end.

Fixpoint selectionLoop (fuel : nat) (st : PassState) : Result PassState :=
  match fuel with
  | O => Ok st
  | S fuel =>
      if 0 <? setSize (chunksInfoMap st)
      then st ← selectionStep st; selectionLoop fuel st
      else Ok st
  end.

(** *** Warnings of the max-size pass *)




End Pass.

(** The callback up to the end of the selection loop: index, candidates,
    minSize filter, selection. *)
Definition optimizeChunks {G : Type} `{GraphOps G} (options : Options)
    (getCacheGroups : Module → option (list CacheGroupSource))
    (chunks : list Chunk) (modules : list Module) (fuel : nat) (g : G)
  : Result PassState :=
  let indexMap := makeIndexMap chunks in
  let chunkSetsInGraph := makeChunkSetsInGraph g indexMap modules in
  let chunkSetsByCount := makeChunkSetsByCount chunkSetsInGraph in
  let st :=
    {| graph := g; errors := []; warnings := []; alreadyValidatedNames := [];
       chunksInfoMap := []; maxSizeQueueMap := [] |} in
  st ← walkModules indexMap options getCacheGroups chunkSetsInGraph
         chunkSetsByCount modules st;
  let st := withChunksInfoMap (filterMinSize (chunksInfoMap st)) st in
  selectionLoop indexMap fuel st.

(** ** An in-memory compilation

    A small implementation of the collaborators, used to run the definitions
    above on examples. *)

(** Modelled from the spec: a chunk group is the set of chunks needed
    together at one loading point; it is initial or not. *)
Record ChunkGroup := {
  group_chunks : list Chunk;
  group_initial : bool
}.

(** Modelled from the spec: the chunk graph with the module lists of the
    chunks, the chunk groups with their member chunks, the chunk names in use
    and the entry points, together with the annotations the plugin writes on
    chunks. *)
Record MemGraph := {
  mem_chunkModules : list (Chunk * list Module);
  mem_entryModules : list (Chunk * list Module);
  mem_groups : list ChunkGroup;
  mem_namedChunks : list string;
  mem_entrypoints : list string;
  mem_reasons : list (Chunk * string);
  mem_filenames : list (Chunk * string);
  mem_idHints : list (Chunk * string);
  mem_nextRef : nat
}.

Definition memGroupsOf (g : MemGraph) (chunk : Chunk) : list ChunkGroup :=
  filter (λ group, setHas chunk (group_chunks group) = true) (mem_groups g).

Definition memModulesOf (g : MemGraph) (chunk : Chunk) : list Module :=
  default [] (mapGet chunk (mem_chunkModules g)).

Definition memWithModules (m : list (Chunk * list Module)) (g : MemGraph)
  : MemGraph :=
  {| mem_chunkModules := m; mem_entryModules := mem_entryModules g;
     mem_groups := mem_groups g; mem_namedChunks := mem_namedChunks g;
     mem_entrypoints := mem_entrypoints g; mem_reasons := mem_reasons g;
     mem_filenames := mem_filenames g; mem_idHints := mem_idHints g;
     mem_nextRef := mem_nextRef g |}.

(** Modelled from the spec: a chunk is exclusively initial when it is in some
    chunk group and all its chunk groups are initial, and can be initial when
    one of them is; [split] puts the new chunk into every chunk group of the
    chunk that is split; [addChunk] makes a chunk with a fresh identity and
    registers its name; every module passes [chunkCondition]. *)
#[global] Instance MemGraph_ops : GraphOps MemGraph := {|
  getModuleChunksIterable g module :=
    (filter (λ entry, setHas module entry.2 = true) (mem_chunkModules g)).*1;
  getNumberOfChunkModules g chunk := setSize (memModulesOf g chunk);
  getNumberOfEntryModules g chunk :=
    setSize (default [] (mapGet chunk (mem_entryModules g)));
  isModuleInChunk g module chunk := setHas module (memModulesOf g chunk);
  namedChunksHas g name :=
    match name with
    | Some n => setHas n (mem_namedChunks g)
    | None => false
    end;
  groupsChunksLength g chunk :=
    map (λ group, setSize (group_chunks group)) (memGroupsOf g chunk);
  isOnlyInitial g chunk :=
    negb (bool_decide (memGroupsOf g chunk = []))
    && forallb group_initial (memGroupsOf g chunk);
  canBeInitial g chunk := existsb group_initial (memGroupsOf g chunk);
  chunkCondition g module chunk := true;
  entrypointsHas g name := setHas name (mem_entrypoints g);
  addChunk name g :=
    let chunk := {| chunk_ref := mem_nextRef g; chunk_name := name |} in
    (chunk,
     {| mem_chunkModules := mapSet chunk [] (mem_chunkModules g);
        mem_entryModules := mem_entryModules g;
        mem_groups := mem_groups g;
        mem_namedChunks :=
          match name with
          | Some n => if truthy name then setAdd n (mem_namedChunks g)
                      else mem_namedChunks g
          | None => mem_namedChunks g
          end;
        mem_entrypoints := mem_entrypoints g; mem_reasons := mem_reasons g;
        mem_filenames := mem_filenames g; mem_idHints := mem_idHints g;
        mem_nextRef := S (mem_nextRef g) |});
  split chunk newChunk g :=
    {| mem_chunkModules := mem_chunkModules g;
       mem_entryModules := mem_entryModules g;
       mem_groups :=
         map (λ group,
           if setHas chunk (group_chunks group)
           then {| group_chunks := setAdd newChunk (group_chunks group);
                   group_initial := group_initial group |}
           else group) (mem_groups g);
       mem_namedChunks := mem_namedChunks g;
       mem_entrypoints := mem_entrypoints g; mem_reasons := mem_reasons g;
       mem_filenames := mem_filenames g; mem_idHints := mem_idHints g;
       mem_nextRef := mem_nextRef g |};
  setChunkReason chunk reason g :=
    {| mem_chunkModules := mem_chunkModules g;
       mem_entryModules := mem_entryModules g;
       mem_groups := mem_groups g; mem_namedChunks := mem_namedChunks g;
       mem_entrypoints := mem_entrypoints g;
       mem_reasons := mapSet chunk reason (mem_reasons g);
       mem_filenames := mem_filenames g; mem_idHints := mem_idHints g;
       mem_nextRef := mem_nextRef g |};
  removeEntrypoint name chunk g :=
    {| mem_chunkModules := mem_chunkModules g;
       mem_entryModules := mapDelete chunk (mem_entryModules g);
       mem_groups := mem_groups g; mem_namedChunks := mem_namedChunks g;
       mem_entrypoints := setDelete name (mem_entrypoints g);
       mem_reasons := mem_reasons g;
       mem_filenames := mem_filenames g; mem_idHints := mem_idHints g;
       mem_nextRef := mem_nextRef g |};
  setFilenameTemplate chunk filename g :=
    {| mem_chunkModules := mem_chunkModules g;
       mem_entryModules := mem_entryModules g;
       mem_groups := mem_groups g; mem_namedChunks := mem_namedChunks g;
       mem_entrypoints := mem_entrypoints g; mem_reasons := mem_reasons g;
       mem_filenames := mapSet chunk filename (mem_filenames g);
       mem_idHints := mem_idHints g;
       mem_nextRef := mem_nextRef g |};
  addIdNameHint chunk hint g :=
    {| mem_chunkModules := mem_chunkModules g;
       mem_entryModules := mem_entryModules g;
       mem_groups := mem_groups g; mem_namedChunks := mem_namedChunks g;
       mem_entrypoints := mem_entrypoints g; mem_reasons := mem_reasons g;
       mem_filenames := mem_filenames g;
       mem_idHints := mem_idHints g ++ [(chunk, hint)];
       mem_nextRef := mem_nextRef g |};
  connectChunkAndModule chunk module g :=
    memWithModules
      (mapSet chunk (setAdd module (memModulesOf g chunk)) (mem_chunkModules g)) g;
  disconnectChunkAndModule chunk module g :=
    memWithModules
      (mapSet chunk (setDelete module (memModulesOf g chunk)) (mem_chunkModules g)) g
|}.

(** *** Example data *)

Definition jsModule (ref : nat) (identifier : string) (size : Z) : Module :=
  {| module_ref := ref; module_identifier := identifier;
     module_sizes := <["javascript" := size]> ∅ |}.

Definition exampleOptions : Options :=
  {| opt_chunksFilter := λ _, true;
     opt_minSize := <["javascript" := 30000]> ∅;
     opt_maxSize := ∅;
     opt_minChunks := 1;
     opt_maxAsyncRequests := Num 5;
     opt_maxInitialRequests := Num 3;
     opt_hidePathInfo := false;
     opt_filename := None;
     opt_automaticNameDelimiter := Some "~" |}.

Definition exampleSource (key : string) (name : option string) (enforce : bool)
  : CacheGroupSource :=
  {| src_key := key;
     src_priority := None;
     src_chunksFilter := None;
     src_enforce := enforce;
     src_minSize := JsUndefined;
     src_maxSize := JsUndefined;
     src_minChunks := None;
     src_maxAsyncRequests := None;
     src_maxInitialRequests := None;
     src_getName := Some (λ _ _ _, name);
     src_filename := None;
     src_automaticNameDelimiter := None;
     src_idHint := None;
     src_reuseExistingChunk := false |}.

Definition exampleCacheGroup (key : string) (name : option string) : CacheGroup :=
  makeCacheGroup exampleOptions (exampleSource key name true).

Definition exampleItem (cacheGroup : CacheGroup) (name : option string)
    (modules : list Module) (chunks : list Chunk) : ChunksInfoItem :=
  {| info_modules := modules;
     info_cacheGroup := cacheGroup;
     info_name := name;
     info_validateSize := hasKeys (cg_minSize cacheGroup);
     info_sizes := ∅;
     info_chunks := chunks;
     info_reuseableChunks := [];
     info_chunksKeys := [] |}.

Definition chunkA : Chunk := {| chunk_ref := 1; chunk_name := Some "A" |}.
Definition chunkB : Chunk := {| chunk_ref := 2; chunk_name := Some "B" |}.
Definition chunkC : Chunk := {| chunk_ref := 3; chunk_name := None |}.

(** Two pending entries: one spanning two chunks, one spanning three. *)
Definition examplePending : list (string * ChunksInfoItem) :=
  [("vendors chunks:1,2",
    exampleItem (exampleCacheGroup "vendors" None) None
      [jsModule 1 "./a.js" 10] [chunkA; chunkB]);
   ("vendors chunks:1,2,3",
    exampleItem (exampleCacheGroup "vendors" None) None
      [jsModule 2 "./b.js" 10] [chunkA; chunkB; chunkC])].

(** The module set of [info] once the modules of [item] have been deleted
    from it, and its sizes once the size-tracking branch of the retraction has
    subtracted the deleted modules. *)
Definition retractedModules (item info : ChunksInfoItem) : list Module :=
  foldl (λ modules module, setDelete module modules) (info_modules info)
    (info_modules item).

Definition retractedSizes (item info : ChunksInfoItem) : gmap string Z :=
  (removeTracked (info_modules item)
     (info_modules info, info_sizes info, false)).1.2.

(** A pending map for the retraction: [shared] holds the modules 2 and 3 on
    the chunks A and B; [vendors] holds the modules 1 and 2 on chunk A,
    [other] the module 2 on chunk B, and [async] the module 3 on chunk C. *)
Definition retractionItem : ChunksInfoItem :=
  exampleItem (exampleCacheGroup "shared" (Some "shared")) (Some "shared")
    [jsModule 2 "./b.js" 10; jsModule 3 "./c.js" 10] [chunkA; chunkB].

Definition retractionPending : list (string * ChunksInfoItem) :=
  [("vendors chunks:1",
    exampleItem (exampleCacheGroup "vendors" None) None
      [jsModule 1 "./a.js" 10; jsModule 2 "./b.js" 10] [chunkA]);
   ("other chunks:2",
    exampleItem (exampleCacheGroup "other" None) None
      [jsModule 2 "./b.js" 10] [chunkB]);
   ("async chunks:3",
    exampleItem (exampleCacheGroup "async" None) None
      [jsModule 3 "./c.js" 10] [chunkC])].

(** The three tests a chunk passes in the loop labelled [outer] before it
    is considered for reuse. *)
Definition matchesExactly {G : Type} `{GraphOps G} (g : G)
    (item : ChunksInfoItem) (chunk : Chunk) : bool :=
  (getNumberOfChunkModules g chunk =? setSize (info_modules item))
  && negb (0 <? getNumberOfEntryModules g chunk)
  && forallb (λ module, isModuleInChunk g module chunk) (info_modules item).

(** The name of [a] is not longer than that of [b], and at equal length the
    name of [b] is not the smaller one. *)
Definition notWorse (a b : Chunk) : Prop :=
  nameLength (chunk_name a) < nameLength (chunk_name b)
  ∨ nameLength (chunk_name a) = nameLength (chunk_name b)
    ∧ nameLt (chunk_name b) (chunk_name a) = false.

(** The state of the reuse variables after the matching chunks [seen]. *)
Definition reuseInv (item : ChunksInfoItem) (r : Reuse) (seen : list Chunk) : Prop :=
  (seen = [] →
   r = {| newChunk := None; chunkName := info_name item; isReused := false |})
  ∧ (seen ≠ [] →
     isReused r = true ∧ chunkName r = None
     ∧ ∃ chosen, newChunk r = Some chosen ∧ chosen ∈ seen
         ∧ (∀ c, c ∈ seen → truthy (chunk_name c) = true →
              truthy (chunk_name chosen) = true ∧ notWorse chosen c)
         ∧ ((∀ c, c ∈ seen → truthy (chunk_name c) = false) →
              last seen = Some chosen)).

(** A chunk graph in which the unnamed chunk C and the chunk B each hold
    exactly the modules 2 and 3, and an entry spanning C and B that allows
    reuse. *)
Definition reuseGraph : MemGraph :=
  {| mem_chunkModules :=
       [(chunkC, [jsModule 2 "./b.js" 10; jsModule 3 "./c.js" 10]);
        (chunkB, [jsModule 2 "./b.js" 10; jsModule 3 "./c.js" 10])];
     mem_entryModules := [];
     mem_groups :=
       [{| group_chunks := [chunkC]; group_initial := false |};
        {| group_chunks := [chunkB]; group_initial := true |}];
     mem_namedChunks := ["B"];
     mem_entrypoints := ["B"];
     mem_reasons := []; mem_filenames := []; mem_idHints := [];
     mem_nextRef := 10 |}.

Definition reuseCacheGroup : CacheGroup :=
  {| cg_key := "shared";
     cg_priority := 0;
     cg_chunksFilter := λ _, true;
     cg_minSize := ∅;
     cg_minSizeForMaxSize := ∅;
     cg_maxSize := ∅;
     cg_minChunks := 1;
     cg_maxAsyncRequests := Infinity;
     cg_maxInitialRequests := Infinity;
     cg_getName := Some (λ _ _ _, None);
     cg_filename := None;
     cg_automaticNameDelimiter := Some "~";
     cg_idHint := "shared";
     cg_reuseExistingChunk := true |}.

Definition reuseItem : ChunksInfoItem :=
  exampleItem reuseCacheGroup None
    [jsModule 2 "./b.js" 10; jsModule 3 "./c.js" 10] [chunkC; chunkB].

(** The buckets of [chunkSetsByCount]: under each count, exactly the
    sets of [sets] with that many chunks. *)
Definition bucketsOf (sets : list (list Chunk))
    (chunkSetsByCount : list (Z * list (list Chunk))) : Prop :=
  NoDup (mapKeys chunkSetsByCount)
  ∧ (∀ count array, mapGet count chunkSetsByCount = Some array →
       ∀ set, set ∈ array ↔ set ∈ sets ∧ setSize set = count)
  ∧ (∀ set, set ∈ sets → is_Some (mapGet (setSize set) chunkSetsByCount)).

(** A compilation with a module that is in no chunk and a module in the
    chunk A. *)
Definition orphanGraph : MemGraph :=
  {| mem_chunkModules := [(chunkA, [jsModule 1 "./a.js" 10])];
     mem_entryModules := [];
     mem_groups := [{| group_chunks := [chunkA]; group_initial := true |}];
     mem_namedChunks := ["A"];
     mem_entrypoints := ["A"];
     mem_reasons := []; mem_filenames := []; mem_idHints := [];
     mem_nextRef := 10 |}.

Definition orphanChunkSets : list (string * list Chunk) :=
  makeChunkSetsInGraph orphanGraph (makeIndexMap [chunkA])
    [jsModule 0 "./orphan.js" 10; jsModule 1 "./a.js" 10].

(** Three modules in the chunks {A}, {A, B} and {B, C}. *)
Definition overlapGraph : MemGraph :=
  {| mem_chunkModules :=
       [(chunkA, [jsModule 1 "./a.js" 10; jsModule 2 "./b.js" 10]);
        (chunkB, [jsModule 2 "./b.js" 10; jsModule 3 "./c.js" 10]);
        (chunkC, [jsModule 3 "./c.js" 10])];
     mem_entryModules := [];
     mem_groups := [{| group_chunks := [chunkA; chunkB; chunkC];
                       group_initial := true |}];
     mem_namedChunks := ["A"; "B"];
     mem_entrypoints := ["A"];
     mem_reasons := []; mem_filenames := []; mem_idHints := [];
     mem_nextRef := 10 |}.

Definition overlapChunkSets : list (string * list Chunk) :=
  makeChunkSetsInGraph overlapGraph (makeIndexMap [chunkA; chunkB; chunkC])
    [jsModule 1 "./a.js" 10; jsModule 2 "./b.js" 10; jsModule 3 "./c.js" 10].

(** An entry with an explicit filename whose chunks A and B sit in one chunk
    group that is not initial. *)
Definition asyncGraph : MemGraph :=
  {| mem_chunkModules :=
       [(chunkA, [jsModule 1 "./a.js" 10; jsModule 2 "./b.js" 10]);
        (chunkB, [jsModule 2 "./b.js" 10])];
     mem_entryModules := [];
     mem_groups := [{| group_chunks := [chunkA; chunkB]; group_initial := false |}];
     mem_namedChunks := ["A"; "B"];
     mem_entrypoints := [];
     mem_reasons := []; mem_filenames := []; mem_idHints := [];
     mem_nextRef := 10 |}.

Definition filenameCacheGroup : CacheGroup :=
  {| cg_key := "vendors";
     cg_priority := 0;
     cg_chunksFilter := λ _, true;
     cg_minSize := ∅;
     cg_minSizeForMaxSize := ∅;
     cg_maxSize := ∅;
     cg_minChunks := 1;
     cg_maxAsyncRequests := Infinity;
     cg_maxInitialRequests := Infinity;
     cg_getName := Some (λ _ _ _, Some "vendors");
     cg_filename := Some "vendors.js";
     cg_automaticNameDelimiter := Some "~";
     cg_idHint := "vendors";
     cg_reuseExistingChunk := false |}.

Definition filenameState : @PassState MemGraph :=
  {| graph := asyncGraph;
     errors := [];
     warnings := [];
     alreadyValidatedNames := [Some "vendors"];
     chunksInfoMap :=
       [("vendors name:vendors",
         exampleItem filenameCacheGroup (Some "vendors")
           [jsModule 2 "./b.js" 10] [chunkA; chunkB])];
     maxSizeQueueMap := [] |}.





(** Two chunks whose recorded minSize exceeds the maxSize in the same way. *)
Definition inversionSettings : MaxSizeSettings :=
  {| mq_minSize := <["javascript" := 500]> ∅;
     mq_maxSize := <["javascript" := 100]> ∅;
     mq_automaticNameDelimiter := Some "~";
     mq_keys := ["vendors"] |}.

Definition inversionQueue : list (Chunk * MaxSizeSettings) :=
  [(chunkA, inversionSettings); (chunkB, inversionSettings)].



(** The pending map [m] after the modules [processed] have been added again
    for the cache group [cacheGroup] with the chunks [selectedChunks], starting
    from the map [rest]: every processed module sits in the entry under the
    key of its recomputed name, and an entry that was not in [rest] belongs to
    the cache group, carries the name computed for one of its modules, spans
    the selected chunks and holds processed modules only. *)
Definition reinserted (cacheGroup : CacheGroup) (getName : NameFn)
    (selectedChunks : list Chunk) (selectedChunksKey : string)
    (rest : list (string * ChunksInfoItem)) (processed : list Module)
    (m : list (string * ChunksInfoItem)) : Prop :=
  (∀ k info, mapGet k rest = None → mapGet k m = Some info →
     info_cacheGroup info = cacheGroup
     ∧ (∃ module, module ∈ processed
          ∧ k = infoKey cacheGroup
                  (getName module selectedChunks (cg_key cacheGroup))
                  selectedChunksKey
          ∧ info_name info = getName module selectedChunks (cg_key cacheGroup))
     ∧ (∀ chunk, chunk ∈ info_chunks info ↔ chunk ∈ selectedChunks)
     ∧ selectedChunksKey ∈ info_chunksKeys info
     ∧ (∀ module, module ∈ info_modules info → module ∈ processed))
  ∧ (∀ module, module ∈ processed →
       ∃ info,
         mapGet (infoKey cacheGroup
                   (getName module selectedChunks (cg_key cacheGroup))
                   selectedChunksKey) m = Some info
         ∧ module ∈ info_modules info).

(** [usedChunks] and [chunksInLimit] of an entry, as the round computes
    them from the reuse decision. *)
Definition usedChunksAt {G : Type} `{GraphOps G} (g : G) (item : ChunksInfoItem)
  : list Chunk :=
  usedChunksOf item (reuseDecision g item).

Definition chunksInLimitAt {G : Type} `{GraphOps G} (g : G)
    (item : ChunksInfoItem) : list Chunk :=
  chunksInLimitOf g item (reuseDecision g item) (usedChunksAt g item).

(** Chunk A shares its chunk group with two more chunks; B and C are alone
    in theirs.  With at most two requests allowed, A is over the budget. *)
Definition budgetGraph : MemGraph :=
  {| mem_chunkModules :=
       [(chunkA, [jsModule 1 "./a.js" 10]);
        (chunkB, [jsModule 1 "./a.js" 10]);
        (chunkC, [jsModule 1 "./a.js" 10])];
     mem_entryModules := [];
     mem_groups :=
       [{| group_chunks :=
             [chunkA; {| chunk_ref := 4; chunk_name := Some "x" |};
              {| chunk_ref := 5; chunk_name := Some "y" |}];
           group_initial := true |};
        {| group_chunks := [chunkB]; group_initial := true |};
        {| group_chunks := [chunkC]; group_initial := true |}];
     mem_namedChunks := ["A"; "B"; "x"; "y"];
     mem_entrypoints := ["A"; "B"];
     mem_reasons := []; mem_filenames := []; mem_idHints := [];
     mem_nextRef := 10 |}.

Definition budgetCacheGroup : CacheGroup :=
  {| cg_key := "vendors";
     cg_priority := 0;
     cg_chunksFilter := λ _, true;
     cg_minSize := ∅;
     cg_minSizeForMaxSize := ∅;
     cg_maxSize := ∅;
     cg_minChunks := 2;
     cg_maxAsyncRequests := Num 2;
     cg_maxInitialRequests := Num 2;
     cg_getName := Some (λ _ _ _, Some "vendors");
     cg_filename := None;
     cg_automaticNameDelimiter := Some "~";
     cg_idHint := "vendors";
     cg_reuseExistingChunk := false |}.

Definition budgetState : @PassState MemGraph :=
  {| graph := budgetGraph;
     errors := [];
     warnings := [];
     alreadyValidatedNames := [Some "vendors"];
     chunksInfoMap :=
       [("vendors name:vendors",
         exampleItem budgetCacheGroup (Some "vendors")
           [jsModule 1 "./a.js" 10] [chunkA; chunkB; chunkC])];
     maxSizeQueueMap := [] |}.

Definition budgetIndexMap : list (Chunk * Z) :=
  makeIndexMap [chunkA; chunkB; chunkC].

(** The scenario of two chunks A = {m1, m2, m3} and B = {m2, m3, m4} with a
    cache group named "shared" that asks for two chunks. *)
Definition scenarioGraph : MemGraph :=
  {| mem_chunkModules :=
       [(chunkA, [jsModule 1 "m1" 10; jsModule 2 "m2" 10; jsModule 3 "m3" 10]);
        (chunkB, [jsModule 2 "m2" 10; jsModule 3 "m3" 10; jsModule 4 "m4" 10])];
     mem_entryModules := [];
     mem_groups :=
       [{| group_chunks := [chunkA]; group_initial := true |};
        {| group_chunks := [chunkB]; group_initial := true |}];
     mem_namedChunks := ["A"; "B"];
     mem_entrypoints := ["A"; "B"];
     mem_reasons := []; mem_filenames := []; mem_idHints := [];
     mem_nextRef := 10 |}.

Definition scenarioSource : CacheGroupSource :=
  {| src_key := "shared";
     src_priority := None;
     src_chunksFilter := None;
     src_enforce := false;
     src_minSize := JsNumber 0;
     src_maxSize := JsUndefined;
     src_minChunks := Some 2;
     src_maxAsyncRequests := None;
     src_maxInitialRequests := None;
     src_getName := Some (λ _ _ _, Some "shared");
     src_filename := None;
     src_automaticNameDelimiter := None;
     src_idHint := None;
     src_reuseExistingChunk := false |}.

(** ** Predicates used in the statements *)

(** Every entry of a map satisfies [P]. *)
Definition mapForall {K V} (P : V → Prop) (m : list (K * V)) : Prop :=
  ∀ k v, (k, v) ∈ m → P v.

(** Size tracking of an entry is on exactly when the minSize of its cache
    group has keys, and an entry without size tracking has no sizes. *)
Definition trackingOptIn (info : ChunksInfoItem) : Prop :=
  info_validateSize info = hasKeys (cg_minSize (info_cacheGroup info))
  ∧ (info_validateSize info = false → info_sizes info = ∅).

(** A number-valued comparison function that orders its arguments: swapping
    them negates the sign, and "not above" is transitive. *)
Record Comparator {A} (c : A → A → Z) : Prop := {
  cmp_antisym : ∀ a b, Z.sgn (c b a) = - Z.sgn (c a b);
  cmp_trans : ∀ a b d, c a b ≤ 0 → c b d ≤ 0 → c a d ≤ 0
}.

(** Compare by [c1], and by [c2] where [c1] gives 0. *)
Definition lexCompare {A} (c1 c2 : A → A → Z) (a b : A) : Z :=
  if negb (c1 a b =? 0) then c1 a b else c2 a b.

(** The number returned by [compareEntries]. *)
Definition compareResult (a b : ChunksInfoItem) : Z := (compareEntries a b).1.1.

Definition priorityOf (info : ChunksInfoItem) : Z :=
  cg_priority (info_cacheGroup info).

Definition sizeReduction (info : ChunksInfoItem) : Z :=
  totalSize (info_sizes info) * (setSize (info_chunks info) - 1).

Definition sortedIdentifiers (info : ChunksInfoItem) : list string :=
  module_identifier <$> sortModules (info_modules info).

(** Strict lexicographic order on sequences of identifiers. *)
Inductive lexLt : list string → list string → Prop :=
| lexLt_nil y l : lexLt [] (y :: l)
| lexLt_head x y l l' : String.ltb x y = true → lexLt (x :: l) (y :: l')
| lexLt_tail x l l' : lexLt l l' → lexLt (x :: l) (x :: l').

(** The order of the selection as the specification words it: [a] ranks
    below [b] by priority, then by number of chunks, then by size reduction,
    then by number of modules, and last by the sorted identifiers, inverted. *)
Definition ranksBelow (a b : ChunksInfoItem) : Prop :=
  priorityOf a < priorityOf b
  ∨ priorityOf a = priorityOf b
    ∧ (setSize (info_chunks a) < setSize (info_chunks b)
       ∨ setSize (info_chunks a) = setSize (info_chunks b)
         ∧ (sizeReduction a < sizeReduction b
            ∨ sizeReduction a = sizeReduction b
              ∧ (setSize (info_modules a) < setSize (info_modules b)
                 ∨ setSize (info_modules a) = setSize (info_modules b)
                   ∧ lexLt (sortedIdentifiers b) (sortedIdentifiers a)))).

(** Two items that differ at most in the iteration order of their modules. *)
Definition itemEquiv (a b : ChunksInfoItem) : Prop :=
  info_modules a ≡ₚ info_modules b
  ∧ info_cacheGroup a = info_cacheGroup b
  ∧ info_name a = info_name b
  ∧ info_validateSize a = info_validateSize b
  ∧ info_sizes a = info_sizes b
  ∧ info_chunks a = info_chunks b
  ∧ info_reuseableChunks a = info_reuseableChunks b
  ∧ info_chunksKeys a = info_chunksKeys b.

(** Two maps with the same keys in the same order and equivalent items. *)
Definition mapEquiv (m m0 : list (string * ChunksInfoItem)) : Prop :=
  Forall2 (λ x y, x.1 = y.1 ∧ itemEquiv x.2 y.2) m m0.

(** In the map [m0], no entry under the keys [ks] compares above the entry
    under [bestKey]. *)
Definition dominates (m0 : list (string * ChunksInfoItem)) (bestKey : string)
    (ks : list string) : Prop :=
  ∀ k best info, k ∈ ks →
    mapGet bestKey m0 = Some best → mapGet k m0 = Some info →
    0 ≤ compareResult best info.

(** An entry the minSize filter deletes: size tracking is on and the sizes
    fail the minSize of the cache group. *)
Definition belowMinSize (info : ChunksInfoItem) : bool :=
  info_validateSize info
  && negb (checkMinSize (info_sizes info) (cg_minSize (info_cacheGroup info))).

(** A pending map with a size-tracked entry below its minSize of 30000 and an
    entry without size tracking. *)
Definition minSizePending : list (string * ChunksInfoItem) :=
  [("default chunks:1,2",
    exampleItem (makeCacheGroup exampleOptions (exampleSource "default" None false))
      None [jsModule 1 "./a.js" 10] [chunkA; chunkB]);
   ("vendors chunks:1,2",
    exampleItem (exampleCacheGroup "vendors" None) None
      [jsModule 2 "./b.js" 10] [chunkA; chunkB])].

(** The string holds no comma. *)
Fixpoint noComma (s : string) : bool :=
  match s with
  | EmptyString => true
  | String c rest => negb (Ascii.eqb c ","%char) && noComma rest
  end.

(** The entry lists no chunk twice and has at least as many chunks as its
    cache group asks for. *)
Definition spansMinChunks (info : ChunksInfoItem) : Prop :=
  NoDup (info_chunks info)
  ∧ cg_minChunks (info_cacheGroup info) ≤ setSize (info_chunks info).

(** Neither request limit of the cache group of the entry is finite. *)
Definition unlimitedRequests (info : ChunksInfoItem) : Prop :=
  cg_maxInitialRequests (info_cacheGroup info) = Infinity
  ∧ cg_maxAsyncRequests (info_cacheGroup info) = Infinity.

(** The outcome is a state with the same chunk graph, or the [TypeError] of a
    cache group without [getName]. *)
Definition graphKept {G : Type} (g : G) (r : Result (@PassState G)) : Prop :=
  match r with
  | Ok st' => graph st' = g
  | Throw message => message = "TypeError: cacheGroup.getName is not a function"
  end.

(** A cache group source without [getName]. *)
Definition namelessSource : CacheGroupSource :=
  {| src_key := "shared";
     src_priority := None;
     src_chunksFilter := None;
     src_enforce := false;
     src_minSize := JsNumber 0;
     src_maxSize := JsUndefined;
     src_minChunks := Some 2;
     src_maxAsyncRequests := None;
     src_maxInitialRequests := None;
     src_getName := None;
     src_filename := None;
     src_automaticNameDelimiter := None;
     src_idHint := None;
     src_reuseExistingChunk := false |}.

(** An entry whose cache group has a [maxSize] of 200 and a [minSize] of 50. *)
Definition maxSizeSource : CacheGroupSource :=
  {| src_key := "vendors";
     src_priority := None;
     src_chunksFilter := None;
     src_enforce := true;
     src_minSize := JsNumber 50;
     src_maxSize := JsNumber 200;
     src_minChunks := None;
     src_maxAsyncRequests := None;
     src_maxInitialRequests := None;
     src_getName := Some (λ _ _ _, None);
     src_filename := None;
     src_automaticNameDelimiter := None;
     src_idHint := None;
     src_reuseExistingChunk := false |}.

Definition maxSizeItem : ChunksInfoItem :=
  exampleItem (makeCacheGroup exampleOptions maxSizeSource) None
    [jsModule 1 "./a.js" 10] [chunkA; chunkB].

(** ** Normalisation of the options *)

(** The values of a [chunks] option: a string, a function, anything else. *)
Inductive ChunksOption :=
| ChunksString (s : string)
| ChunksFunction (f : Chunk → bool)
| ChunksOther.

(** The values of a [name] option. *)
Inductive NameOption :=
| NameUndefined
| NameBoolean (b : bool)
| NameString (s : string)
| NameFunction (f : NameFn).

(** The values of a [test] option; a [RegExp] is given by the names it
    matches, which is what [test.test(name)] answers for a [RegExp] without
    the flags [g] and [y]. *)
Inductive TestOption :=
| TestUndefined
| TestFunction (f : Module → bool)
| TestBoolean (b : bool)
| TestString (s : string)
| TestRegExp (matches : string → bool)
| TestOther.

(** The values of a [type] option. *)
Inductive TypeOption :=
| TypeUndefined
| TypeFunction (f : string → bool)
| TypeString (s : string)
| TypeRegExp (matches : string → bool)
| TypeOther.

(** A cache group given as an object. *)
Record CacheGroupConfig := {
  cfg_test : TestOption;
  cfg_type : TypeOption;
  cfg_priority : option Z;
  cfg_name : NameOption;
  cfg_chunks : ChunksOption;
  cfg_enforce : bool;
  cfg_minSize : JsValue;
  cfg_maxSize : JsValue;
  cfg_minChunks : option Z;
  cfg_maxAsyncRequests : option JsNum;
  cfg_maxInitialRequests : option JsNum;
  cfg_filename : option string;
  cfg_idHint : option string;
  cfg_automaticNameDelimiter : option string;
  cfg_reuseExistingChunk : bool
}.

(** An object among those a function-valued entry returns, by the
    properties the plugin reads from it: [fg_key] is its own property [key]
    when it has one, [fg_name] its [name] and [fg_chunks] its [chunks], with
    [None] for a falsy value that is no string.  A truthy [name] that is no
    string is left out. *)
Record FunctionGroup := {
  fg_key : option string;
  fg_name : option string;
  fg_getName : option NameFn;
  fg_chunks : option ChunksOption;
  fg_chunksFilter : option (Chunk → bool);
  fg_priority : option Z;
  fg_enforce : bool;
  fg_minSize : JsValue;
  fg_maxSize : JsValue;
  fg_minChunks : option Z;
  fg_maxAsyncRequests : option JsNum;
  fg_maxInitialRequests : option JsNum;
  fg_filename : option string;
  fg_automaticNameDelimiter : option string;
  fg_idHint : option string;
  fg_reuseExistingChunk : bool
}.

(** What a function-valued entry returns for a module: a falsy value, one
    object, or an array of objects. *)
Inductive FunctionResult :=
| ResultFalsy
| ResultObject (r : FunctionGroup)
| ResultArray (rs : list FunctionGroup).

(** [Array.isArray(result) ? result : [result]] *)
Definition resultGroups (result : FunctionResult) : list FunctionGroup :=
  match result with
  | ResultFalsy => []
  | ResultObject r => [r]
  | ResultArray rs => rs
  end.

(** The entries of the [cacheGroups] object: [false], a [RegExp], a string,
    a function, an object.  [cacheGroups] given as a function is left
    out. *)
Inductive CacheGroupOption :=
| OptionFalse
| OptionRegExp (matches : string → bool)
| OptionString (s : string)
| OptionFunction (f : Module → FunctionResult)
| OptionObject (o : CacheGroupConfig).

Definition isFunctionEntry (entry : CacheGroupOption) : bool :=
  match entry with
  | OptionFunction _ => true
  | _ => false
  end.

(** [if (result.chunks)] *)
Definition chunksTruthy (chunks : option ChunksOption) : bool :=
  match chunks with
  | None => false
  | Some (ChunksString s) => negb (bool_decide (s = ""))
  | Some (ChunksFunction _) => true
  | Some ChunksOther => true
  end.

(** Truthiness of a [name] option, and [a || b]. *)
Definition nameTruthy (name : NameOption) : bool :=
  match name with
  | NameUndefined => false
  | NameBoolean b => b
  | NameString s => negb (bool_decide (s = ""))
  | NameFunction _ => true
  end.

Definition orName (a b : NameOption) : NameOption :=
  if nameTruthy a then a else b.

Definition normalizeName (name : NameOption) : option NameFn :=
  match name with
  | NameString s => Some (λ _ _ _, Some s)
  | NameFunction f => Some f
  | _ => None
  end.

(** [{ test: option }] *)
Definition testOnly (test : TestOption) : CacheGroupConfig :=
  {| cfg_test := test;
     cfg_type := TypeUndefined;
     cfg_priority := None;
     cfg_name := NameUndefined;
     cfg_chunks := ChunksOther;
     cfg_enforce := false;
     cfg_minSize := JsUndefined;
     cfg_maxSize := JsUndefined;
     cfg_minChunks := None;
     cfg_maxAsyncRequests := None;
     cfg_maxInitialRequests := None;
     cfg_filename := None;
     cfg_idHint := None;
     cfg_automaticNameDelimiter := None;
     cfg_reuseExistingChunk := false |}.

(** The head of the loop body of [normalizeCacheGroups]: [false] is skipped,
    a [RegExp] or a string stands for an object with that [test]; a function
    is no object to check, it is called. *)
Definition optionConfig (entry : CacheGroupOption) : option CacheGroupConfig :=
  match entry with
  | OptionFalse => None
  | OptionRegExp matches => Some (testOnly (TestRegExp matches))
  | OptionString s => Some (testOnly (TestString s))
  | OptionFunction _ => None
  | OptionObject o => Some o
  end.

Section Normalize.
Context {G : Type} `{GraphOps G}.

(** The chunk graph when the chunk filters are called; the walk over the
    modules, which calls them, does not change it. *)
Variable g : G.

(** [module.nameForCondition()] and [module.type] *)
Variable nameForCondition : Module → option string.
Variable moduleType : Module → string.

Definition INITIAL_CHUNK_FILTER (chunk : Chunk) : bool := canBeInitial g chunk.
Definition ASYNC_CHUNK_FILTER (chunk : Chunk) : bool := negb (canBeInitial g chunk).
Definition ALL_CHUNK_FILTER (chunk : Chunk) : bool := true.

Definition normalizeChunksFilter (chunks : ChunksOption) : option (Chunk → bool) :=
  match chunks with
  | ChunksString s =>
      if bool_decide (s = "initial") then Some INITIAL_CHUNK_FILTER
      else if bool_decide (s = "async") then Some ASYNC_CHUNK_FILTER
      else if bool_decide (s = "all") then Some ALL_CHUNK_FILTER
      else None
  | ChunksFunction f => Some f
  | ChunksOther => None
  end.

(** [checkTest], as the truthiness of what it returns. *)
Definition checkTest (test : TestOption) (module : Module) : bool :=
  match test with
  | TestUndefined => true
  | TestFunction f => f module
  | TestBoolean b => b
  | TestString s =>
      match nameForCondition module with
      | Some name => negb (bool_decide (name = "")) && String.prefix s name
      | None => false
      end
  | TestRegExp matches =>
      match nameForCondition module with
      | Some name => negb (bool_decide (name = "")) && matches name
      | None => false
      end
  | TestOther => false
  end.

Definition checkModuleType (test : TypeOption) (module : Module) : bool :=
  match test with
  | TypeUndefined => true
  | TypeFunction f => f (moduleType module)
  | TypeString s => bool_decide (s = moduleType module)
  | TypeRegExp matches => matches (moduleType module)
  | TypeOther => false
  end.

(** The object pushed on [results] for an entry that passed both checks. *)
Definition sourceOf (name : NameOption) (key : string) (config : CacheGroupConfig)
  : CacheGroupSource :=
  {| src_key := key;
     src_priority := cfg_priority config;
     src_chunksFilter := normalizeChunksFilter (cfg_chunks config);
     src_enforce := cfg_enforce config;
     src_minSize := JsObject (normalizeSizes (cfg_minSize config));
     src_maxSize := JsObject (normalizeSizes (cfg_maxSize config));
     src_minChunks := cfg_minChunks config;
     src_maxAsyncRequests := cfg_maxAsyncRequests config;
     src_maxInitialRequests := cfg_maxInitialRequests config;
     src_getName :=
       Some (default (λ _ _ _, None)
               (normalizeName (orName (cfg_name config) name)));
     src_filename := cfg_filename config;
     src_automaticNameDelimiter := cfg_automaticNameDelimiter config;
     src_idHint := cfg_idHint config;
     src_reuseExistingChunk := cfg_reuseExistingChunk config |}.

(** The object pushed on [results] for an object [r] returned by a
    function-valued entry: [Object.assign({ key }, r)], with [getName] set
    when [name] is truthy, [chunksFilter] set when [chunks] is truthy, and
    the sizes normalised. *)
Definition functionSource (key : string) (r : FunctionGroup) : CacheGroupSource :=
  {| src_key := default key (fg_key r);
     src_priority := fg_priority r;
     src_chunksFilter :=
       match fg_chunks r with
       | Some chunks =>
           if chunksTruthy (fg_chunks r) then normalizeChunksFilter chunks
           else fg_chunksFilter r
       | None => fg_chunksFilter r
       end;
     src_enforce := fg_enforce r;
     src_minSize := JsObject (normalizeSizes (fg_minSize r));
     src_maxSize := JsObject (normalizeSizes (fg_maxSize r));
     src_minChunks := fg_minChunks r;
     src_maxAsyncRequests := fg_maxAsyncRequests r;
     src_maxInitialRequests := fg_maxInitialRequests r;
     src_getName :=
       if truthy (fg_name r) then Some (λ _ _ _, fg_name r) else fg_getName r;
     src_filename := fg_filename r;
     src_automaticNameDelimiter := fg_automaticNameDelimiter r;
     src_idHint := fg_idHint r;
     src_reuseExistingChunk := fg_reuseExistingChunk r |}.

(** [normalizeCacheGroups({ cacheGroups, name })] for [cacheGroups] given as
    an object, listed in the order of [Object.keys]; [results] stays
    [undefined] until the first push, and becomes an array as soon as a
    function-valued entry answers with a truthy value. *)
Definition normalizeCacheGroups (cacheGroups : list (string * CacheGroupOption))
    (name : NameOption) (module : Module) : option (list CacheGroupSource) :=
  foldl (λ results entry,
    match entry.2 with
    | OptionFunction f =>
        match f module with
        | ResultFalsy => results
        | result =>
            Some (default [] results
                  ++ (functionSource entry.1 <$> resultGroups result))
        end
    | _ =>
        match optionConfig entry.2 with
        | None => results
        | Some config =>
            if checkTest (cfg_test config) module
               && checkModuleType (cfg_type config) module
            then Some (default [] results ++ [sourceOf name entry.1 config])
            else results
        end
    end) None cacheGroups.

End Normalize.

(** ** The max-size pass: limits and names of the parts *)


Section PartNames.

(** [crypto.createHash("md4").update(name).digest("hex")] *)
Variable md4Hex : string → string.

Definition hashFilename (name : string) : string :=
  substring 0 8 (md4Hex name).

(** The name given to the part [group] of a chunk; [None] is [null]. *)
Definition partName (hidePathInfo : bool) (chunkName : option string)
    (automaticNameDelimiter : option string) (groupKey : string) : option string :=
  let key := if hidePathInfo then hashFilename groupKey else groupKey in
  if truthy chunkName then
    let name := renderName chunkName +:+ renderName automaticNameDelimiter +:+ key in
    if 100 <? Z.of_nat (String.length name)
    then Some (substring 0 100 name +:+ renderName automaticNameDelimiter
               +:+ hashFilename name)
    else Some name
  else None.

End PartNames.

(** The sources [normalizeCacheGroups] is to answer for a module: one for
    each entry, in order, that is not [false] and passes both checks. *)
Definition selectedSources {G : Type} `{GraphOps G} (g : G)
    (nameForCondition : Module → option string) (moduleType : Module → string)
    (cacheGroups : list (string * CacheGroupOption)) (name : NameOption)
    (module : Module) : list CacheGroupSource :=
  omap (λ entry,
    match optionConfig entry.2 with
    | Some config =>
        if checkTest nameForCondition (cfg_test config) module
           && checkModuleType moduleType (cfg_type config) module
        then Some (sourceOf g name entry.1 config)
        else None
    | None => None
    end) cacheGroups.

(** The chunk has room for one more request under the limits of the cache
    group: the test of the filter that builds [chunksInLimit]. *)
Definition withinLimit {G : Type} `{GraphOps G} (g : G) (cacheGroup : CacheGroup)
    (chunk : Chunk) : bool :=
  negb (isFinite (maxRequestsOf g cacheGroup chunk))
  || ltNum (getRequests g chunk) (maxRequestsOf g cacheGroup chunk).


(** Cache groups given as an object: [vendors] with a filename and the test
    "./", and [off] switched off. *)
Definition vendorsConfig : CacheGroupConfig :=
  {| cfg_test := TestString "./";
     cfg_type := TypeUndefined;
     cfg_priority := None;
     cfg_name := NameString "vendors";
     cfg_chunks := ChunksString "all";
     cfg_enforce := true;
     cfg_minSize := JsUndefined;
     cfg_maxSize := JsUndefined;
     cfg_minChunks := Some 2;
     cfg_maxAsyncRequests := None;
     cfg_maxInitialRequests := None;
     cfg_filename := Some "vendors.js";
     cfg_idHint := None;
     cfg_automaticNameDelimiter := None;
     cfg_reuseExistingChunk := false |}.

Definition exampleCacheGroups : list (string * CacheGroupOption) :=
  [("off", OptionFalse); ("vendors", OptionObject vendorsConfig)].


(** A function-valued entry that answers every module with one object of
    the given [name], asking for two chunks with a filename. *)
Definition functionGroup (name : option string) : FunctionGroup :=
  {| fg_key := None;
     fg_name := name;
     fg_getName := None;
     fg_chunks := Some (ChunksString "all");
     fg_chunksFilter := None;
     fg_priority := None;
     fg_enforce := true;
     fg_minSize := JsUndefined;
     fg_maxSize := JsUndefined;
     fg_minChunks := Some 2;
     fg_maxAsyncRequests := None;
     fg_maxInitialRequests := None;
     fg_filename := Some "vendors.js";
     fg_automaticNameDelimiter := None;
     fg_idHint := None;
     fg_reuseExistingChunk := false |}.

Definition functionCacheGroups (name : option string)
  : list (string * CacheGroupOption) :=
  [("off", OptionFalse);
   ("vendors", OptionFunction (λ _, ResultObject (functionGroup name)))].

(** ** The walk over the modules with [combinationsCache] *)

Section CachedWalk.
Context {G : Type} `{GraphOps G}.
Variable indexMap : list (Chunk * Z).

(** [combinationsCache.get(chunksKey)], and on a miss [getCombinations] and
    [combinationsCache.set]. *)
Definition cachedCombinations (chunkSetsInGraph : list (string * list Chunk))
    (chunkSetsByCount : list (Z * list (list Chunk))) (chunksKey : string)
    (combinationsCache : list (string * list (list Chunk)))
  : Result (list (list Chunk) * list (string * list (list Chunk))) :=
  match mapGet chunksKey combinationsCache with
  | Some combs => Ok (combs, combinationsCache)
  | None =>
      combs ← getCombinations chunkSetsInGraph chunkSetsByCount chunksKey;
      Ok (combs, mapSet chunksKey combs combinationsCache)
  end.

(** The loop over [compilation.modules] as it is written, the cache being
    part of the state. *)
Fixpoint walkModulesCached (options : Options)
    (getCacheGroups : Module → option (list CacheGroupSource))
    (chunkSetsInGraph : list (string * list Chunk))
    (chunkSetsByCount : list (Z * list (list Chunk)))
    (modules : list Module)
    (combinationsCache : list (string * list (list Chunk))) (st : @PassState G)
  : Result (@PassState G * list (string * list (list Chunk))) :=
  match modules with
  | [] => Ok (st, combinationsCache)
  | module :: rest =>
      match getCacheGroups module with
      | None | Some [] =>
          walkModulesCached options getCacheGroups chunkSetsInGraph
            chunkSetsByCount rest combinationsCache st
      | Some cacheGroups =>
          let chunksKey :=
            getKey indexMap (getModuleChunksIterable (graph st) module) in
          found ← cachedCombinations chunkSetsInGraph chunkSetsByCount chunksKey
                    combinationsCache;
          st ← addCacheGroups indexMap options module found.1 cacheGroups st;
          walkModulesCached options getCacheGroups chunkSetsInGraph
            chunkSetsByCount rest found.2 st
      end
  end.

End CachedWalk.

(** The modules of [item] that [info] holds: those the retraction removes
    from [info]. *)
Definition removedModules (item info : ChunksInfoItem) : list Module :=
  filter (λ module, module ∈ info_modules info) (info_modules item).

(** [module.size(key)] summed over [modules], a module counting under the
    source types it has. *)
Definition sizeOfModules (key : string) (modules : list Module) : Z :=
  foldr (λ module total, default 0 (module_sizes module !! key) + total) 0
    modules.

(** The sizes of [info] have every source type of the modules of [info], as
    they do when these modules were added with size tracking. *)
Definition sizesCover (info : ChunksInfoItem) : Prop :=
  ∀ module key, module ∈ info_modules info →
    is_Some (module_sizes module !! key) → is_Some (info_sizes info !! key).

(** The size the retraction is to leave under [key]: the former size less
    the sizes of the removed modules. *)
Definition sizeLess (item info : ChunksInfoItem) (key : string) : option Z :=
  (λ size, size - sizeOfModules key (removedModules item info))
    <$> info_sizes info !! key.

(** Two entries with size tracking for the retraction: both hold the modules
    1 and 2 on chunk A with 20 bytes of javascript; [big] asks for 15 bytes,
    [small] for 5. *)
Definition sizedSource (key : string) (minSize : Z) : CacheGroupSource :=
  {| src_key := key;
     src_priority := None;
     src_chunksFilter := None;
     src_enforce := true;
     src_minSize := JsNumber minSize;
     src_maxSize := JsUndefined;
     src_minChunks := None;
     src_maxAsyncRequests := None;
     src_maxInitialRequests := None;
     src_getName := Some (λ _ _ _, None);
     src_filename := None;
     src_automaticNameDelimiter := None;
     src_idHint := None;
     src_reuseExistingChunk := false |}.

Definition sizedItem (key : string) (minSize : Z) : ChunksInfoItem :=
  withModulesSizes [jsModule 1 "./a.js" 10; jsModule 2 "./b.js" 10]
    (<["javascript" := 20]> ∅)
    (exampleItem (makeCacheGroup exampleOptions (sizedSource key minSize)) None
       [] [chunkA]).

Definition sizedPending : list (string * ChunksInfoItem) :=
  [("big chunks:1", sizedItem "big" 15); ("small chunks:1", sizedItem "small" 5)].


(** A cache group source that is not enforced and whose [minSize] is what
    [normalizeCacheGroups] makes of the string "10kb". *)
Definition stringMinSizeSource : CacheGroupSource :=
  {| src_key := "vendors";
     src_priority := None;
     src_chunksFilter := None;
     src_enforce := false;
     src_minSize := JsObject (normalizeSizes (JsString "10kb"));
     src_maxSize := JsUndefined;
     src_minChunks := None;
     src_maxAsyncRequests := None;
     src_maxInitialRequests := None;
     src_getName := Some (λ _ _ _, None);
     src_filename := None;
     src_automaticNameDelimiter := None;
     src_idHint := None;
     src_reuseExistingChunk := false |}.

(** * Properties *)

Lemma checkMinSizeLoop_spec (sizes : gmap string Z) (entries : list (string * Z)) :
  checkMinSizeLoop sizes entries = true ↔
  ∀ key minValue, (key, minValue) ∈ entries →
    match sizes !! key with
    | Some size => minValue ≤ size
    | None => key ∈ objectPrototypeNames
    end.
Proof.
  induction entries as [|[k v] rest IH]; simpl.
  - split; [intros _ ? ? H; inversion H | done].
  - unfold readSize. destruct (sizes !! k) as [s|] eqn:Hk.
    + destruct (Z.ltb_spec s v) as [Hlt|Hge].
      * split; [done|]. intros H. specialize (H k v (list_elem_of_here _ _)).
        rewrite Hk in H. lia.
      * rewrite IH. split.
        -- intros H key mv Hin. apply elem_of_cons in Hin as [Heq|Hin].
           ++ injection Heq as -> ->. by rewrite Hk.
           ++ by apply H.
        -- intros H key mv Hin. apply H. by right.
    + destruct (decide (k ∈ objectPrototypeNames)) as [Hproto|Hproto].
      * rewrite bool_decide_eq_true_2 by done. rewrite IH. split.
        -- intros H key mv Hin. apply elem_of_cons in Hin as [Heq|Hin].
           ++ injection Heq as -> ->. by rewrite Hk.
           ++ by apply H.
        -- intros H key mv Hin. apply H. by right.
      * rewrite bool_decide_eq_false_2 by done. split; [done|]. intros H.
        specialize (H k v (list_elem_of_here _ _)). by rewrite Hk in H.
Qed.

Lemma checkMinSize_spec (sizes minSize : gmap string Z) :
  checkMinSize sizes minSize = true ↔
  ∀ key minValue, minSize !! key = Some minValue →
    match sizes !! key with
    | Some size => minValue ≤ size
    | None => key ∈ objectPrototypeNames
    end.
Proof.
  unfold checkMinSize. rewrite checkMinSizeLoop_spec.
  split; intros Hspec key minValue Hin.
  - apply Hspec. by apply elem_of_map_to_list.
  - apply Hspec. by apply elem_of_map_to_list.
Qed.

(** C6: [checkMinSize(sizes, minSize)] is true exactly when every key of
    [minSize] either is an own key of [sizes] whose value is at least the
    threshold, or is no own key of [sizes] and a property name of
    [Object.prototype].  So for thresholds none of whose keys is such a name
    the check is the one the claim states, a missing key failing it, and the
    empty threshold is satisfied by every size map; but for the sizes
    [{javascript: 10}] of an entry and the threshold [{constructor: 1}] the
    check answers true although the sizes have no key [constructor]. *)
Theorem checkMinSize_inherited_key :
  (∀ sizes minSize : gmap string Z,
     checkMinSize sizes minSize = true ↔
     ∀ key minValue, minSize !! key = Some minValue →
       match sizes !! key with
       | Some size => minValue ≤ size
       | None => key ∈ objectPrototypeNames
       end)
  ∧ (∀ sizes minSize : gmap string Z,
       (∀ key, is_Some (minSize !! key) → key ∉ objectPrototypeNames) →
       checkMinSize sizes minSize = true ↔
       ∀ key minValue, minSize !! key = Some minValue →
         ∃ size, sizes !! key = Some size ∧ minValue ≤ size)
  ∧ (∀ sizes : gmap string Z, checkMinSize sizes ∅ = true)
  ∧ ((<["javascript" := 10]> ∅ : gmap string Z) !! "constructor" = None
     ∧ checkMinSize (<["javascript" := 10]> ∅) (<["constructor" := 1]> ∅) = true).
Proof.
  split_and!.
  - exact checkMinSize_spec.
  - intros sizes minSize Hkeys. rewrite checkMinSize_spec.
    split; intros Hall key minValue Hmin; specialize (Hall key minValue Hmin).
    + destruct (sizes !! key) as [size|]; [by exists size|].
      destruct (Hkeys key); [by eexists|done].
    + by destruct Hall as (size & -> & Hle).
  - intros sizes. apply checkMinSize_spec. intros key minValue Hin.
    by rewrite lookup_empty in Hin.
  - reflexivity.
  - vm_compute. reflexivity.
Qed.

(** ** Insertion-ordered maps and sets: basic facts *)

Section CollectionFacts.
Context {K V : Type} `{EqDecision K}.
Implicit Types (m : list (K * V)) (k : K) (v : V) (s : list K).

Lemma mapGet_elem_of m k v : mapGet k m = Some v → (k, v) ∈ m.
Proof.
  induction m as [|[k' v'] m IH]; simpl; [done|].
  destruct (decide (k' = k)) as [->|Hne].
  - intros [= ->]. left.
  - intros Hget. right. by apply IH.
Qed.

Lemma elem_of_mapGet m k v :
  NoDup (mapKeys m) → (k, v) ∈ m → mapGet k m = Some v.
Proof.
  unfold mapKeys. induction m as [|[k' v'] m IH]; simpl.
  - intros _ Hin. inversion Hin.
  - intros Hnd Hin. apply NoDup_cons in Hnd as [Hnotin Hnd].
    apply elem_of_cons in Hin as [[= -> ->]|Hin].
    + by rewrite decide_True.
    + destruct (decide (k' = k)) as [->|Hne]; [|by apply IH].
      exfalso. apply Hnotin. apply list_elem_of_fmap. by exists (k, v).
Qed.

Lemma mapGet_None m k : mapGet k m = None ↔ k ∉ mapKeys m.
Proof.
  unfold mapKeys. induction m as [|[k' v'] m IH]; simpl.
  - split; [intros _ Hin; inversion Hin|done].
  - rewrite not_elem_of_cons. destruct (decide (k' = k)) as [->|Hne].
    + split; [done|]. by intros [? _].
    + rewrite IH. naive_solver.
Qed.

Lemma mapGet_is_Some m k : is_Some (mapGet k m) ↔ k ∈ mapKeys m.
Proof.
  destruct (mapGet k m) as [v|] eqn:Hget.
  - split; [intros _|by eauto].
    destruct (decide (k ∈ mapKeys m)) as [|Hnot]; [done|].
    apply mapGet_None in Hnot. congruence.
  - split; [by intros [? ?]|]. intros Hin.
    apply mapGet_None in Hget. done.
Qed.

Lemma mapGet_mapSet_eq m k v : mapGet k (mapSet k v m) = Some v.
Proof.
  induction m as [|[k' v'] m IH]; simpl.
  - by rewrite decide_True.
  - destruct (decide (k' = k)) as [->|Hne]; simpl.
    + by rewrite decide_True.
    + by rewrite decide_False.
Qed.

Lemma mapGet_mapSet_ne m k k' v :
  k ≠ k' → mapGet k' (mapSet k v m) = mapGet k' m.
Proof.
  intros Hne. induction m as [|[k0 v0] m IH]; simpl.
  - by rewrite decide_False.
  - destruct (decide (k0 = k)) as [->|Hne0]; simpl.
    + by rewrite !decide_False.
    + by rewrite IH.
Qed.

Lemma mapGet_mapSet m k k' v :
  mapGet k' (mapSet k v m) = if decide (k = k') then Some v else mapGet k' m.
Proof.
  destruct (decide (k = k')) as [->|Hne].
  - apply mapGet_mapSet_eq.
  - by apply mapGet_mapSet_ne.
Qed.

Lemma mapKeys_mapSet_present m k v :
  k ∈ mapKeys m → mapKeys (mapSet k v m) = mapKeys m.
Proof.
  unfold mapKeys. induction m as [|[k' v'] m IH]; simpl.
  - intros Hin. inversion Hin.
  - intros Hin. destruct (decide (k' = k)) as [->|Hne]; simpl; [done|].
    f_equal. apply IH. apply elem_of_cons in Hin as [->|Hin]; done.
Qed.

Lemma mapKeys_mapSet_fresh m k v :
  k ∉ mapKeys m → mapKeys (mapSet k v m) = mapKeys m ++ [k].
Proof.
  unfold mapKeys. induction m as [|[k' v'] m IH]; simpl; [done|].
  rewrite not_elem_of_cons. intros [Hne Hnotin].
  rewrite decide_False by done. simpl. f_equal. by apply IH.
Qed.

Lemma NoDup_mapKeys_mapSet m k v :
  NoDup (mapKeys m) → NoDup (mapKeys (mapSet k v m)).
Proof.
  intros Hnd. destruct (decide (k ∈ mapKeys m)) as [Hin|Hnotin].
  - by rewrite mapKeys_mapSet_present.
  - rewrite mapKeys_mapSet_fresh by done.
    apply NoDup_app. split_and!; [done| |apply NoDup_singleton].
    intros x Hx Hx'. apply list_elem_of_singleton in Hx' as ->. done.
Qed.

Lemma elem_of_mapSet m k v k' v' :
  (k', v') ∈ mapSet k v m → (k' = k ∧ v' = v) ∨ (k', v') ∈ m.
Proof.
  induction m as [|[k0 v0] m IH]; simpl.
  - intros Hin. apply list_elem_of_singleton in Hin as [= -> ->]. by left.
  - destruct (decide (k0 = k)) as [->|Hne].
    + intros Hin. apply elem_of_cons in Hin as [[= -> ->]|Hin]; [by left|].
      right. by right.
    + intros Hin. apply elem_of_cons in Hin as [[= -> ->]|Hin].
      * right. left.
      * destruct (IH Hin) as [?|?]; [by left|]. right. by right.
Qed.

Lemma elem_of_mapDelete m k k' v' :
  (k', v') ∈ mapDelete k m → (k', v') ∈ m.
Proof. unfold mapDelete. rewrite list_elem_of_filter. by intros [_ ?]. Qed.

Lemma mapKeys_mapDelete_subseteq m k : mapKeys (mapDelete k m) ⊆ mapKeys m.
Proof.
  unfold mapKeys. intros x Hx. apply list_elem_of_fmap in Hx as [[k' v'] [-> Hin]].
  apply list_elem_of_fmap. exists (k', v'). split; [done|].
  by eapply elem_of_mapDelete.
Qed.

Lemma mapDelete_cons m k k0 v0 :
  mapDelete k ((k0, v0) :: m)
  = if decide (k0 = k) then mapDelete k m else (k0, v0) :: mapDelete k m.
Proof.
  unfold mapDelete. destruct (decide (k0 = k)) as [->|Hne].
  - by rewrite filter_cons_False by (simpl; auto).
  - by rewrite filter_cons_True by done.
Qed.

Lemma mapGet_mapDelete_ne m k k' :
  k ≠ k' → mapGet k' (mapDelete k m) = mapGet k' m.
Proof.
  intros Hne. induction m as [|[k0 v0] m IH]; [done|].
  rewrite mapDelete_cons. simpl.
  destruct (decide (k0 = k)) as [->|Hne0]; simpl.
  - by rewrite decide_False.
  - by rewrite IH.
Qed.

Lemma mapGet_mapDelete_eq m k : mapGet k (mapDelete k m) = None.
Proof.
  induction m as [|[k0 v0] m IH]; [done|].
  rewrite mapDelete_cons.
  destruct (decide (k0 = k)) as [->|Hne]; simpl; [done|].
  by rewrite decide_False.
Qed.

Lemma mapGet_mapDelete m k k' :
  mapGet k' (mapDelete k m) = if decide (k = k') then None else mapGet k' m.
Proof.
  destruct (decide (k = k')) as [->|Hne].
  - apply mapGet_mapDelete_eq.
  - by apply mapGet_mapDelete_ne.
Qed.

Lemma NoDup_mapKeys_mapDelete m k :
  NoDup (mapKeys m) → NoDup (mapKeys (mapDelete k m)).
Proof.
  unfold mapKeys. induction m as [|[k0 v0] m IH]; [done|].
  intros Hnd. apply NoDup_cons in Hnd as [Hnotin Hnd].
  rewrite mapDelete_cons.
  destruct (decide (k0 = k)) as [->|Hne]; [by apply IH|].
  apply NoDup_cons. split; [|by apply IH].
  intros Hin. apply Hnotin. by apply (mapKeys_mapDelete_subseteq m k).
Qed.

Lemma setHas_true k s : setHas k s = true ↔ k ∈ s.
Proof. unfold setHas. apply bool_decide_eq_true. Qed.

Lemma setHas_false k s : setHas k s = false ↔ k ∉ s.
Proof. unfold setHas. apply bool_decide_eq_false. Qed.

Lemma elem_of_setAdd k k' s : k' ∈ setAdd k s ↔ k' = k ∨ k' ∈ s.
Proof.
  unfold setAdd. destruct (setHas k s) eqn:Hhas.
  - apply setHas_true in Hhas. naive_solver.
  - rewrite elem_of_app, list_elem_of_singleton. naive_solver.
Qed.

Lemma NoDup_setAdd k s : NoDup s → NoDup (setAdd k s).
Proof.
  intros Hnd. unfold setAdd. destruct (setHas k s) eqn:Hhas; [done|].
  apply setHas_false in Hhas. apply NoDup_app. split_and!; [done| |apply NoDup_singleton].
  intros x Hx Hx'. apply list_elem_of_singleton in Hx' as ->. done.
Qed.

Lemma elem_of_setDelete k k' s : k' ∈ setDelete k s ↔ k' ≠ k ∧ k' ∈ s.
Proof. unfold setDelete. by rewrite list_elem_of_filter. Qed.

Lemma NoDup_setDelete k s : NoDup s → NoDup (setDelete k s).
Proof. unfold setDelete. apply NoDup_filter. Qed.

Lemma setDelete_absent k s : k ∉ s → setDelete k s = s.
Proof.
  intros Hnotin. unfold setDelete. induction s as [|y s IH]; [done|].
  apply not_elem_of_cons in Hnotin as [Hne Hnotin].
  rewrite filter_cons_True by done. f_equal. by apply IH.
Qed.

Lemma isOverlap_true (a b : list K) :
  isOverlap a b = true ↔ ∃ item, item ∈ a ∧ item ∈ b.
Proof.
  unfold isOverlap. rewrite existsb_exists. split.
  - intros (x & Hx & Hhas). exists x. split; [by apply list_elem_of_In|].
    by apply setHas_true.
  - intros (x & Hx & Hb). exists x. split; [by apply list_elem_of_In|].
    by apply setHas_true.
Qed.
End CollectionFacts.

(** ** Size accounting and cache groups *)

Lemma assign_empty_l (source : gmap string Z) : assign emptySizes source = source.
Proof. unfold assign, emptySizes. apply (right_id_L ∅ (∪)). Qed.

Lemma mergeSizes_empty_default (value : JsValue) :
  mergeSizes value (JsObject emptySizes) = normalizeSizes value.
Proof.
  destruct value; simpl; rewrite ?assign_empty_l; try reflexivity.
  all: unfold assign, emptySizes; by rewrite ?(right_id_L ∅ (∪)).
Qed.

(** C2: for a cache group source with [enforce] set, [minSize] and [maxSize]
    of the cache group built from it are merged against the empty map, so
    they are the normalised sizes of the source alone; [minChunks] falls back
    to 1 and both request limits fall back to [Infinity]; none of the five
    depends on the global options. *)
Theorem enforce_bypasses_defaults (options : Options) (source : CacheGroupSource) :
  src_enforce source = true →
  (cg_minSize (makeCacheGroup options source)
     = mergeSizes (src_minSize source) (JsObject emptySizes)
   ∧ cg_maxSize (makeCacheGroup options source)
     = mergeSizes (src_maxSize source) (JsObject emptySizes)
   ∧ cg_minSize (makeCacheGroup options source) = normalizeSizes (src_minSize source)
   ∧ cg_maxSize (makeCacheGroup options source) = normalizeSizes (src_maxSize source)
   ∧ cg_minChunks (makeCacheGroup options source) = default 1 (src_minChunks source)
   ∧ cg_maxAsyncRequests (makeCacheGroup options source)
     = default Infinity (src_maxAsyncRequests source)
   ∧ cg_maxInitialRequests (makeCacheGroup options source)
     = default Infinity (src_maxInitialRequests source))
  ∧ ∀ options' : Options,
      cg_minSize (makeCacheGroup options' source)
        = cg_minSize (makeCacheGroup options source)
      ∧ cg_maxSize (makeCacheGroup options' source)
        = cg_maxSize (makeCacheGroup options source)
      ∧ cg_minChunks (makeCacheGroup options' source)
        = cg_minChunks (makeCacheGroup options source)
      ∧ cg_maxAsyncRequests (makeCacheGroup options' source)
        = cg_maxAsyncRequests (makeCacheGroup options source)
      ∧ cg_maxInitialRequests (makeCacheGroup options' source)
        = cg_maxInitialRequests (makeCacheGroup options source).
Proof.
  intros Henforce. unfold makeCacheGroup; simpl. rewrite Henforce.
  rewrite !mergeSizes_empty_default.
  split; [|intros options'; repeat split].
  repeat split; reflexivity.
Qed.

Lemma enforce_bypasses_defaults_witness :
  src_enforce (exampleSource "vendors" None true) = true
  ∧ cg_minChunks (makeCacheGroup exampleOptions (exampleSource "vendors" None true)) = 1
  ∧ cg_minSize (makeCacheGroup exampleOptions (exampleSource "vendors" None true)) = ∅.
Proof.
  split; [reflexivity|].
  destruct (enforce_bypasses_defaults exampleOptions
              (exampleSource "vendors" None true) eq_refl)
    as [(_ & _ & Hmin & _ & Hchunks & _) _].
  split; [exact Hchunks|exact Hmin].
Defined.

(** ** Entries of the pending map *)

Section MapForall.
Context {K V : Type} `{EqDecision K}.
Implicit Types (P : V → Prop) (m : list (K * V)).

Lemma mapForall_nil P : mapForall P ([] : list (K * V)).
Proof. intros k v Hin. inversion Hin. Qed.

Lemma mapForall_mapSet P m k v :
  mapForall P m → P v → mapForall P (mapSet k v m).
Proof.
  intros Hall Hv k' v' Hin.
  destruct (elem_of_mapSet _ _ _ _ _ Hin) as [[_ ->]|Hin']; [done|].
  by eapply Hall.
Qed.

Lemma mapForall_mapDelete P m k : mapForall P m → mapForall P (mapDelete k m).
Proof. intros Hall k' v' Hin. eapply Hall. by eapply elem_of_mapDelete. Qed.

Lemma mapForall_mapGet P m k v : mapForall P m → mapGet k m = Some v → P v.
Proof. intros Hall Hget. eapply Hall. by apply mapGet_elem_of. Qed.
End MapForall.

Lemma compareEntries_items (a b : ChunksInfoItem) :
  ((compareEntries a b).1.2 = a ∨ (compareEntries a b).1.2 = sorted a)
  ∧ ((compareEntries a b).2 = b ∨ (compareEntries a b).2 = sorted b).
Proof.
  unfold compareEntries.
  repeat (match goal with |- context [if ?c then _ else _] => destruct c end;
          simpl; [by split; left|]).
  by split; right.
Qed.

Section PassInvariants.
Context {G : Type} `{GraphOps G}.
Variable indexMap : list (Chunk * Z).
Variable P : ChunksInfoItem → Prop.
Hypothesis P_sorted : ∀ info, P info → P (sorted info).

Lemma findBestEntry_mapForall keys best m :
  mapForall P m → mapForall P (findBestEntry keys best m).2.
Proof.
  revert best m. induction keys as [|key keys IH]; intros best m Hm; simpl.
  - done.
  - destruct best as [bestKey|]; [|by apply IH].
    destruct (mapGet bestKey m) as [bestEntry|] eqn:Hbest; [|by apply IH].
    destruct (mapGet key m) as [info|] eqn:Hinfo; [|by apply IH].
    pose proof (compareEntries_items bestEntry info) as [Ha Hb].
    destruct (compareEntries bestEntry info) as [[res a'] b']. simpl in *.
    assert (mapForall P (mapSet key b' (mapSet bestKey a' m))) as Hm'.
    { apply mapForall_mapSet; [apply mapForall_mapSet; [done|]|].
      - pose proof (mapForall_mapGet _ _ _ _ Hm Hbest).
        destruct Ha as [->| ->]; auto.
      - pose proof (mapForall_mapGet _ _ _ _ Hm Hinfo).
        destruct Hb as [->| ->]; auto. }
    destruct (res <? 0); by apply IH.
Qed.

Lemma takeBestEntry_mapForall m item m' :
  mapForall P m → takeBestEntry m = Some (item, m') → P item ∧ mapForall P m'.
Proof.
  intros Hm. unfold takeBestEntry.
  pose proof (findBestEntry_mapForall (mapKeys m) None m Hm) as Hfound.
  destruct (findBestEntry (mapKeys m) None m) as [[key|] m1]; simpl in *; [|done].
  destruct (mapGet key m1) as [it|] eqn:Hget; [|done].
  intros [= <- <-]. split.
  - by eapply mapForall_mapGet.
  - by apply mapForall_mapDelete.
Qed.

Hypothesis P_new : ∀ cacheGroup name, P (newInfo cacheGroup name).
Hypothesis P_add : ∀ selectedChunks selectedChunksKey module info,
  P info → P (addToInfo selectedChunks selectedChunksKey module info).
Hypothesis P_retract : ∀ info modules sizes,
  P info → info_validateSize info = true ∨ sizes = info_sizes info →
  P (withModulesSizes modules sizes info).

Lemma chunksInfoMap_validateName cacheGroup name (st : PassState) :
  chunksInfoMap (validateName cacheGroup name st) = chunksInfoMap st.
Proof.
  unfold validateName. destruct (setHas name (alreadyValidatedNames st)); [done|].
  simpl. by destruct (namedChunksHas (graph st) name).
Qed.

Lemma addModuleToChunksInfoMap_mapForall cacheGroup selectedChunks
    selectedChunksKey module (st st' : PassState) :
  mapForall P (chunksInfoMap st) →
  addModuleToChunksInfoMap cacheGroup selectedChunks selectedChunksKey module st
    = Ok st' →
  mapForall P (chunksInfoMap st').
Proof.
  intros Hst. unfold addModuleToChunksInfoMap.
  destruct (setSize selectedChunks <? cg_minChunks cacheGroup); [by intros [= <-]|].
  destruct (cg_getName cacheGroup) as [getName|]; [|done].
  intros [= <-]. simpl. rewrite chunksInfoMap_validateName.
  apply mapForall_mapSet; [done|]. apply P_add.
  destruct (mapGet _ (chunksInfoMap st)) as [info|] eqn:Hget; [|apply P_new].
  by eapply mapForall_mapGet.
Qed.

Lemma addModulesToChunksInfoMap_mapForall cacheGroup selectedChunks
    selectedChunksKey modules (st st' : PassState) :
  mapForall P (chunksInfoMap st) →
  addModulesToChunksInfoMap cacheGroup selectedChunks selectedChunksKey modules st
    = Ok st' →
  mapForall P (chunksInfoMap st').
Proof.
  revert st. induction modules as [|module modules IH]; intros st Hst; simpl.
  - by intros [= <-].
  - destruct (addModuleToChunksInfoMap cacheGroup selectedChunks
                selectedChunksKey module st) as [st1|] eqn:Hadd; simpl; [|done].
    apply IH. by eapply addModuleToChunksInfoMap_mapForall.
Qed.

Lemma retractEntry_mapForall item key info m :
  mapForall P m → P info → mapForall P (retractEntry item key info m).
Proof.
  intros Hm Hinfo. unfold retractEntry.
  destruct (isOverlap (info_chunks info) (info_chunks item)); [|done].
  destruct (info_validateSize info) eqn:Hvalidate.
  - destruct (removeTracked _ _) as [[modules sizes] updated].
    assert (mapForall P (mapSet key (withModulesSizes modules sizes info) m)).
    { apply mapForall_mapSet; [done|]. apply P_retract; auto. }
    destruct updated; [|done].
    repeat (match goal with |- context [if ?c then _ else _] => destruct c end);
      auto using mapForall_mapDelete.
  - match goal with |- context [mapSet key ?i m] =>
      assert (mapForall P (mapSet key i m)) end.
    { apply mapForall_mapSet; [done|]. apply P_retract; auto. }
    match goal with |- context [if ?c then _ else _] => destruct c end;
      auto using mapForall_mapDelete.
Qed.

Lemma retract_mapForall item m : mapForall P m → mapForall P (retract item m).
Proof.
  unfold retract. generalize (mapKeys m). intros keys. revert m.
  induction keys as [|key keys IH]; intros m Hm; simpl; [done|].
  apply IH. destruct (mapGet key m) as [info|] eqn:Hget; [|done].
  apply retractEntry_mapForall; [done|]. by eapply mapForall_mapGet.
Qed.

Lemma selectionStep_mapForall (st st' : PassState) :
  mapForall P (chunksInfoMap st) →
  selectionStep indexMap st = Ok st' →
  mapForall P (chunksInfoMap st').
Proof.
  intros Hst. unfold selectionStep.
  destruct (takeBestEntry (chunksInfoMap st)) as [[item m]|] eqn:Htake;
    [|by intros [= <-]].
  destruct (takeBestEntry_mapForall _ _ _ Hst Htake) as [Hitem Hm].
  match goal with |- context [if ?c then _ else _] => destruct c end;
    [by intros [= <-]|].
  destruct (requestBudget _ _ _ _ _) as [continue|] eqn:Hbudget.
  - intros ->. unfold requestBudget in Hbudget.
    repeat match type of Hbudget with
           | context [if ?c then _ else _] => destruct c
           end; try done.
    + injection Hbudget as Hadd.
      by eapply addModulesToChunksInfoMap_mapForall in Hadd.
    + by injection Hbudget as [= <-].
  - destruct (prepareChunk _ _ _ _) as [[newChunk g]|]; [|done].
    destruct (checkFilename item newChunk g) as [g'|]; simpl; [|done].
    intros [= <-]. simpl. by apply retract_mapForall.
Qed.
End PassInvariants.

(** ** Size tracking is opt-in *)

Lemma trackingOptIn_sorted (info : ChunksInfoItem) :
  trackingOptIn info → trackingOptIn (sorted info).
Proof. by intros [Hflag Hsizes]. Qed.

Lemma trackingOptIn_newInfo (cacheGroup : CacheGroup) (name : option string) :
  trackingOptIn (newInfo cacheGroup name).
Proof. by split. Qed.

Lemma trackingOptIn_addToInfo selectedChunks selectedChunksKey module info :
  trackingOptIn info →
  trackingOptIn (addToInfo selectedChunks selectedChunksKey module info).
Proof.
  intros [Hflag Hsizes]. split; simpl; [done|].
  intros Hoff. rewrite Hoff. by apply Hsizes.
Qed.

Lemma trackingOptIn_withModulesSizes info modules sizes :
  trackingOptIn info →
  info_validateSize info = true ∨ sizes = info_sizes info →
  trackingOptIn (withModulesSizes modules sizes info).
Proof.
  intros [Hflag Hsizes] Hcase. split; simpl; [done|].
  intros Hoff. destruct Hcase as [Hon| ->]; [congruence|by apply Hsizes].
Qed.

Lemma hasKeys_empty : hasKeys ∅ = false.
Proof. unfold hasKeys. by rewrite map_to_list_empty. Qed.

Lemma mergeSizes_own_empty (value defaultValue : JsValue) :
  normalizeSizes value = ∅ →
  mergeSizes value defaultValue = normalizeSizes defaultValue.
Proof.
  intros Hempty. unfold mergeSizes. destruct value; try done; rewrite Hempty;
    unfold assign, emptySizes; by rewrite (left_id ∅ (∪)), (right_id ∅ (∪)).
Qed.

(** C10, as amended: [normalizeSizes] maps a number [n] to the one-key map
    [{javascript: n}], an object to a copy with the same keys and values, and
    every other value (among them [undefined], [null], strings and booleans)
    to the empty map.  The [minSize] of a cache group is its own [minSize]
    merged over the global [minSize], or over nothing when the cache group is
    enforced, and an entry tracks sizes exactly when this merged [minSize]
    has keys.  A cache group whose own [minSize] normalizes to the empty map
    therefore tracks sizes exactly when it is not enforced and the global
    [minSize] has keys; an entry created for a cache group whose merged
    [minSize] is the empty map has size tracking off, and through
    [addModuleToChunksInfoMap] and the rounds of the selection loop every
    entry of such a cache group keeps size tracking off and no sizes. *)
Theorem normalizeSizes_and_tracking :
  (∀ n, normalizeSizes (JsNumber n) = {["javascript" := n]})
  ∧ (∀ props, normalizeSizes (JsObject props) = props)
  ∧ (∀ value, (∀ n, value ≠ JsNumber n) → (∀ props, value ≠ JsObject props) →
       normalizeSizes value = ∅)
  ∧ (normalizeSizes JsUndefined = ∅ ∧ normalizeSizes JsNull = ∅
     ∧ (∀ s, normalizeSizes (JsString s) = ∅)
     ∧ (∀ b, normalizeSizes (JsBoolean b) = ∅))
  ∧ (∀ cacheGroup name,
       cg_minSize cacheGroup = ∅ →
       info_validateSize (newInfo cacheGroup name) = false)
  ∧ (∀ (G : Type) (ops : GraphOps G) cacheGroup selectedChunks selectedChunksKey
       module (st st' : PassState),
       mapForall trackingOptIn (chunksInfoMap st) →
       addModuleToChunksInfoMap cacheGroup selectedChunks selectedChunksKey
         module st = Ok st' →
       mapForall trackingOptIn (chunksInfoMap st'))
  ∧ (∀ (G : Type) (ops : GraphOps G) indexMap (st st' : PassState),
       mapForall trackingOptIn (chunksInfoMap st) →
       selectionStep indexMap st = Ok st' →
       mapForall trackingOptIn (chunksInfoMap st'))
  ∧ (∀ (m : list (string * ChunksInfoItem)) key info,
       mapForall trackingOptIn m → (key, info) ∈ m →
       cg_minSize (info_cacheGroup info) = ∅ →
       info_validateSize info = false ∧ info_sizes info = ∅)
  ∧ (∀ options source name,
       info_validateSize (newInfo (makeCacheGroup options source) name)
       = hasKeys (mergeSizes (src_minSize source)
                    (if src_enforce source then JsObject emptySizes
                     else JsObject (opt_minSize options))))
  ∧ (∀ options source name,
       normalizeSizes (src_minSize source) = ∅ →
       info_validateSize (newInfo (makeCacheGroup options source) name)
       = negb (src_enforce source) && hasKeys (opt_minSize options)).
Proof.
  split_and!.
  - done.
  - intros props. apply assign_empty_l.
  - intros value Hnum Hobj. destruct value; try done.
    + by destruct (Hnum n).
    + by destruct (Hobj props).
  - done.
  - done.
  - done.
  - done.
  - intros cacheGroup name Hempty. simpl. rewrite Hempty. apply hasKeys_empty.
  - intros G ops cacheGroup selectedChunks selectedChunksKey module st st'.
    apply addModuleToChunksInfoMap_mapForall;
      auto using trackingOptIn_newInfo, trackingOptIn_addToInfo.
  - intros G ops indexMap st st'.
    apply selectionStep_mapForall;
      auto using trackingOptIn_sorted, trackingOptIn_newInfo,
        trackingOptIn_addToInfo, trackingOptIn_withModulesSizes.
  - intros m key info Hall Hin Hempty.
    destruct (Hall key info Hin) as [Hflag Hsizes].
    rewrite Hempty, hasKeys_empty in Hflag. auto.
  - done.
  - intros options source name Hempty. simpl.
    rewrite (mergeSizes_own_empty _ _ Hempty).
    destruct (src_enforce source); simpl.
    + rewrite assign_empty_l. apply hasKeys_empty.
    + by rewrite assign_empty_l.
Qed.

Lemma normalizeSizes_and_tracking_witness :
  info_validateSize (newInfo (exampleCacheGroup "vendors" None) None) = false
  ∧ normalizeSizes (JsString "10kb") = ∅.
Proof.
  destruct normalizeSizes_and_tracking
    as (_ & _ & Hother & _ & Hnew & _).
  split.
  - apply Hnew. vm_compute. reflexivity.
  - apply Hother; discriminate.
Defined.

(** C10 as stated fails for a cache group that is not enforced: its own
    [minSize], the string "10kb", normalizes to the empty map, but the global
    [minSize] of 30000 bytes is merged in and the entries created for it
    track sizes. *)
Lemma empty_minSize_tracks_counterexample :
  normalizeSizes (JsString "10kb") = ∅
  ∧ normalizeSizes (src_minSize stringMinSizeSource) = ∅
  ∧ cg_minSize (makeCacheGroup exampleOptions stringMinSizeSource)
    = <["javascript" := 30000]> ∅
  ∧ info_validateSize
      (newInfo (makeCacheGroup exampleOptions stringMinSizeSource) None) = true.
Proof.
  split; [reflexivity|]. split; [vm_compute; reflexivity|].
  split; [|vm_compute; reflexivity].
  unfold makeCacheGroup, stringMinSizeSource, exampleOptions. simpl.
  unfold mergeSizes, assign, emptySizes. simpl.
  unfold assign, emptySizes.
  by rewrite !(left_id ∅ (∪)), !(right_id ∅ (∪)).
Qed.

(** ** Comparators *)

Section ComparatorFacts.
Context {A : Type}.
Implicit Types c : A → A → Z.

Lemma cmp_refl c a : Comparator c → c a a = 0.
Proof. intros [Hanti _]. specialize (Hanti a a). lia. Qed.

Lemma cmp_flip_le c a b : Comparator c → c a b ≤ 0 ↔ 0 ≤ c b a.
Proof. intros [Hanti _]. specialize (Hanti a b). lia. Qed.

Lemma cmp_flip_lt c a b : Comparator c → c a b < 0 ↔ 0 < c b a.
Proof. intros [Hanti _]. specialize (Hanti a b). lia. Qed.

Lemma cmp_flip_eq c a b : Comparator c → c a b = 0 ↔ c b a = 0.
Proof. intros [Hanti _]. specialize (Hanti a b). lia. Qed.

Lemma cmp_lt_le_trans c a b d :
  Comparator c → c a b < 0 → c b d ≤ 0 → c a d < 0.
Proof.
  intros Hc Hab Hbd.
  assert (c a d ≤ 0) as Had by (eapply (cmp_trans c Hc); [|done]; lia).
  destruct (decide (c a d = 0)) as [Hzero|]; [|lia].
  assert (c b a ≤ 0); [|apply (cmp_flip_lt c a b) in Hab; [lia|done]].
  apply (cmp_trans c Hc b d a); [done|].
  apply (cmp_flip_eq c a d) in Hzero; [lia|done].
Qed.

Lemma cmp_le_lt_trans c a b d :
  Comparator c → c a b ≤ 0 → c b d < 0 → c a d < 0.
Proof.
  intros Hc Hab Hbd.
  assert (c a d ≤ 0) as Had by (eapply (cmp_trans c Hc); [done|]; lia).
  destruct (decide (c a d = 0)) as [Hzero|]; [|lia].
  assert (c d b ≤ 0); [|apply (cmp_flip_lt c b d) in Hbd; [lia|done]].
  apply (cmp_trans c Hc d a b); [|done].
  apply (cmp_flip_eq c a d) in Hzero; [lia|done].
Qed.

Lemma cmp_eq_trans c a b d :
  Comparator c → c a b = 0 → c b d = 0 → c a d = 0.
Proof.
  intros Hc Hab Hbd.
  assert (c a d ≤ 0) by (apply (cmp_trans c Hc a b d); lia).
  assert (c d a ≤ 0) as Hda.
  { apply (cmp_trans c Hc d b a).
    - apply (cmp_flip_eq c b d) in Hbd; [lia|done].
    - apply (cmp_flip_eq c a b) in Hab; [lia|done]. }
  pose proof (cmp_antisym c Hc a d). lia.
Qed.

Lemma Comparator_lex c1 c2 :
  Comparator c1 → Comparator c2 → Comparator (lexCompare c1 c2).
Proof.
  intros H1 H2. split.
  - intros a b. unfold lexCompare.
    pose proof (cmp_antisym c1 H1 a b). pose proof (cmp_antisym c2 H2 a b).
    destruct (Z.eqb_spec (c1 a b) 0), (Z.eqb_spec (c1 b a) 0); simpl; lia.
  - intros a b d. unfold lexCompare.
    destruct (Z.eqb_spec (c1 a b) 0) as [Hab|Hab];
      destruct (Z.eqb_spec (c1 b d) 0) as [Hbd|Hbd]; simpl; intros Hle1 Hle2.
    + rewrite (cmp_eq_trans c1 a b d) by done. simpl.
      by apply (cmp_trans c2 H2 a b d).
    + assert (c1 a d < 0) by (apply (cmp_le_lt_trans c1 a b d); [done|lia|lia]).
      destruct (Z.eqb_spec (c1 a d) 0); simpl; lia.
    + assert (c1 a d < 0) by (apply (cmp_lt_le_trans c1 a b d); [done|lia|lia]).
      destruct (Z.eqb_spec (c1 a d) 0); simpl; lia.
    + assert (c1 a d < 0) by (apply (cmp_lt_le_trans c1 a b d); [done|lia|lia]).
      destruct (Z.eqb_spec (c1 a d) 0); simpl; lia.
Qed.

Lemma Comparator_difference (f : A → Z) : Comparator (λ a b, f a - f b).
Proof. split; intros; lia. Qed.

Lemma Comparator_flip c : Comparator c → Comparator (λ a b, c b a).
Proof.
  intros Hc. split.
  - intros a b. apply (cmp_antisym c Hc).
  - intros a b d Hab Hbd. by apply (cmp_trans c Hc d b a).
Qed.

Lemma Comparator_on {B} (f : B → A) c :
  Comparator c → Comparator (λ a b, c (f a) (f b)).
Proof.
  intros Hc. split.
  - intros a b. apply (cmp_antisym c Hc).
  - intros a b d. apply (cmp_trans c Hc).
Qed.

Lemma Comparator_compareIterables c :
  Comparator c → Comparator (compareIterables c).
Proof.
  intros Hc. split.
  - intros a. induction a as [|x a IH]; intros [|y b]; simpl; try done.
    pose proof (cmp_antisym c Hc x y).
    destruct (Z.eqb_spec (c x y) 0), (Z.eqb_spec (c y x) 0); try lia.
    apply IH.
  - intros a. induction a as [|x a IH]; intros [|y b] [|z d]; simpl; try lia.
    destruct (Z.eqb_spec (c x y) 0) as [Hxy|Hxy];
      destruct (Z.eqb_spec (c y z) 0) as [Hyz|Hyz]; intros Hle1 Hle2.
    + rewrite (cmp_eq_trans c x y z) by done. simpl. by apply (IH b d).
    + assert (c x z < 0) by (apply (cmp_le_lt_trans c x y z); [done|lia|lia]).
      destruct (Z.eqb_spec (c x z) 0); lia.
    + assert (c x z < 0) by (apply (cmp_lt_le_trans c x y z); [done|lia|lia]).
      destruct (Z.eqb_spec (c x z) 0); lia.
    + assert (c x z < 0) by (apply (cmp_lt_le_trans c x y z); [done|lia|lia]).
      destruct (Z.eqb_spec (c x z) 0); lia.
Qed.
End ComparatorFacts.

(** ** The order of [compareEntries] *)

Lemma compareIds_le (a b : string) : compareIds a b ≤ 0 ↔ String.le a b.
Proof.
  unfold compareIds, String.le, String.leb.
  destruct (String.compare a b); simpl; split; intros; try done; lia.
Qed.

Lemma compareIds_lt (a b : string) : compareIds a b < 0 ↔ String.ltb a b = true.
Proof.
  unfold compareIds, String.ltb.
  destruct (String.compare a b); split; intros; try done; lia.
Qed.

Lemma compareIds_eq (a b : string) : compareIds a b = 0 ↔ a = b.
Proof.
  unfold compareIds. destruct (String.compare a b) eqn:Hcmp; split; try done; try lia.
  - intros _. by apply String.compare_eq_iff.
  - intros ->. pose proof (String.compare_antisym b b) as Hanti.
    rewrite Hcmp in Hanti. done.
  - intros ->. pose proof (String.compare_antisym b b) as Hanti.
    rewrite Hcmp in Hanti. done.
Qed.

Lemma Comparator_compareIds : Comparator compareIds.
Proof.
  split.
  - intros a b. unfold compareIds. rewrite (String.compare_antisym a b).
    by destruct (String.compare b a).
  - intros a b d. rewrite !compareIds_le. apply transitivity.
Qed.

Lemma Comparator_compareModulesByIdentifier : Comparator compareModulesByIdentifier.
Proof. apply (Comparator_on module_identifier compareIds Comparator_compareIds). Qed.

#[global] Instance moduleLe_total : Total moduleLe.
Proof.
  intros a b. unfold moduleLe.
  pose proof (cmp_antisym _ Comparator_compareModulesByIdentifier a b). lia.
Qed.

Lemma compareModuleIterables_identifiers (a b : list Module) :
  compareModuleIterables a b
  = compareIterables compareIds (module_identifier <$> a) (module_identifier <$> b).
Proof.
  unfold compareModuleIterables. revert b.
  induction a as [|x a IH]; intros [|y b]; simpl; try done.
  unfold compareModulesByIdentifier at 1 3. by rewrite IH.
Qed.

Lemma compareIterables_lexLt (a b : list string) :
  compareIterables compareIds a b < 0 ↔ lexLt a b.
Proof.
  split.
  - revert b. induction a as [|x a IH]; intros [|y b]; simpl; try lia.
    + intros _. constructor.
    + destruct (Z.eqb_spec (compareIds x y) 0) as [Heq|Hne].
      * apply compareIds_eq in Heq as ->. intros Hlt. apply lexLt_tail. by apply IH.
      * intros Hlt. apply lexLt_head. by apply compareIds_lt.
  - induction 1 as [y l|x y l l' Hlt|x l l' Hlt IH]; simpl.
    + lia.
    + apply compareIds_lt in Hlt. destruct (Z.eqb_spec (compareIds x y) 0); lia.
    + rewrite (proj2 (compareIds_eq x x) eq_refl). simpl. done.
Qed.

Lemma sortedIdentifiers_Sorted (modules : list Module) :
  Sorted String.le (module_identifier <$> sortModules modules).
Proof.
  apply (Sorted_fmap _ moduleLe).
  - intros x y. unfold moduleLe, compareModulesByIdentifier. apply compareIds_le.
  - apply Sorted_merge_sort. apply _.
Qed.

Lemma sortedIdentifiers_Permutation (l1 l2 : list Module) :
  l1 ≡ₚ l2 →
  module_identifier <$> sortModules l1 = module_identifier <$> sortModules l2.
Proof.
  intros Hperm. apply (Sorted_unique String.le).
  - apply sortedIdentifiers_Sorted.
  - apply sortedIdentifiers_Sorted.
  - apply fmap_Permutation. unfold sortModules.
    by rewrite !merge_sort_Permutation.
Qed.

(** The number returned by [compareEntries] is the lexicographic combination
    of its five criteria. *)
Lemma compareResult_lex (a b : ChunksInfoItem) :
  compareResult a b =
  lexCompare (λ a b, priorityOf a - priorityOf b)
   (lexCompare (λ a b, setSize (info_chunks a) - setSize (info_chunks b))
    (lexCompare (λ a b, sizeReduction a - sizeReduction b)
     (lexCompare (λ a b, setSize (info_modules a) - setSize (info_modules b))
      (λ a b, compareIterables compareIds
                (sortedIdentifiers b) (sortedIdentifiers a))))) a b.
Proof.
  unfold compareResult, compareEntries, lexCompare, priorityOf, sizeReduction,
    sortedIdentifiers.
  repeat (match goal with |- context [if negb ?c then _ else _] => destruct c end;
          simpl; [|done]).
  apply compareModuleIterables_identifiers.
Qed.

Lemma Comparator_compareResult : Comparator compareResult.
Proof.
  assert (Comparator
    (lexCompare (λ a b, priorityOf a - priorityOf b)
      (lexCompare (λ a b, setSize (info_chunks a) - setSize (info_chunks b))
        (lexCompare (λ a b, sizeReduction a - sizeReduction b)
          (lexCompare
            (λ a b, setSize (info_modules a) - setSize (info_modules b))
            (λ a b, compareIterables compareIds
                      (sortedIdentifiers b) (sortedIdentifiers a))))))) as Hlex.
  { repeat apply Comparator_lex;
      try apply (Comparator_difference (A := ChunksInfoItem)).
    apply (Comparator_flip
             (λ a b, compareIterables compareIds
                       (sortedIdentifiers a) (sortedIdentifiers b))).
    apply (Comparator_on sortedIdentifiers (compareIterables compareIds)).
    apply Comparator_compareIterables, Comparator_compareIds. }
  split.
  - intros a b. rewrite !compareResult_lex. apply (cmp_antisym _ Hlex).
  - intros a b d. rewrite !compareResult_lex. apply (cmp_trans _ Hlex).
Qed.

(** [compareEntries] gives a negative number exactly when the first item
    ranks below the second. *)
Lemma compareResult_ranksBelow (a b : ChunksInfoItem) :
  compareResult a b < 0 ↔ ranksBelow a b.
Proof.
  rewrite compareResult_lex. unfold lexCompare, ranksBelow.
  rewrite <- compareIterables_lexLt.
  repeat (match goal with
          | |- context [if negb (?x =? 0) then _ else _] =>
              destruct (Z.eqb_spec x 0); simpl
          end); lia.
Qed.

Lemma itemEquiv_refl (a : ChunksInfoItem) : itemEquiv a a.
Proof. by repeat split. Qed.

Lemma itemEquiv_sym (a b : ChunksInfoItem) : itemEquiv a b → itemEquiv b a.
Proof. intros (? & ? & ? & ? & ? & ? & ? & ?). by repeat split. Qed.

Lemma itemEquiv_trans (a b d : ChunksInfoItem) :
  itemEquiv a b → itemEquiv b d → itemEquiv a d.
Proof.
  intros (? & ? & ? & ? & ? & ? & ? & ?) (? & ? & ? & ? & ? & ? & ? & ?).
  repeat split; by etrans.
Qed.

Lemma itemEquiv_sorted (a : ChunksInfoItem) : itemEquiv (sorted a) a.
Proof.
  repeat split. simpl. unfold sortModules. apply merge_sort_Permutation.
Qed.

Lemma compareEntries_itemEquiv (a b : ChunksInfoItem) :
  itemEquiv (compareEntries a b).1.2 a ∧ itemEquiv (compareEntries a b).2 b.
Proof.
  destruct (compareEntries_items a b) as [[-> | ->] [-> | ->]];
    auto using itemEquiv_refl, itemEquiv_sorted.
Qed.

Lemma compareResult_itemEquiv (a a' b b' : ChunksInfoItem) :
  itemEquiv a a' → itemEquiv b b' → compareResult a b = compareResult a' b'.
Proof.
  intros (Hma & Hca & _ & _ & Hsa & Hcha & _ & _)
         (Hmb & Hcb & _ & _ & Hsb & Hchb & _ & _).
  rewrite !compareResult_lex.
  unfold lexCompare, priorityOf, sizeReduction, sortedIdentifiers, setSize.
  rewrite Hca, Hcb, Hsa, Hsb, Hcha, Hchb.
  rewrite (Permutation_length Hma), (Permutation_length Hmb).
  by rewrite (sortedIdentifiers_Permutation _ _ Hma),
    (sortedIdentifiers_Permutation _ _ Hmb).
Qed.

(** ** Selection of the best entry *)

Lemma mapEquiv_refl m : mapEquiv m m.
Proof. apply Forall2_same_length_lookup_2; [done|].
  intros i x y Hx Hy. assert (x = y) as -> by congruence.
  split; [done|apply itemEquiv_refl].
Qed.

Lemma mapEquiv_mapKeys m m0 : mapEquiv m m0 → mapKeys m = mapKeys m0.
Proof.
  unfold mapKeys. induction 1 as [|[k v] [k0 v0] m m0 [Hk _] _ IH]; [done|].
  simpl in Hk. subst k0. change (k :: m.*1 = k :: m0.*1). by f_equal.
Qed.

Lemma mapEquiv_mapGet m m0 k v0 :
  mapEquiv m m0 → mapGet k m0 = Some v0 →
  ∃ v, mapGet k m = Some v ∧ itemEquiv v v0.
Proof.
  induction 1 as [|[k1 v1] [k2 v2] m m0 [Hk Hv] _ IH]; simpl; [done|].
  simpl in Hk, Hv. subst k2.
  destruct (decide (k1 = k)) as [->|Hne]; [|done].
  intros [= <-]. eauto.
Qed.

Lemma mapEquiv_mapGet_inv m m0 k v :
  mapEquiv m m0 → mapGet k m = Some v →
  ∃ v0, mapGet k m0 = Some v0 ∧ itemEquiv v v0.
Proof.
  induction 1 as [|[k1 v1] [k2 v2] m m0 [Hk Hv] _ IH]; simpl; [done|].
  simpl in Hk, Hv. subst k2.
  destruct (decide (k1 = k)) as [->|Hne]; [|done].
  intros [= <-]. eauto.
Qed.

Lemma mapEquiv_mapSet m m0 k v v0 :
  mapEquiv m m0 → mapGet k m0 = Some v0 → itemEquiv v v0 →
  mapEquiv (mapSet k v m) m0.
Proof.
  intros Hequiv. revert v0.
  induction Hequiv as [|[k1 v1] [k2 v2] m m0 [Hk Hv] Hrest IH]; simpl; [done|].
  simpl in Hk, Hv. subst k2. intros v0.
  destruct (decide (k1 = k)) as [->|Hne].
  - intros [= <-] Hnew. by constructor.
  - intros Hget Hnew. constructor; [done|]. by eapply IH.
Qed.

Lemma mapEquiv_mapDelete m m0 k :
  mapEquiv m m0 → mapEquiv (mapDelete k m) (mapDelete k m0).
Proof.
  induction 1 as [|[k1 v1] [k2 v2] m m0 [Hk Hv] Hrest IH]; [constructor|].
  simpl in Hk, Hv. subst k2. rewrite !mapDelete_cons.
  destruct (decide (k1 = k)) as [->|Hne]; [done|]. by constructor.
Qed.

Lemma findBestEntry_dominates (m0 : list (string * ChunksInfoItem)) :
  ∀ keys seen bestKey m,
    mapEquiv m m0 →
    (∀ k, k ∈ keys → k ∈ mapKeys m0) →
    bestKey ∈ mapKeys m0 →
    dominates m0 bestKey seen →
    ∃ key m',
      findBestEntry keys (Some bestKey) m = (Some key, m')
      ∧ mapEquiv m' m0
      ∧ key ∈ mapKeys m0
      ∧ dominates m0 key (seen ++ keys).
Proof.
  induction keys as [|k keys IH]; intros seen bestKey m Hequiv Hkeys Hbest Hdom.
  - exists bestKey, m. simpl. by rewrite app_nil_r.
  - simpl.
    assert (k ∈ mapKeys m0) as Hk by (apply Hkeys; left).
    apply mapGet_is_Some in Hbest as Hbest0. destruct Hbest0 as [best0 Hbest0].
    apply mapGet_is_Some in Hk as Hk0. destruct Hk0 as [info0 Hinfo0].
    destruct (mapEquiv_mapGet _ _ _ _ Hequiv Hbest0) as (best & -> & Hbeq).
    destruct (mapEquiv_mapGet _ _ _ _ Hequiv Hinfo0) as (info & -> & Hieq).
    pose proof (compareEntries_itemEquiv best info) as [Hb' Hi'].
    assert ((compareEntries best info).1.1 = compareResult best0 info0) as Hres.
    { fold (compareResult best info). by apply compareResult_itemEquiv. }
    destruct (compareEntries best info) as [[res best'] info']. simpl in *.
    assert (mapEquiv (mapSet k info' (mapSet bestKey best' m)) m0) as Hequiv'.
    { eapply mapEquiv_mapSet; [eapply mapEquiv_mapSet| |]; eauto using itemEquiv_trans. }
    assert (∀ k', k' ∈ keys → k' ∈ mapKeys m0) as Hkeys'.
    { intros k' Hin. apply Hkeys. by right. }
    replace (seen ++ k :: keys) with ((seen ++ [k]) ++ keys)
      by (by rewrite <- app_assoc).
    destruct (Z.ltb_spec res 0) as [Hlt|Hge].
    + apply IH; try done.
      intros e best1 info1 Hin Hget1 Hget2.
      assert (best1 = info0) as -> by congruence.
      apply elem_of_app in Hin as [Hin|Hin].
      * specialize (Hdom e best0 info1 Hin Hbest0 Hget2).
        apply (cmp_flip_le compareResult info1 info0 Comparator_compareResult).
        apply (cmp_trans _ Comparator_compareResult info1 best0 info0); [|lia].
        by apply (cmp_flip_le compareResult info1 best0 Comparator_compareResult).
      * apply list_elem_of_singleton in Hin as ->.
        assert (info1 = info0) as -> by congruence.
        by rewrite (cmp_refl compareResult info0 Comparator_compareResult).
    + apply IH; try done.
      intros e best1 info1 Hin Hget1 Hget2.
      assert (best1 = best0) as -> by congruence.
      apply elem_of_app in Hin as [Hin|Hin].
      * by apply (Hdom e).
      * apply list_elem_of_singleton in Hin as ->.
        assert (info1 = info0) as -> by congruence. lia.
Qed.

Lemma findBestEntry_all (m : list (string * ChunksInfoItem)) :
  m ≠ [] →
  ∃ key m',
    findBestEntry (mapKeys m) None m = (Some key, m')
    ∧ mapEquiv m' m
    ∧ key ∈ mapKeys m
    ∧ dominates m key (mapKeys m).
Proof.
  destruct m as [|[k0 v0] m]; [done|]. intros _.
  change (mapKeys ((k0, v0) :: m)) with (k0 :: mapKeys m).
  change (findBestEntry (k0 :: mapKeys m) None ((k0, v0) :: m))
    with (findBestEntry (mapKeys m) (Some k0) ((k0, v0) :: m)).
  destruct (findBestEntry_dominates ((k0, v0) :: m) (mapKeys m) [k0] k0
              ((k0, v0) :: m)) as (key & m' & Hfind & Hequiv & Hkey & Hdom).
  - apply mapEquiv_refl.
  - intros k Hin. by right.
  - left.
  - intros k best info Hin Hbest Hinfo.
    apply list_elem_of_singleton in Hin as ->.
    assert (best = info) as -> by congruence.
    by rewrite (cmp_refl compareResult info Comparator_compareResult).
  - exists key, m'. done.
Qed.

(** C1: [compareEntries] orders two entries by priority, then by the number
    of chunks, then by [totalSize] times the number of chunks less one, then
    by the number of modules, and last by the sorted module identifiers
    compared in inverted order.  The entry the selection loop takes from a
    non-empty pending map is one that no entry of the map ranks above, and
    the map the round continues with no longer holds its key, the other
    entries being kept. *)
Theorem selection_takes_maximum :
  (∀ a b, compareResult a b < 0 ↔ ranksBelow a b)
  ∧ ∀ m : list (string * ChunksInfoItem),
      NoDup (mapKeys m) → m ≠ [] →
      ∃ key best item rest,
        takeBestEntry m = Some (item, rest)
        ∧ mapGet key m = Some best
        ∧ itemEquiv item best
        ∧ (∀ k info, (k, info) ∈ m →
             0 ≤ compareResult item info ∧ ¬ ranksBelow item info)
        ∧ mapGet key rest = None
        ∧ mapEquiv rest (mapDelete key m).
Proof.
  split; [exact compareResult_ranksBelow|].
  intros m Hnodup Hne.
  destruct (findBestEntry_all m Hne) as (key & m' & Hfind & Hequiv & Hkey & Hdom).
  apply mapGet_is_Some in Hkey as [best Hbest].
  destruct (mapEquiv_mapGet _ _ _ _ Hequiv Hbest) as (item & Hitem & Hieq).
  exists key, best, item, (mapDelete key m').
  split_and!.
  - unfold takeBestEntry. by rewrite Hfind, Hitem.
  - done.
  - done.
  - intros k info Hin.
    assert (0 ≤ compareResult item info) as Hge.
    { rewrite (compareResult_itemEquiv item best info info Hieq (itemEquiv_refl _)).
      apply (Hdom k best info); [|done|by apply elem_of_mapGet].
      apply list_elem_of_fmap. by exists (k, info). }
    split; [done|]. rewrite <- compareResult_ranksBelow. lia.
  - apply mapGet_mapDelete_eq.
  - by apply mapEquiv_mapDelete.
Qed.

Lemma selection_takes_maximum_witness :
  ∃ key best item rest,
    takeBestEntry examplePending = Some (item, rest)
    ∧ mapGet key examplePending = Some best
    ∧ itemEquiv item best
    ∧ (∀ k info, (k, info) ∈ examplePending →
         0 ≤ compareResult item info ∧ ¬ ranksBelow item info)
    ∧ mapGet key rest = None
    ∧ mapEquiv rest (mapDelete key examplePending).
Proof.
  apply (proj2 selection_takes_maximum examplePending).
  - apply (bool_decide_unpack _). vm_compute. exact I.
  - discriminate.
Defined.

(** ** Retraction *)

(** The loops of [addSizes] and [subSizes] over a list of entries with
    distinct keys. *)
Lemma foldl_sizes_lookup (op : Z → Z → Z) (entries : list (string * Z))
    (sizes : gmap string Z) key :
  NoDup entries.*1 →
  foldl (λ sizes kv, <[kv.1 := op (default 0 (sizes !! kv.1)) kv.2]> sizes)
    sizes entries !! key
  = match (list_to_map entries : gmap string Z) !! key with
    | Some size => Some (op (default 0 (sizes !! key)) size)
    | None => sizes !! key
    end.
Proof.
  revert sizes. induction entries as [|[k v] entries IH]; intros sizes Hnodup; simpl.
  - by rewrite lookup_empty.
  - apply NoDup_cons in Hnodup as [Hnotin Hnodup].
    rewrite IH by done. simpl.
    destruct (decide (k = key)) as [->|Hne].
    + rewrite lookup_insert_eq.
      rewrite (proj1 (not_elem_of_list_to_map entries key) Hnotin).
      by rewrite lookup_insert_eq.
    + rewrite !lookup_insert_ne by done.
      by destruct (list_to_map entries !! key).
Qed.

Lemma subSizes_lookup (module : Module) (sizes : gmap string Z) key :
  subSizes module sizes !! key
  = match module_sizes module !! key with
    | Some size => Some (default 0 (sizes !! key) - size)
    | None => sizes !! key
    end.
Proof.
  unfold subSizes.
  rewrite (foldl_sizes_lookup Z.sub) by apply NoDup_fst_map_to_list.
  by rewrite list_to_map_to_list.
Qed.

Lemma foldl_setDelete_elem_of (itemModules modules : list Module) module :
  module ∈ foldl (λ modules module, setDelete module modules) modules itemModules
  ↔ module ∈ modules ∧ module ∉ itemModules.
Proof.
  revert modules. induction itemModules as [|x itemModules IH]; intros modules; simpl.
  - split; [intros Hin; split; [done|]|by intros [? _]].
    intros Hnil. inversion Hnil.
  - rewrite IH, elem_of_setDelete, not_elem_of_cons. tauto.
Qed.

Lemma removeTracked_modules (itemModules modules : list Module) sizes updated :
  (removeTracked itemModules (modules, sizes, updated)).1.1
  = foldl (λ modules module, setDelete module modules) modules itemModules.
Proof.
  unfold removeTracked. revert modules sizes updated.
  induction itemModules as [|x itemModules IH]; intros modules sizes updated; simpl.
  - done.
  - destruct (setHas x modules) eqn:Hhas.
    + apply IH.
    + apply setHas_false in Hhas. rewrite (setDelete_absent x modules Hhas).
      apply IH.
Qed.

Lemma removeTracked_updated (itemModules modules : list Module) sizes updated :
  (removeTracked itemModules (modules, sizes, updated)).2 = true
  ↔ updated = true ∨ ∃ module, module ∈ itemModules ∧ module ∈ modules.
Proof.
  unfold removeTracked. revert modules sizes updated.
  induction itemModules as [|x itemModules IH]; intros modules sizes updated; simpl.
  - split; [by left|]. intros [?|(module & Hin & _)]; [done|inversion Hin].
  - destruct (setHas x modules) eqn:Hhas.
    + apply setHas_true in Hhas. rewrite IH. split; [|by left].
      intros _. right. exists x. split; [left|done].
    + apply setHas_false in Hhas. rewrite IH. split.
      * intros [?|(module & Hin & Hmod)]; [by left|].
        right. exists module. split; [by right|done].
      * intros [?|(module & Hin & Hmod)]; [by left|].
        apply elem_of_cons in Hin as [->|Hin]; [done|].
        right. by exists module.
Qed.

Section Retraction.
Context {G : Type} `{GraphOps G}.
Variable item : ChunksInfoItem.
Implicit Types (m : list (string * ChunksInfoItem)) (info : ChunksInfoItem).

Lemma retractEntry_other key info m k :
  key ≠ k → mapGet k (retractEntry item key info m) = mapGet k m.
Proof.
  intros Hne. unfold retractEntry.
  destruct (isOverlap _ _); [|done].
  destruct (info_validateSize info).
  - destruct (removeTracked _ _) as [[modules sizes] updated].
    repeat (match goal with |- context [if ?c then _ else _] => destruct c end);
      rewrite ?mapGet_mapDelete_ne, ?mapGet_mapSet_ne by done; done.
  - match goal with |- context [if ?c then _ else _] => destruct c end;
      rewrite ?mapGet_mapDelete_ne, ?mapGet_mapSet_ne by done; done.
Qed.

Lemma retractEntry_self key info m m' :
  mapGet key m = Some info → mapGet key m' = Some info →
  mapGet key (retractEntry item key info m)
  = mapGet key (retractEntry item key info m').
Proof.
  intros Hm Hm'. unfold retractEntry.
  destruct (isOverlap _ _); [|congruence].
  destruct (info_validateSize info).
  - destruct (removeTracked _ _) as [[modules sizes] updated].
    repeat (match goal with |- context [if ?c then _ else _] => destruct c end);
      rewrite ?mapGet_mapDelete_eq, ?mapGet_mapSet_eq; done.
  - match goal with |- context [if ?c then _ else _] => destruct c end;
      rewrite ?mapGet_mapDelete_eq, ?mapGet_mapSet_eq; done.
Qed.

Lemma retract_loop_lookup keys m k :
  NoDup keys →
  mapGet k
    (foldl (λ m key,
       match mapGet key m with
       | Some info => retractEntry item key info m
       | None => m
       end) m keys)
  = if bool_decide (k ∈ keys)
    then match mapGet k m with
         | Some info => mapGet k (retractEntry item k info m)
         | None => None
         end
    else mapGet k m.
Proof.
  intros Hnodup. revert m.
  induction Hnodup as [|x keys Hnotin Hnodup IH]; intros m; simpl; [done|].
  rewrite IH. destruct (decide (k = x)) as [->|Hne].
  - rewrite (bool_decide_eq_false_2 (x ∈ keys)) by done.
    rewrite bool_decide_eq_true_2 by left.
    by destruct (mapGet x m) eqn:Hx.
  - assert (mapGet k
              match mapGet x m with
              | Some info => retractEntry item x info m
              | None => m
              end = mapGet k m) as Hsame.
    { destruct (mapGet x m); [|done]. apply retractEntry_other. congruence. }
    destruct (decide (k ∈ keys)) as [Hin|Hnot].
    + rewrite !bool_decide_eq_true_2 by (done || by right).
      rewrite Hsame. destruct (mapGet k m) as [info|] eqn:Hk; [|done].
      apply retractEntry_self; [by rewrite Hsame|done].
    + rewrite !bool_decide_eq_false_2; [done| |done].
      rewrite not_elem_of_cons. done.
Qed.

Lemma retract_lookup m k :
  NoDup (mapKeys m) →
  mapGet k (retract item m)
  = match mapGet k m with
    | Some info => mapGet k (retractEntry item k info m)
    | None => None
    end.
Proof.
  intros Hnodup. unfold retract. rewrite retract_loop_lookup by done.
  destruct (decide (k ∈ mapKeys m)) as [Hin|Hnot].
  - by rewrite bool_decide_eq_true_2.
  - rewrite bool_decide_eq_false_2 by done.
    apply mapGet_None in Hnot. by rewrite Hnot.
Qed.
End Retraction.

(** ** Materialization *)

Section Materialization.
Context {G : Type} `{GraphOps G}.
Variable indexMap : list (Chunk * Z).

Lemma selectionStep_materialize (st : PassState) item rest newChunk g :
  takeBestEntry (chunksInfoMap st) = Some (item, rest) →
  (setSize (usedChunksOf item (reuseDecision (graph st) item)) =? 0)
  && negb (isReused (reuseDecision (graph st) item)) = false →
  requestBudget indexMap item (reuseDecision (graph st) item)
    (usedChunksOf item (reuseDecision (graph st) item))
    (withChunksInfoMap rest st) = None →
  prepareChunk item (reuseDecision (graph st) item)
    (usedChunksOf item (reuseDecision (graph st) item)) (graph st)
  = Some (newChunk, g) →
  selectionStep indexMap st
  = g' ← checkFilename item newChunk g;
    Ok (withChunksInfoMap (retract item rest)
          (withMaxSizeQueueMap
             (recordMaxSize item newChunk (maxSizeQueueMap st))
             (withGraph
                (transferModules item (reuseDecision (graph st) item)
                   (usedChunksOf item (reuseDecision (graph st) item))
                   newChunk g')
                (withChunksInfoMap rest st)))).
Proof.
  intros Htake Hskip Hbudget Hprepare. unfold selectionStep.
  rewrite Htake. simpl. rewrite Hskip, Hbudget, Hprepare. done.
Qed.

Lemma selectionLoop_throw fuel (st : PassState) message :
  chunksInfoMap st ≠ [] →
  selectionStep indexMap st = Throw message →
  selectionLoop indexMap (S fuel) st = Throw message.
Proof.
  intros Hne Hstep. simpl. rewrite Hstep.
  destruct (chunksInfoMap st); [done|]. done.
Qed.
End Materialization.

Lemma retractEntry_result (item : ChunksInfoItem) key info m :
  isOverlap (info_chunks info) (info_chunks item) = true →
  mapGet key (retractEntry item key info m)
  = if (if info_validateSize info
        then (removeTracked (info_modules item)
                (info_modules info, info_sizes info, false)).2
             && ((setSize (retractedModules item info) =? 0)
                 || negb (checkMinSize (retractedSizes item info)
                            (cg_minSize (info_cacheGroup info))))
        else setSize (retractedModules item info) =? 0)
    then None
    else Some (withModulesSizes (retractedModules item info)
                 (if info_validateSize info then retractedSizes item info
                  else info_sizes info) info).
Proof.
  intros Hoverlap. unfold retractEntry, retractedModules, retractedSizes.
  rewrite Hoverlap. destruct (info_validateSize info).
  - rewrite <- (removeTracked_modules (info_modules item) (info_modules info)
                  (info_sizes info) false).
    destruct (removeTracked _ _) as [[modules sizes] updated]. simpl.
    destruct updated; simpl.
    + destruct (setSize modules =? 0); simpl;
        [by rewrite mapGet_mapDelete_eq|].
      destruct (checkMinSize sizes _); simpl;
        [by rewrite mapGet_mapSet_eq|by rewrite mapGet_mapDelete_eq].
    + by rewrite mapGet_mapSet_eq.
  - simpl. destruct (setSize _ =? 0);
      [by rewrite mapGet_mapDelete_eq|by rewrite mapGet_mapSet_eq].
Qed.

Lemma setSize_zero {A} (l : list A) : (setSize l =? 0) = true ↔ l = [].
Proof.
  unfold setSize. rewrite Z.eqb_eq. destruct l; simpl; split; try done; lia.
Qed.

Lemma filter_ext_elem {A} (P Q : A → Prop) `{∀ x, Decision (P x)}
    `{∀ x, Decision (Q x)} (l : list A) :
  (∀ x, x ∈ l → P x ↔ Q x) → filter P l = filter Q l.
Proof.
  induction l as [|x l IH]; intros Hext; [done|].
  rewrite !filter_cons.
  destruct (decide (P x)) as [HP|HP], (decide (Q x)) as [HQ|HQ].
  - f_equal. apply IH. intros y Hy. apply Hext. by right.
  - destruct HQ. by apply (Hext x (list_elem_of_here _ _)).
  - destruct HP. by apply (Hext x (list_elem_of_here _ _)).
  - apply IH. intros y Hy. apply Hext. by right.
Qed.

(** The sizes the size-tracking loop leaves: under each key the former size
    less what the removed modules have under it. *)
Lemma removeTracked_sizes (itemModules : list Module) key :
  ∀ (modules : list Module) (sizes : gmap string Z) (updated : bool),
    NoDup itemModules →
    (∀ module key, module ∈ itemModules → module ∈ modules →
       is_Some (module_sizes module !! key) → is_Some (sizes !! key)) →
    (removeTracked itemModules (modules, sizes, updated)).1.2 !! key
    = (λ size, size - sizeOfModules key
                 (filter (λ module, module ∈ modules) itemModules))
        <$> sizes !! key.
Proof.
  unfold removeTracked.
  induction itemModules as [|x itemModules IH];
    intros modules sizes updated Hnodup Hcover.
  - simpl. destruct (sizes !! key) as [size|]; simpl; [|done].
    f_equal. lia.
  - apply NoDup_cons in Hnodup as [Hx Hnodup]. cbn [foldl].
    destruct (setHas x modules) eqn:Hhas.
    + apply setHas_true in Hhas.
      rewrite IH; [|done|].
      * rewrite filter_cons_True by done.
        rewrite (filter_ext_elem (λ module, module ∈ setDelete x modules)
                   (λ module, module ∈ modules) itemModules).
        2:{ intros module Hin. rewrite elem_of_setDelete. split; [by intros [_ ?]|].
            intros Hmod. split; [|done]. by intros ->. }
        rewrite subSizes_lookup. simpl.
        destruct (module_sizes x !! key) as [size|] eqn:Hsize; simpl.
        -- destruct (Hcover x key) as [former Hformer];
             [left|done|by eexists|].
           rewrite Hformer. simpl. f_equal. lia.
        -- by destruct (sizes !! key).
      * intros module key' Hin Hmod Htype.
        apply elem_of_setDelete in Hmod as [_ Hmod].
        rewrite subSizes_lookup.
        destruct (module_sizes x !! key'); [by eexists|].
        apply (Hcover module key'); [by right|done|done].
    + apply setHas_false in Hhas. rewrite filter_cons_False by done.
      apply IH; [done|]. intros module key' Hin. apply Hcover. by right.
Qed.

(** C3: after the retraction for a materialized [item], an entry that is
    still in the pending map and whose chunks overlap those of [item] holds
    none of the modules of [item]: its modules are the former ones less
    those of [item].  With size tracking its sizes are, under every key, the
    former size less the sizes of the removed modules; without, its sizes
    are as before.  An overlapping entry all of whose modules are modules of
    [item] is deleted from the map, and so is an overlapping entry with size
    tracking that lost a module and whose sizes, so updated, fail the
    minSize of its cache group.  Entries without overlap are left as they
    are.  The pending map a round ends with, when it has materialized its
    entry, is the result of this retraction. *)
Theorem retraction_removes_modules (item : ChunksInfoItem)
    (m : list (string * ChunksInfoItem)) :
  NoDup (mapKeys m) →
  (∀ k info', mapGet k (retract item m) = Some info' →
     ∃ info, mapGet k m = Some info
       ∧ info_chunks info' = info_chunks info
       ∧ info_cacheGroup info' = info_cacheGroup info
       ∧ info_validateSize info' = info_validateSize info
       ∧ (isOverlap (info_chunks info) (info_chunks item) = false → info' = info)
       ∧ (isOverlap (info_chunks info) (info_chunks item) = true →
            (∀ module, module ∈ info_modules item → module ∉ info_modules info')
            ∧ (∀ module, module ∈ info_modules info' ↔
                 module ∈ info_modules info ∧ module ∉ info_modules item)
            ∧ (info_validateSize info = false →
                 info_sizes info' = info_sizes info)
            ∧ (info_validateSize info = true →
                 NoDup (info_modules item) → sizesCover info →
                 (∀ key, info_sizes info' !! key = sizeLess item info key)
                 ∧ (removedModules item info ≠ [] →
                      checkMinSize (info_sizes info')
                        (cg_minSize (info_cacheGroup info)) = true))))
  ∧ (∀ k info, mapGet k m = Some info →
       isOverlap (info_chunks info) (info_chunks item) = true →
       info_modules info ≠ [] →
       (∀ module, module ∈ info_modules info → module ∈ info_modules item) →
       mapGet k (retract item m) = None)
  ∧ (∀ k info (sizes : gmap string Z), mapGet k m = Some info →
       isOverlap (info_chunks info) (info_chunks item) = true →
       info_validateSize info = true →
       NoDup (info_modules item) → sizesCover info →
       removedModules item info ≠ [] →
       (∀ key, sizes !! key = sizeLess item info key) →
       checkMinSize sizes (cg_minSize (info_cacheGroup info)) = false →
       mapGet k (retract item m) = None)
  ∧ (∀ (G : Type) (ops : GraphOps G) indexMap (st st' : PassState) newChunk g,
       takeBestEntry (chunksInfoMap st) = Some (item, m) →
       (setSize (usedChunksOf item (reuseDecision (graph st) item)) =? 0)
       && negb (isReused (reuseDecision (graph st) item)) = false →
       requestBudget indexMap item (reuseDecision (graph st) item)
         (usedChunksOf item (reuseDecision (graph st) item))
         (withChunksInfoMap m st) = None →
       prepareChunk item (reuseDecision (graph st) item)
         (usedChunksOf item (reuseDecision (graph st) item)) (graph st)
       = Some (newChunk, g) →
       selectionStep indexMap st = Ok st' →
       chunksInfoMap st' = retract item m).
Proof.
  intros Hnodup.
  assert (∀ (G : Type) (ops : GraphOps G) indexMap (st st' : PassState)
            newChunk g,
    takeBestEntry (chunksInfoMap st) = Some (item, m) →
    (setSize (usedChunksOf item (reuseDecision (graph st) item)) =? 0)
    && negb (isReused (reuseDecision (graph st) item)) = false →
    requestBudget indexMap item (reuseDecision (graph st) item)
      (usedChunksOf item (reuseDecision (graph st) item))
      (withChunksInfoMap m st) = None →
    prepareChunk item (reuseDecision (graph st) item)
      (usedChunksOf item (reuseDecision (graph st) item)) (graph st)
    = Some (newChunk, g) →
    selectionStep indexMap st = Ok st' →
    chunksInfoMap st' = retract item m) as Hround.
  { intros G ops indexMap st st' newChunk g Htake Hskip Hbudget Hprepare.
    rewrite (selectionStep_materialize indexMap st item m newChunk g
               Htake Hskip Hbudget Hprepare).
    destruct (checkFilename item newChunk g) as [g'|]; simpl; [|done].
    by intros [= <-]. }
  assert (∀ info key, NoDup (info_modules item) → sizesCover info →
            retractedSizes item info !! key = sizeLess item info key) as Hsizes.
  { intros info key Hitem Hcover. unfold retractedSizes, sizeLess, removedModules.
    apply removeTracked_sizes; [done|].
    intros module key' _. apply Hcover. }
  assert (∀ info, (removeTracked (info_modules item)
                     (info_modules info, info_sizes info, false)).2 = true
                  ↔ removedModules item info ≠ []) as Hupdated.
  { intros info. rewrite removeTracked_updated. unfold removedModules. split.
    - intros [?|(module & Hin & Hmod)]; [done|]. intros Hnil.
      assert (module ∈ filter (λ module, module ∈ info_modules info)
                         (info_modules item)) as Habs
        by by apply list_elem_of_filter.
      rewrite Hnil in Habs. inversion Habs.
    - intros Hne. right.
      destruct (filter _ (info_modules item)) as [|module l] eqn:Hfilter; [done|].
      assert (module ∈ filter (λ module, module ∈ info_modules info)
                         (info_modules item)) as Hin by (rewrite Hfilter; left).
      apply list_elem_of_filter in Hin as [Hmod Hin]. by exists module. }
  split_and!; [| | |exact Hround].
  - intros k info'. rewrite retract_lookup by done.
    destruct (mapGet k m) as [info|] eqn:Hget; [|done].
    intros Hres. exists info. split; [done|].
    destruct (isOverlap (info_chunks info) (info_chunks item)) eqn:Hoverlap.
    + rewrite retractEntry_result in Hres by done.
      destruct (info_validateSize info) eqn:Hvalidate.
      * destruct (removeTracked _ _).2 eqn:Hflag; simpl in Hres.
        -- destruct (setSize (retractedModules item info) =? 0); [done|].
           destruct (checkMinSize (retractedSizes item info) _) eqn:Hcheck;
             [|done].
           simpl in Hres. injection Hres as <-. simpl.
           split_and!; try done. intros _. split_and!.
           ++ intros module Hin. unfold retractedModules.
              rewrite foldl_setDelete_elem_of. tauto.
           ++ intros module. unfold retractedModules.
              by rewrite foldl_setDelete_elem_of.
           ++ done.
           ++ intros _ Hitem Hcover. split; [|done].
              intros key. by apply Hsizes.
        -- injection Hres as <-. simpl.
           split_and!; try done. intros _. split_and!.
           ++ intros module Hin. unfold retractedModules.
              rewrite foldl_setDelete_elem_of. tauto.
           ++ intros module. unfold retractedModules.
              by rewrite foldl_setDelete_elem_of.
           ++ done.
           ++ intros _ Hitem Hcover. split; [intros key; by apply Hsizes|].
              intros Hremoved. apply Hupdated in Hremoved. congruence.
      * destruct (setSize (retractedModules item info) =? 0); [done|].
        injection Hres as <-. simpl.
        split_and!; try done. intros _. split_and!; try done.
        -- intros module Hin. unfold retractedModules.
           rewrite foldl_setDelete_elem_of. tauto.
        -- intros module. unfold retractedModules.
           by rewrite foldl_setDelete_elem_of.
    + unfold retractEntry in Hres. rewrite Hoverlap, Hget in Hres.
      injection Hres as <-. by split_and!.
  - intros k info Hget Hoverlap Hnonempty Hall.
    assert (retractedModules item info = []) as Hempty.
    { destruct (retractedModules item info) as [|module l] eqn:Hmods; [done|].
      assert (module ∈ retractedModules item info) as Hin by (rewrite Hmods; left).
      unfold retractedModules in Hin.
      apply foldl_setDelete_elem_of in Hin as [Hin Hnot].
      destruct Hnot. by apply Hall. }
    rewrite retract_lookup, Hget, retractEntry_result by done.
    rewrite Hempty. change (setSize [] =? 0) with true.
    destruct (info_validateSize info); [|done].
    assert ((removeTracked (info_modules item)
               (info_modules info, info_sizes info, false)).2 = true) as ->; [|done].
    apply removeTracked_updated. right.
    destruct (info_modules info) as [|module modules] eqn:Hmods; [done|].
    exists module. split; [apply Hall|]; left.
  - intros k info sizes Hget Hoverlap Hvalidate Hitem Hcover Hremoved Hlookup Hfail.
    assert (sizes = retractedSizes item info) as ->.
    { apply map_eq. intros key. by rewrite Hlookup, Hsizes. }
    rewrite retract_lookup, Hget, retractEntry_result by done.
    rewrite Hvalidate, Hfail, (proj2 (Hupdated info) Hremoved).
    simpl. by rewrite orb_true_r.
Qed.

Lemma retraction_removes_modules_witness :
  NoDup (mapKeys retractionPending)
  ∧ mapGet "other chunks:2" (retract retractionItem retractionPending) = None
  ∧ (∀ info', mapGet "vendors chunks:1" (retract retractionItem retractionPending)
                = Some info' →
              jsModule 2 "./b.js" 10 ∉ info_modules info')
  ∧ mapGet "big chunks:1" (retract retractionItem sizedPending) = None
  ∧ (∀ info', mapGet "small chunks:1" (retract retractionItem sizedPending)
                = Some info' →
              info_sizes info' !! "javascript" = Some 10).
Proof.
  assert (NoDup (mapKeys retractionPending)) as Hnodup.
  { apply (bool_decide_unpack _). vm_compute. exact I. }
  assert (NoDup (mapKeys sizedPending)) as Hnodup'.
  { apply (bool_decide_unpack _). vm_compute. exact I. }
  assert (NoDup (info_modules retractionItem)) as Hitem.
  { apply (bool_decide_unpack _). vm_compute. exact I. }
  assert (∀ key minSize, sizesCover (sizedItem key minSize)) as Hcover.
  { intros key minSize module type Hin [size Hsize]. simpl in Hin.
    assert (module_sizes module = <["javascript" := 10]> ∅) as Hmodule.
    { apply elem_of_cons in Hin as [->|Hin]; [done|].
      by apply list_elem_of_singleton in Hin as ->. }
    rewrite Hmodule in Hsize. simpl.
    destruct (decide (type = "javascript")) as [->|Hne];
      [by eexists|by rewrite lookup_insert_ne, lookup_empty in Hsize]. }
  destruct (retraction_removes_modules retractionItem retractionPending Hnodup)
    as (Hkept & Hempty & _ & _).
  destruct (retraction_removes_modules retractionItem sizedPending Hnodup')
    as (Hkept' & _ & Hfail & _).
  split_and!.
  - exact Hnodup.
  - eapply Hempty; [reflexivity|reflexivity|discriminate|].
    intros module Hin. apply list_elem_of_singleton in Hin as ->.
    apply (bool_decide_unpack _). vm_compute. exact I.
  - intros info' Hget.
    destruct (Hkept _ _ Hget) as (info & Hinfo & _ & _ & _ & _ & Hgone).
    injection Hinfo as <-.
    apply (proj1 (Hgone eq_refl)). apply (bool_decide_unpack _). vm_compute. exact I.
  - apply (Hfail "big chunks:1" (sizedItem "big" 15) (<["javascript" := 10]> ∅));
      [reflexivity|reflexivity|reflexivity|exact Hitem|apply Hcover|discriminate| |
       vm_compute; reflexivity].
    intros key. unfold sizeLess. simpl.
    destruct (decide (key = "javascript")) as [->|Hne];
      [reflexivity|by rewrite !lookup_insert_ne, !lookup_empty].
  - intros info' Hget.
    destruct (Hkept' _ _ Hget) as (info & Hinfo & _ & _ & _ & _ & Hover).
    injection Hinfo as <-.
    destruct (Hover eq_refl) as (_ & _ & _ & Htracked).
    destruct (Htracked eq_refl Hitem (Hcover "small" 5)) as [Hsizes _].
    rewrite Hsizes. reflexivity.
Defined.

(** ** Reuse of an existing chunk *)

Section ReuseDecision.
Context {G : Type} `{GraphOps G}.
Variables (g : G) (item : ChunksInfoItem).

Lemma reuseBody_skip (r : Reuse) (chunk : Chunk) :
  matchesExactly g item chunk = false → reuseBody g item r chunk = r.
Proof.
  unfold matchesExactly, reuseBody.
  destruct (getNumberOfChunkModules g chunk =? _); simpl; [|done].
  destruct (0 <? getNumberOfEntryModules g chunk); simpl; [done|].
  by intros ->.
Qed.

Lemma reuseBody_match (r : Reuse) (chunk : Chunk) :
  matchesExactly g item chunk = true →
  reuseBody g item r chunk
  = {| newChunk :=
         match newChunk r with
         | None => Some chunk
         | Some current =>
             if negb (truthy (chunk_name current)) then Some chunk
             else if truthy (chunk_name chunk)
                     && (nameLength (chunk_name chunk)
                           <? nameLength (chunk_name current))
             then Some chunk
             else if truthy (chunk_name chunk)
                     && (nameLength (chunk_name chunk)
                           =? nameLength (chunk_name current))
                     && nameLt (chunk_name chunk) (chunk_name current)
             then Some chunk
             else Some current
         end;
       chunkName := None;
       isReused := true |}.
Proof.
  unfold matchesExactly, reuseBody.
  destruct (getNumberOfChunkModules g chunk =? _); simpl; [|done].
  destruct (0 <? getNumberOfEntryModules g chunk); simpl; [done|].
  by intros ->.
Qed.
End ReuseDecision.

Lemma nameLt_trans (a b c : option string) :
  nameLt a b = true → nameLt b c = true → nameLt a c = true.
Proof.
  destruct a as [x|], b as [y|], c as [z|]; simpl; try done.
  rewrite <- !compareIds_lt. intros Hxy Hyz.
  apply (cmp_lt_le_trans compareIds x y z Comparator_compareIds); [done|lia].
Qed.

Lemma notWorse_refl (a : Chunk) : notWorse a a.
Proof.
  right. split; [done|]. destruct (chunk_name a) as [x|]; simpl; [|done].
  destruct (String.ltb x x) eqn:Hlt; [|done].
  apply compareIds_lt in Hlt.
  rewrite (cmp_refl compareIds x Comparator_compareIds) in Hlt. lia.
Qed.

Lemma reuseInv_step {G : Type} `{GraphOps G} (g : G) (item : ChunksInfoItem)
    (r : Reuse) (seen : list Chunk) (chunk : Chunk) :
  reuseInv item r seen →
  matchesExactly g item chunk = true →
  reuseInv item (reuseBody g item r chunk) (seen ++ [chunk]).
Proof.
  intros [Hstart Hinv] Hmatch. rewrite (reuseBody_match g item r chunk Hmatch).
  split; [by destruct seen|]. intros _.
  destruct seen as [|s seen'] eqn:Hseen.
  - rewrite (Hstart eq_refl). simpl. split_and!; try done.
    exists chunk. split_and!; [done|left| |done].
    intros c Hc Htruthy. apply list_elem_of_singleton in Hc as ->.
    split; [done|apply notWorse_refl].
  - rewrite <- Hseen in *. clear Hstart.
    destruct Hinv as (Hreused & Hname & current & Hnew & Hin & Hbest & Hlast);
      [by rewrite Hseen|].
    clear Hseen s seen'.
    split; [done|]. split; [done|]. simpl. rewrite Hnew.
    destruct (truthy (chunk_name current)) eqn:Hcur; simpl.
    + assert (∀ c, c ∈ seen → truthy (chunk_name c) = true →
                notWorse current c) as Hbest'.
      { intros c Hc Ht. by apply Hbest. }
      destruct (truthy (chunk_name chunk)) eqn:Hchunk; simpl.
      * destruct (Z.ltb_spec (nameLength (chunk_name chunk))
                    (nameLength (chunk_name current))) as [Hshorter|Hlonger].
        { exists chunk. split_and!; [done|apply elem_of_app; right; left| |].
          - intros c Hc Ht. split; [done|].
            apply elem_of_app in Hc as [Hc|Hc].
            + destruct (Hbest' c Hc Ht) as [?|[? _]]; left; lia.
            + apply list_elem_of_singleton in Hc as ->. apply notWorse_refl.
          - intros Hall. rewrite (Hall chunk) in Hchunk; [done|].
            apply elem_of_app; right; left. }
        destruct (Z.eqb_spec (nameLength (chunk_name chunk))
                    (nameLength (chunk_name current))) as [Hsame|Hdiff]; simpl.
        { destruct (nameLt (chunk_name chunk) (chunk_name current)) eqn:Hlex.
          - exists chunk. split_and!; [done|apply elem_of_app; right; left| |].
            + intros c Hc Ht. split; [done|].
              apply elem_of_app in Hc as [Hc|Hc].
              * destruct (Hbest' c Hc Ht) as [?|[Hlen Hnot]]; [left; lia|].
                right. split; [lia|].
                destruct (nameLt (chunk_name c) (chunk_name chunk)) eqn:Hc'; [|done].
                by rewrite (nameLt_trans _ _ _ Hc' Hlex) in Hnot.
              * apply list_elem_of_singleton in Hc as ->. apply notWorse_refl.
            + intros Hall. rewrite (Hall chunk) in Hchunk; [done|].
              apply elem_of_app; right; left.
          - exists current. split_and!; [done|apply elem_of_app; by left| |].
            + intros c Hc Ht. split; [done|].
              apply elem_of_app in Hc as [Hc|Hc]; [by apply Hbest'|].
              apply list_elem_of_singleton in Hc as ->. right. split; [lia|done].
            + intros Hall. rewrite (Hall current) in Hcur; [done|].
              apply elem_of_app; by left. }
        exists current. split_and!; [done|apply elem_of_app; by left| |].
        { intros c Hc Ht. split; [done|].
          apply elem_of_app in Hc as [Hc|Hc]; [by apply Hbest'|].
          apply list_elem_of_singleton in Hc as ->. left. lia. }
        { intros Hall. rewrite (Hall current) in Hcur; [done|].
          apply elem_of_app; by left. }
      * exists current. split_and!; [done|apply elem_of_app; by left| |].
        { intros c Hc Ht. split; [done|].
          apply elem_of_app in Hc as [Hc|Hc]; [by apply Hbest'|].
          apply list_elem_of_singleton in Hc as ->. congruence. }
        { intros Hall. rewrite (Hall current) in Hcur; [done|].
          apply elem_of_app; by left. }
    + assert (∀ c, c ∈ seen → truthy (chunk_name c) = false) as Hfalsy.
      { intros c Hc. destruct (truthy (chunk_name c)) eqn:Ht; [|done].
        destruct (Hbest c Hc Ht) as [Habs _]. congruence. }
      exists chunk. split_and!; [done|apply elem_of_app; right; left| |].
      * intros c Hc Ht. apply elem_of_app in Hc as [Hc|Hc].
        { rewrite (Hfalsy c Hc) in Ht. done. }
        apply list_elem_of_singleton in Hc as ->. split; [done|apply notWorse_refl].
      * intros _. apply last_snoc.
Qed.

Lemma reuseInv_fold {G : Type} `{GraphOps G} (g : G) (item : ChunksInfoItem)
    (chunks : list Chunk) :
  ∀ r seen,
    reuseInv item r seen →
    reuseInv item (foldl (reuseBody g item) r chunks)
      (seen ++ filter (λ chunk, matchesExactly g item chunk = true) chunks).
Proof.
  induction chunks as [|chunk chunks IH]; intros r seen Hinv; simpl.
  - by rewrite app_nil_r.
  - destruct (matchesExactly g item chunk) eqn:Hmatch.
    + rewrite filter_cons_True by done.
      replace (seen ++ chunk :: filter _ chunks)
        with ((seen ++ [chunk]) ++
              filter (λ chunk, matchesExactly g item chunk = true) chunks)
        by (by rewrite <- app_assoc).
      apply IH. by apply reuseInv_step.
    + rewrite filter_cons_False by (by rewrite Hmatch).
      rewrite reuseBody_skip by done. by apply IH.
Qed.

Lemma matchesExactly_spec {G : Type} `{GraphOps G} (g : G)
    (item : ChunksInfoItem) (chunk : Chunk) :
  matchesExactly g item chunk = true ↔
  getNumberOfChunkModules g chunk = setSize (info_modules item)
  ∧ getNumberOfEntryModules g chunk ≤ 0
  ∧ ∀ module, module ∈ info_modules item → isModuleInChunk g module chunk = true.
Proof.
  unfold matchesExactly. rewrite !andb_true_iff, negb_true_iff, Z.eqb_eq,
    Z.ltb_ge, forallb_forall.
  split.
  - intros [[Hcount Hentry] Hall]. split_and!; [done|done|].
    intros module Hin. apply Hall. by apply list_elem_of_In.
  - intros (Hcount & Hentry & Hall). split_and!; [done|done|].
    intros module Hin. apply Hall. by apply list_elem_of_In.
Qed.

(** C4, as amended: with reuse allowed, the loop considers the chunks of the
    entry whose number of modules equals that of the entry, which have no
    entry module and which contain every module of the entry.  When there is
    one, the entry is marked reused and its resolved name is cleared; the
    chunk taken is a named one whenever a matching chunk is named, and then
    one with the shortest name and, among those, the smallest name; when no
    matching chunk is named it is the last matching chunk in iteration
    order.  Without a matching chunk, or without reuse allowed, nothing is
    reused and the name is kept. *)
Theorem reuse_prefers_named_chunk {G : Type} `{GraphOps G} (g : G)
    (item : ChunksInfoItem) :
  (∀ chunk,
     matchesExactly g item chunk = true ↔
     getNumberOfChunkModules g chunk = setSize (info_modules item)
     ∧ getNumberOfEntryModules g chunk ≤ 0
     ∧ ∀ module, module ∈ info_modules item →
         isModuleInChunk g module chunk = true)
  ∧ (cg_reuseExistingChunk (info_cacheGroup item) = false
     ∨ filter (λ chunk, matchesExactly g item chunk = true) (info_chunks item) = [] →
     reuseDecision g item
     = {| newChunk := None; chunkName := info_name item; isReused := false |})
  ∧ (cg_reuseExistingChunk (info_cacheGroup item) = true →
     filter (λ chunk, matchesExactly g item chunk = true) (info_chunks item) ≠ [] →
     isReused (reuseDecision g item) = true
     ∧ chunkName (reuseDecision g item) = None
     ∧ ∃ chosen,
         newChunk (reuseDecision g item) = Some chosen
         ∧ chosen ∈ info_chunks item
         ∧ matchesExactly g item chosen = true
         ∧ (∀ c, c ∈ info_chunks item → matchesExactly g item c = true →
              truthy (chunk_name c) = true →
              truthy (chunk_name chosen) = true ∧ notWorse chosen c)
         ∧ ((∀ c, c ∈ info_chunks item → matchesExactly g item c = true →
               truthy (chunk_name c) = false) →
              last (filter (λ chunk, matchesExactly g item chunk = true)
                      (info_chunks item)) = Some chosen)).
Proof.
  split; [apply matchesExactly_spec|].
  pose proof (reuseInv_fold g item (info_chunks item)
                {| newChunk := None; chunkName := info_name item;
                   isReused := false |} []) as Hfold.
  simpl in Hfold. destruct Hfold as [Hnone Hsome]; [by split|].
  unfold reuseDecision. split.
  - intros [Hoff|Hempty].
    + by rewrite Hoff.
    + destruct (cg_reuseExistingChunk (info_cacheGroup item)); [|done].
      by apply Hnone.
  - intros Hon Hmatching. rewrite Hon.
    destruct (Hsome Hmatching)
      as (Hreused & Hname & chosen & Hnew & Hin & Hbest & Hlast).
    split; [done|]. split; [done|]. exists chosen.
    apply list_elem_of_filter in Hin as [Hmatch Hin].
    split_and!; try done.
    + intros c Hc Hm Ht. apply Hbest; [|done]. by apply list_elem_of_filter.
    + intros Hall. apply Hlast. intros c Hc.
      apply list_elem_of_filter in Hc as [Hm Hc]. by apply Hall.
Qed.

Lemma reuse_prefers_named_chunk_witness :
  isReused (reuseDecision reuseGraph reuseItem) = true
  ∧ chunkName (reuseDecision reuseGraph reuseItem) = None
  ∧ ∃ chosen, newChunk (reuseDecision reuseGraph reuseItem) = Some chosen
      ∧ matchesExactly reuseGraph reuseItem chosen = true
      ∧ truthy (chunk_name chosen) = true.
Proof.
  destruct (reuse_prefers_named_chunk reuseGraph reuseItem) as (_ & _ & Hreuse).
  destruct Hreuse as (Hreused & Hname & chosen & Hnew & Hin & Hmatch & Hbest & _).
  - reflexivity.
  - vm_compute. discriminate.
  - split; [done|]. split; [done|]. exists chosen. split_and!; [done|done|].
    apply (Hbest chunkB).
    + apply (bool_decide_unpack _). vm_compute. exact I.
    + vm_compute. reflexivity.
    + reflexivity.
Defined.

(** C4 as stated fails: the unnamed chunk C and the named chunk B both match
    the entry exactly, and the chunk taken for reuse is B, not the one
    without a name. *)
Lemma reuse_prefers_no_name_counterexample :
  (chunkC ∈ info_chunks reuseItem
   ∧ matchesExactly reuseGraph reuseItem chunkC = true
   ∧ chunk_name chunkC = None)
  ∧ newChunk (reuseDecision reuseGraph reuseItem) = Some chunkB
  ∧ chunk_name chunkB = Some "B"
  ∧ ¬ (∃ chosen, newChunk (reuseDecision reuseGraph reuseItem) = Some chosen
         ∧ chunk_name chosen = None).
Proof.
  assert (newChunk (reuseDecision reuseGraph reuseItem) = Some chunkB) as Hnew
    by (vm_compute; reflexivity).
  split_and!.
  - apply (bool_decide_unpack _). vm_compute. exact I.
  - vm_compute. reflexivity.
  - reflexivity.
  - exact Hnew.
  - reflexivity.
  - intros (chosen & Hchosen & Hnone). rewrite Hnew in Hchosen.
    injection Hchosen as <-. discriminate.
Qed.

(** ** Chunk sets by count and combinations *)

Lemma bucketsOf_step (sets : list (list Chunk)) (chunksSet : list Chunk)
    (chunkSetsByCount : list (Z * list (list Chunk))) :
  bucketsOf sets chunkSetsByCount →
  bucketsOf (sets ++ [chunksSet])
    match mapGet (setSize chunksSet) chunkSetsByCount with
    | None => mapSet (setSize chunksSet) [chunksSet] chunkSetsByCount
    | Some array =>
        mapSet (setSize chunksSet) (array ++ [chunksSet]) chunkSetsByCount
    end.
Proof.
  intros (Hnodup & Hbuckets & Hall).
  assert (∀ array',
    (∀ set, set ∈ array' ↔
       set ∈ sets ++ [chunksSet] ∧ setSize set = setSize chunksSet) →
    bucketsOf (sets ++ [chunksSet])
      (mapSet (setSize chunksSet) array' chunkSetsByCount)) as Hset.
  { intros array' Harray. split_and!.
    - by apply NoDup_mapKeys_mapSet.
    - intros count array. rewrite mapGet_mapSet.
      destruct (decide (setSize chunksSet = count)) as [<-|Hne].
      + intros [= <-]. apply Harray.
      + intros Hget set. rewrite (Hbuckets count array Hget set).
        rewrite elem_of_app, list_elem_of_singleton. split.
        * intros [? ?]. split; [by left|done].
        * intros [[?| ->] ?]; [done|]. congruence.
    - intros set Hin. rewrite mapGet_mapSet.
      destruct (decide (setSize chunksSet = setSize set)); [by eexists|].
      apply elem_of_app in Hin as [Hin|Hin]; [by apply Hall|].
      apply list_elem_of_singleton in Hin as ->. done. }
  destruct (mapGet (setSize chunksSet) chunkSetsByCount) as [array|] eqn:Hget.
  - apply Hset. intros set.
    rewrite !elem_of_app, !list_elem_of_singleton, (Hbuckets _ _ Hget set).
    split.
    + intros [[? ?]| ->]; split; auto.
    + intros [[?| ->] ?]; auto.
  - apply Hset. intros set.
    rewrite elem_of_app, !list_elem_of_singleton. split.
    + intros ->. split; auto.
    + intros [[Hin| ->] Hsize]; [|done].
      destruct (Hall set Hin) as [array Harray]. congruence.
Qed.

Lemma bucketsOf_makeChunkSetsByCount (chunkSetsInGraph : list (string * list Chunk)) :
  bucketsOf (mapValues chunkSetsInGraph) (makeChunkSetsByCount chunkSetsInGraph).
Proof.
  unfold makeChunkSetsByCount. generalize (mapValues chunkSetsInGraph).
  intros sets. induction sets as [|chunksSet sets IH] using rev_ind.
  - split_and!; simpl.
    + apply NoDup_nil_2.
    + done.
    + intros set Hin. inversion Hin.
  - rewrite foldl_app. simpl. by apply bucketsOf_step.
Qed.

Lemma isSubset_spec (bigSet smallSet : list Chunk) :
  isSubset bigSet smallSet = true ↔ smallSet ⊆ bigSet.
Proof.
  unfold isSubset. rewrite forallb_forall. split.
  - intros Hall x Hx. apply setHas_true, Hall. by apply list_elem_of_In.
  - intros Hsub x Hx. apply setHas_true, Hsub. by apply list_elem_of_In.
Qed.

Lemma flat_map_guarded {A B} (P : A → bool) (f : A → list B) (l : list A) :
  flat_map (λ x, if P x then f x else []) l
  = flat_map f (filter (λ x, P x = true) l).
Proof.
  induction l as [|x l IH]; simpl; [done|].
  destruct (P x) eqn:HP.
  - rewrite filter_cons_True by done. simpl. by rewrite IH.
  - rewrite filter_cons_False by (by rewrite HP). done.
Qed.

(** C7, as amended: for a registered key whose chunk set has more than one
    chunk, the combinations are that set followed by exactly the registered
    sets with fewer chunks that are subsets of it, taken from the buckets of
    smaller count only; for a chunk set with at most one chunk the
    combinations are that set alone.  No other set with as many or more
    chunks is ever included. *)
Theorem getCombinations_correct (chunkSetsInGraph : list (string * list Chunk))
    (key : string) (chunksSet : list Chunk) :
  mapGet key chunkSetsInGraph = Some chunksSet →
  ∃ smaller,
    getCombinations chunkSetsInGraph (makeChunkSetsByCount chunkSetsInGraph) key
    = Ok (chunksSet :: smaller)
    ∧ (setSize chunksSet ≤ 1 → smaller = [])
    ∧ (1 < setSize chunksSet →
       ∀ set, set ∈ smaller ↔
         set ∈ mapValues chunkSetsInGraph
         ∧ setSize set < setSize chunksSet
         ∧ set ⊆ chunksSet)
    ∧ (∀ set, set ∈ smaller → setSize set < setSize chunksSet)
    ∧ (1 < setSize chunksSet →
       smaller
       = flat_map (λ bucket, filter (λ set, isSubset chunksSet set = true) bucket.2)
           (filter (λ bucket, (bucket.1 <? setSize chunksSet) = true)
              (makeChunkSetsByCount chunkSetsInGraph))).
Proof.
  intros Hget. unfold getCombinations. rewrite Hget.
  destruct (bucketsOf_makeChunkSetsByCount chunkSetsInGraph)
    as (Hnodup & Hbuckets & Hall).
  set (byCount := makeChunkSetsByCount chunkSetsInGraph) in *.
  destruct (Z.ltb_spec 1 (setSize chunksSet)) as [Hmany|Hfew].
  - assert (∀ set,
      set ∈ flat_map (λ '(count, setArray),
               if count <? setSize chunksSet
               then filter (λ set, isSubset chunksSet set = true) setArray
               else []) byCount
      ↔ set ∈ mapValues chunkSetsInGraph
        ∧ setSize set < setSize chunksSet ∧ set ⊆ chunksSet) as Hmem.
    { intros set. rewrite list_elem_of_In, in_flat_map. split.
      - intros ([count array] & Hin & Hset).
        apply list_elem_of_In in Hin, Hset.
        destruct (Z.ltb_spec count (setSize chunksSet)); [|inversion Hset].
        apply list_elem_of_filter in Hset as [Hsub Hset].
        apply (elem_of_mapGet _ _ _ Hnodup) in Hin.
        apply (Hbuckets _ _ Hin) in Hset as [Hreg Hsize].
        split_and!; [done|lia|by apply isSubset_spec].
      - intros (Hreg & Hsize & Hsub).
        destruct (Hall set Hreg) as [array Harray].
        exists (setSize set, array). split.
        + apply list_elem_of_In. by apply mapGet_elem_of.
        + apply list_elem_of_In.
          destruct (Z.ltb_spec (setSize set) (setSize chunksSet)); [|lia].
          apply list_elem_of_filter. split; [by apply isSubset_spec|].
          by apply (Hbuckets _ _ Harray). }
    eexists. split; [reflexivity|]. split_and!.
    + lia.
    + intros _. exact Hmem.
    + intros set Hin. by apply Hmem in Hin as (_ & ? & _).
    + intros _.
      rewrite <- (flat_map_guarded (λ bucket, bucket.1 <? setSize chunksSet)
                    (λ bucket, filter (λ set, isSubset chunksSet set = true)
                                 bucket.2)).
      apply flat_map_ext. by intros [count array].
  - exists []. split_and!; try done.
    + lia.
    + intros set Hin. inversion Hin.
    + lia.
Qed.

Lemma getCombinations_correct_witness :
  ∃ smaller,
    getCombinations overlapChunkSets (makeChunkSetsByCount overlapChunkSets) "1,2"
    = Ok ([chunkA; chunkB] :: smaller)
    ∧ [chunkA] ∈ smaller.
Proof.
  destruct (getCombinations_correct overlapChunkSets "1,2" [chunkA; chunkB])
    as (smaller & Hcombs & _ & Hmem & _).
  - vm_compute. reflexivity.
  - exists smaller. split; [exact Hcombs|].
    apply Hmem; [reflexivity|]. split_and!.
    + apply (bool_decide_unpack _). vm_compute. exact I.
    + reflexivity.
    + apply isSubset_spec. vm_compute. reflexivity.
Defined.

(** C7 as stated fails: with a module that is in no chunk, the empty chunk
    set is registered; it has fewer chunks than the set {A} and is a subset
    of it, but the combinations of {A} are {A} alone. *)
Lemma getCombinations_singleton_counterexample :
  orphanChunkSets = [("", []); ("1", [chunkA])]
  ∧ getCombinations orphanChunkSets (makeChunkSetsByCount orphanChunkSets) "1"
    = Ok [[chunkA]]
  ∧ ([] : list Chunk) ∈ mapValues orphanChunkSets
  ∧ setSize ([] : list Chunk) < setSize [chunkA]
  ∧ isSubset [chunkA] [] = true
  ∧ ([] : list Chunk) ∉ [[chunkA]].
Proof.
  split_and!.
  - vm_compute. reflexivity.
  - vm_compute. reflexivity.
  - apply (bool_decide_unpack _). vm_compute. exact I.
  - reflexivity.
  - reflexivity.
  - intros Hin. apply list_elem_of_singleton in Hin. discriminate.
Qed.

Lemma takeBestEntry_nonempty (m : list (string * ChunksInfoItem)) item rest :
  takeBestEntry m = Some (item, rest) → m ≠ [].
Proof. by intros Htake ->. Qed.

(** C8: when the cache group of the entry being materialized has a filename
    and the target chunk is not exclusively initial, the round throws, the
    message ending in the key of the cache group, and the selection loop
    stops with that error; when the target chunk is exclusively initial the
    check raises nothing and records the filename on the chunk, and without
    a filename the check does nothing. *)
Theorem filename_on_non_initial_chunk_throws {G : Type} `{GraphOps G}
    (indexMap : list (Chunk * Z)) :
  (∀ key, ∃ prefix, filenameMessage key = prefix +:+ "(cache group: " +:+ key +:+ ")")
  ∧ (∀ item newChunk (g : G) filename,
       cg_filename (info_cacheGroup item) = Some filename → filename ≠ "" →
       (isOnlyInitial g newChunk = false →
        checkFilename item newChunk g
        = Throw (filenameMessage (cg_key (info_cacheGroup item))))
       ∧ (isOnlyInitial g newChunk = true →
          checkFilename item newChunk g
          = Ok (setFilenameTemplate newChunk filename g)))
  ∧ (∀ item newChunk (g : G),
       truthy (cg_filename (info_cacheGroup item)) = false →
       checkFilename item newChunk g = Ok g)
  ∧ (∀ (st : PassState) item rest newChunk g filename fuel,
       takeBestEntry (chunksInfoMap st) = Some (item, rest) →
       (setSize (usedChunksOf item (reuseDecision (graph st) item)) =? 0)
       && negb (isReused (reuseDecision (graph st) item)) = false →
       requestBudget indexMap item (reuseDecision (graph st) item)
         (usedChunksOf item (reuseDecision (graph st) item))
         (withChunksInfoMap rest st) = None →
       prepareChunk item (reuseDecision (graph st) item)
         (usedChunksOf item (reuseDecision (graph st) item)) (graph st)
       = Some (newChunk, g) →
       cg_filename (info_cacheGroup item) = Some filename → filename ≠ "" →
       (isOnlyInitial g newChunk = false →
        selectionStep indexMap st
        = Throw (filenameMessage (cg_key (info_cacheGroup item)))
        ∧ selectionLoop indexMap (S fuel) st
          = Throw (filenameMessage (cg_key (info_cacheGroup item))))
       ∧ (isOnlyInitial g newChunk = true →
          ∃ st', selectionStep indexMap st = Ok st')).
Proof.
  assert (∀ item newChunk (g : G) filename,
    cg_filename (info_cacheGroup item) = Some filename → filename ≠ "" →
    (isOnlyInitial g newChunk = false →
     checkFilename item newChunk g
     = Throw (filenameMessage (cg_key (info_cacheGroup item))))
    ∧ (isOnlyInitial g newChunk = true →
       checkFilename item newChunk g
       = Ok (setFilenameTemplate newChunk filename g))) as Hcheck.
  { intros item newChunk g filename Hfile Hne. unfold checkFilename.
    rewrite Hfile. simpl. rewrite bool_decide_eq_false_2 by done. simpl.
    split; by intros ->. }
  split_and!.
  - intros key. by exists filenameMessageHead.
  - exact Hcheck.
  - intros item newChunk g. unfold checkFilename.
    destruct (cg_filename (info_cacheGroup item)) as [filename|]; [|done].
    by intros ->.
  - intros st item rest newChunk g filename fuel Htake Hskip Hbudget Hprepare
      Hfile Hne.
    pose proof (selectionStep_materialize indexMap st item rest newChunk g
                  Htake Hskip Hbudget Hprepare) as Hstep.
    destruct (Hcheck item newChunk g filename Hfile Hne) as [Hthrow Hok].
    split.
    + intros Hinitial. rewrite (Hthrow Hinitial) in Hstep.
      split; [exact Hstep|].
      apply selectionLoop_throw; [|exact Hstep].
      by eapply takeBestEntry_nonempty.
    + intros Hinitial. rewrite (Hok Hinitial) in Hstep. eexists. exact Hstep.
Qed.

Lemma filename_on_non_initial_chunk_throws_witness :
  selectionStep (makeIndexMap [chunkA; chunkB]) filenameState
  = Throw (filenameMessage "vendors")
  ∧ selectionLoop (makeIndexMap [chunkA; chunkB]) 1 filenameState
    = Throw (filenameMessage "vendors").
Proof.
  destruct (filename_on_non_initial_chunk_throws (makeIndexMap [chunkA; chunkB]))
    as (_ & _ & _ & Hstep).
  edestruct (λ item rest newChunk g,
               Hstep filenameState item rest newChunk g "vendors.js" 0%nat)
    as [Hthrow _].
  - vm_compute. reflexivity.
  - vm_compute. reflexivity.
  - vm_compute. reflexivity.
  - vm_compute. reflexivity.
  - reflexivity.
  - discriminate.
  - apply Hthrow. vm_compute. reflexivity.
Defined.

(** ** Name conflicts and size warnings *)

Section Conflicts.
Context {G : Type} `{GraphOps G}.
Variable indexMap : list (Chunk * Z).


Lemma validateName_graph cacheGroup name (st : PassState) :
  graph (validateName cacheGroup name st) = graph st.
Proof.
  unfold validateName. destruct (setHas name (alreadyValidatedNames st)); [done|].
  simpl. by destruct (namedChunksHas (graph st) name).
Qed.






End Conflicts.



Section ConflictsReported.
Context {G : Type} `{GraphOps G}.





End ConflictsReported.




(** ** Request budget *)

Lemma foldl_setAdd_elem_of (init l : list Chunk) chunk :
  chunk ∈ foldl (λ chunks chunk, setAdd chunk chunks) init l
  ↔ chunk ∈ init ∨ chunk ∈ l.
Proof.
  revert init. induction l as [|x l IH]; intros init; simpl.
  - split; [by left|]. intros [?|Hin]; [done|inversion Hin].
  - rewrite IH, elem_of_setAdd, elem_of_cons. tauto.
Qed.

Section Reinsertion.
Context {G : Type} `{GraphOps G}.
Variables (cacheGroup : CacheGroup) (getName : NameFn).
Variables (selectedChunks : list Chunk) (selectedChunksKey : string).
Variable rest : list (string * ChunksInfoItem).
Hypothesis HgetName : cg_getName cacheGroup = Some getName.
Hypothesis Hmin : cg_minChunks cacheGroup ≤ setSize selectedChunks.

Lemma addModuleToChunksInfoMap_reinserted processed module (st : PassState) :
  reinserted cacheGroup getName selectedChunks selectedChunksKey rest processed
    (chunksInfoMap st) →
  ∃ st',
    addModuleToChunksInfoMap cacheGroup selectedChunks selectedChunksKey module st
      = Ok st'
    ∧ graph st' = graph st
    ∧ maxSizeQueueMap st' = maxSizeQueueMap st
    ∧ reinserted cacheGroup getName selectedChunks selectedChunksKey rest
        (processed ++ [module]) (chunksInfoMap st').
Proof.
  intros [Hfresh Hall]. unfold addModuleToChunksInfoMap.
  destruct (Z.ltb_spec (setSize selectedChunks) (cg_minChunks cacheGroup)); [lia|].
  rewrite HgetName. eexists. split; [reflexivity|]. simpl.
  rewrite validateName_graph, chunksInfoMap_validateName.
  split; [done|]. split.
  { unfold validateName. destruct (setHas _ _); [done|]. simpl.
    by destruct (namedChunksHas _ _). }
  set (name := getName module selectedChunks (cg_key cacheGroup)).
  set (key := infoKey cacheGroup name selectedChunksKey).
  split.
  - intros k info Hrest. rewrite mapGet_mapSet.
    destruct (decide (key = k)) as [<-|Hne].
    + intros [= <-]. simpl.
      destruct (mapGet key (chunksInfoMap st)) as [info0|] eqn:Hget.
      * destruct (Hfresh key info0 Hrest Hget)
          as (Hcg & (module' & Hin & Hkey & Hname) & Hchunks & Hkeys & Hmods).
        split_and!.
        -- done.
        -- exists module'. split_and!; [apply elem_of_app; by left|done|done].
        -- intros chunk.
           rewrite (proj2 (setHas_true selectedChunksKey (info_chunksKeys info0)))
             by done.
           simpl. apply Hchunks.
        -- by rewrite (proj2 (setHas_true selectedChunksKey
                                (info_chunksKeys info0))).
        -- intros module0. rewrite elem_of_setAdd, elem_of_app,
             list_elem_of_singleton. intros [->|?]; auto.
      * simpl. split_and!.
        -- done.
        -- exists module. split_and!; [apply elem_of_app; right; left|done|done].
        -- intros chunk. rewrite foldl_setAdd_elem_of. split; [|by right].
           intros [Hnil|?]; [inversion Hnil|done].
        -- apply elem_of_setAdd. by left.
        -- intros module0. rewrite elem_of_setAdd, elem_of_app,
             list_elem_of_singleton. intros [->|Hnil]; [auto|inversion Hnil].
    + intros Hget. destruct (Hfresh k info Hrest Hget)
        as (Hcg & (module' & Hin & Hkey & Hname) & Hchunks & Hkeys & Hmods).
      split_and!; try done.
      * exists module'. split_and!; [apply elem_of_app; by left|done|done].
      * intros module0 Hin0. apply elem_of_app. left. by apply Hmods.
  - intros module0 Hin0. rewrite mapGet_mapSet.
    apply elem_of_app in Hin0 as [Hin0|Hin0].
    + destruct (Hall module0 Hin0) as (info & Hget & Hmod).
      destruct (decide (key = _)) as [Heq|Hne]; [|by exists info].
      eexists. split; [reflexivity|]. simpl. rewrite Heq, Hget.
      apply elem_of_setAdd. by right.
    + apply list_elem_of_singleton in Hin0 as ->.
      rewrite decide_True by done. eexists. split; [reflexivity|].
      simpl. apply elem_of_setAdd. by left.
Qed.

Lemma addModulesToChunksInfoMap_reinserted modules :
  ∀ processed (st : PassState),
    reinserted cacheGroup getName selectedChunks selectedChunksKey rest processed
      (chunksInfoMap st) →
    ∃ st',
      addModulesToChunksInfoMap cacheGroup selectedChunks selectedChunksKey
        modules st = Ok st'
      ∧ graph st' = graph st
      ∧ maxSizeQueueMap st' = maxSizeQueueMap st
      ∧ reinserted cacheGroup getName selectedChunks selectedChunksKey rest
          (processed ++ modules) (chunksInfoMap st').
Proof.
  induction modules as [|module modules IH]; intros processed st Hst; simpl.
  - exists st. by rewrite app_nil_r.
  - destruct (addModuleToChunksInfoMap_reinserted processed module st Hst)
      as (st1 & -> & Hgraph1 & Hqueue1 & Hst1). simpl.
    destruct (IH (processed ++ [module]) st1 Hst1)
      as (st' & Hadd & Hgraph & Hqueue & Hst').
    exists st'. rewrite <- app_assoc in Hst'. split_and!; try done; congruence.
Qed.

Lemma reinserted_start :
  reinserted cacheGroup getName selectedChunks selectedChunksKey rest [] rest.
Proof.
  split.
  - intros k info Hnone Hsome. congruence.
  - intros module Hin. inversion Hin.
Qed.
End Reinsertion.

(** C5, as amended: for an entry that reuses no chunk and whose cache group
    has a finite request limit, when the request-budget check leaves fewer
    chunks than [usedChunks], each such chunk being a used chunk within its
    limit, and their number still reaches minChunks, every module of the
    entry is passed again to [addModuleToChunksInfoMap] with the chunks left:
    it ends up in the pending entry under the cache-group key and the name
    the name function computes for these chunks, and an entry created that
    way carries that recomputed name and spans exactly the chunks left; the
    round ends without touching the chunk graph.  When fewer than minChunks
    chunks are left, the entry is dropped and nothing else changes. *)
Theorem request_budget_reinserts {G : Type} `{GraphOps G}
    (indexMap : list (Chunk * Z)) (st : PassState) (item : ChunksInfoItem)
    (rest : list (string * ChunksInfoItem)) (getName : NameFn) :
  takeBestEntry (chunksInfoMap st) = Some (item, rest) →
  cg_getName (info_cacheGroup item) = Some getName →
  isReused (reuseDecision (graph st) item) = false →
  isFinite (cg_maxInitialRequests (info_cacheGroup item))
  || isFinite (cg_maxAsyncRequests (info_cacheGroup item)) = true →
  setSize (chunksInLimitAt (graph st) item) < setSize (usedChunksAt (graph st) item) →
  (∀ chunk, chunk ∈ chunksInLimitAt (graph st) item ↔
     chunk ∈ usedChunksAt (graph st) item
     ∧ (isFinite (maxRequestsOf (graph st) (info_cacheGroup item) chunk) = false
        ∨ ltNum (getRequests (graph st) chunk)
            (maxRequestsOf (graph st) (info_cacheGroup item) chunk) = true))
  ∧ (cg_minChunks (info_cacheGroup item) ≤ setSize (chunksInLimitAt (graph st) item) →
     ∃ st',
       selectionStep indexMap st = Ok st'
       ∧ graph st' = graph st
       ∧ maxSizeQueueMap st' = maxSizeQueueMap st
       ∧ reinserted (info_cacheGroup item) getName
           (chunksInLimitAt (graph st) item)
           (getKey indexMap (chunksInLimitAt (graph st) item))
           rest (info_modules item) (chunksInfoMap st'))
  ∧ (setSize (chunksInLimitAt (graph st) item) < cg_minChunks (info_cacheGroup item) →
     selectionStep indexMap st = Ok (withChunksInfoMap rest st)).
Proof.
  intros Htake HgetName Hnoreuse Hfinite Hfewer.
  unfold chunksInLimitAt, usedChunksAt in *.
  set (r := reuseDecision (graph st) item) in *.
  set (used := usedChunksOf item r) in *.
  assert ((setSize used =? 0) && negb (isReused r) = false) as Hskip.
  { apply andb_false_iff. left. apply Z.eqb_neq.
    unfold setSize in *. lia. }
  assert (selectionStep indexMap st
          = if cg_minChunks (info_cacheGroup item)
               <=? setSize (chunksInLimitOf (graph st) item r used)
            then addModulesToChunksInfoMap (info_cacheGroup item)
                   (chunksInLimitOf (graph st) item r used)
                   (getKey indexMap (chunksInLimitOf (graph st) item r used))
                   (info_modules item) (withChunksInfoMap rest st)
            else Ok (withChunksInfoMap rest st)) as Hstep.
  { unfold selectionStep. rewrite Htake. simpl. fold r. fold used.
    rewrite Hskip. unfold requestBudget. simpl. rewrite Hfinite.
    rewrite (proj2 (Z.ltb_lt _ _) Hfewer).
    by destruct (cg_minChunks (info_cacheGroup item) <=? _). }
  split_and!.
  - intros chunk. unfold chunksInLimitOf. rewrite Hnoreuse.
    rewrite list_elem_of_filter, orb_true_iff, negb_true_iff. tauto.
  - intros Henough. rewrite Hstep, (proj2 (Z.leb_le _ _) Henough).
    destruct (addModulesToChunksInfoMap_reinserted (info_cacheGroup item) getName
                (chunksInLimitOf (graph st) item r used)
                (getKey indexMap (chunksInLimitOf (graph st) item r used))
                rest HgetName Henough (info_modules item) []
                (withChunksInfoMap rest st))
      as (st' & Hadd & Hgraph & Hqueue & Hre).
    { apply reinserted_start. }
    exists st'. split_and!; done.
  - intros Htoofew. rewrite Hstep.
    by rewrite (proj2 (Z.leb_gt _ _) Htoofew).
Qed.

Lemma request_budget_reinserts_witness :
  ∃ st',
    selectionStep budgetIndexMap budgetState = Ok st'
    ∧ graph st' = graph budgetState
    ∧ reinserted budgetCacheGroup (λ _ _ _, Some "vendors")
        [chunkB; chunkC] "2,3" [] [jsModule 1 "./a.js" 10] (chunksInfoMap st').
Proof.
  edestruct (λ item rest,
               request_budget_reinserts budgetIndexMap budgetState item rest
                 (λ _ _ _, Some "vendors"))
    as (_ & Hre & _).
  - vm_compute. reflexivity.
  - reflexivity.
  - vm_compute. reflexivity.
  - reflexivity.
  - vm_compute. reflexivity.
  - destruct Hre as (st' & Hstep & Hgraph & _ & Hre).
    + vm_compute. discriminate.
    + exists st'. split_and!; [exact Hstep|exact Hgraph|exact Hre].
Defined.

(** C5 as stated fails: the check removes chunk A, the chunks B and C that
    are left still reach minChunks, and the entry put back into the pending
    map for them carries the name "vendors" computed by the name function;
    its name is not cleared. *)
Lemma reinserted_name_cleared_counterexample :
  usedChunksAt (graph budgetState)
    (exampleItem budgetCacheGroup (Some "vendors")
       [jsModule 1 "./a.js" 10] [chunkA; chunkB; chunkC])
  = [chunkA; chunkB; chunkC]
  ∧ chunksInLimitAt (graph budgetState)
      (exampleItem budgetCacheGroup (Some "vendors")
         [jsModule 1 "./a.js" 10] [chunkA; chunkB; chunkC])
    = [chunkB; chunkC]
  ∧ ∃ st' info,
      selectionStep budgetIndexMap budgetState = Ok st'
      ∧ graph st' = graph budgetState
      ∧ chunksInfoMap st' = [("vendors name:vendors", info)]
      ∧ info_chunks info = [chunkB; chunkC]
      ∧ info_modules info = [jsModule 1 "./a.js" 10]
      ∧ info_name info = Some "vendors"
      ∧ info_name info ≠ None.
Proof.
  split; [vm_compute; reflexivity|]. split; [vm_compute; reflexivity|].
  eexists. eexists. split; [vm_compute; reflexivity|].
  split_and!; try reflexivity. discriminate.
Qed.

(** ** The keys of the pending map stay distinct *)

Section DistinctKeys.
Context {G : Type} `{GraphOps G}.
Variable indexMap : list (Chunk * Z).

Lemma findBestEntry_NoDup keys best (m : list (string * ChunksInfoItem)) :
  NoDup (mapKeys m) → NoDup (mapKeys (findBestEntry keys best m).2).
Proof.
  revert best m. induction keys as [|key keys IH]; intros best m Hm; simpl; [done|].
  destruct best as [bestKey|]; [|by apply IH].
  destruct (mapGet bestKey m) as [bestEntry|]; [|by apply IH].
  destruct (mapGet key m) as [info|]; [|by apply IH].
  destruct (compareEntries bestEntry info) as [[res a'] b'].
  destruct (res <? 0); apply IH; by do 2 apply NoDup_mapKeys_mapSet.
Qed.

Lemma takeBestEntry_NoDup (m : list (string * ChunksInfoItem)) item rest :
  NoDup (mapKeys m) → takeBestEntry m = Some (item, rest) → NoDup (mapKeys rest).
Proof.
  intros Hm. unfold takeBestEntry.
  pose proof (findBestEntry_NoDup (mapKeys m) None m Hm) as Hfound.
  destruct (findBestEntry (mapKeys m) None m) as [[key|] m1]; simpl in *; [|done].
  destruct (mapGet key m1); [|done].
  intros [= <- <-]. by apply NoDup_mapKeys_mapDelete.
Qed.

Lemma retract_NoDup item (m : list (string * ChunksInfoItem)) :
  NoDup (mapKeys m) → NoDup (mapKeys (retract item m)).
Proof.
  unfold retract. generalize (mapKeys m) at 2. intros keys. revert m.
  induction keys as [|key keys IH]; intros m Hm; simpl; [done|].
  apply IH. destruct (mapGet key m) as [info|]; [|done].
  unfold retractEntry.
  repeat (match goal with
          | |- context [if ?c then _ else _] => destruct c
          | |- context [let '(_, _) := ?p in _] => destruct p as [[? ?] ?]
          end);
    auto using NoDup_mapKeys_mapSet, NoDup_mapKeys_mapDelete.
Qed.

Lemma addModuleToChunksInfoMap_NoDup cacheGroup selectedChunks selectedChunksKey
    module (st st' : PassState) :
  NoDup (mapKeys (chunksInfoMap st)) →
  addModuleToChunksInfoMap cacheGroup selectedChunks selectedChunksKey module st
    = Ok st' →
  NoDup (mapKeys (chunksInfoMap st')).
Proof.
  intros Hst. unfold addModuleToChunksInfoMap.
  destruct (setSize selectedChunks <? cg_minChunks cacheGroup); [by intros [= <-]|].
  destruct (cg_getName cacheGroup) as [getName|]; [|done].
  intros [= <-]. simpl. rewrite chunksInfoMap_validateName.
  by apply NoDup_mapKeys_mapSet.
Qed.

Lemma addModulesToChunksInfoMap_NoDup cacheGroup selectedChunks
    selectedChunksKey modules (st st' : PassState) :
  NoDup (mapKeys (chunksInfoMap st)) →
  addModulesToChunksInfoMap cacheGroup selectedChunks selectedChunksKey modules st
    = Ok st' →
  NoDup (mapKeys (chunksInfoMap st')).
Proof.
  revert st. induction modules as [|module modules IH]; intros st Hst; simpl.
  - by intros [= <-].
  - destruct (addModuleToChunksInfoMap cacheGroup selectedChunks
                selectedChunksKey module st) as [st1|] eqn:Hadd; simpl; [|done].
    apply IH. by eapply addModuleToChunksInfoMap_NoDup.
Qed.

Lemma selectionStep_NoDup (st st' : PassState) :
  NoDup (mapKeys (chunksInfoMap st)) →
  selectionStep indexMap st = Ok st' →
  NoDup (mapKeys (chunksInfoMap st')).
Proof.
  intros Hst. unfold selectionStep.
  destruct (takeBestEntry (chunksInfoMap st)) as [[item m]|] eqn:Htake;
    [|by intros [= <-]].
  pose proof (takeBestEntry_NoDup _ _ _ Hst Htake) as Hm.
  match goal with |- context [if ?c then _ else _] => destruct c end;
    [by intros [= <-]|].
  destruct (requestBudget _ _ _ _ _) as [continue|] eqn:Hbudget.
  - intros ->. unfold requestBudget in Hbudget.
    repeat match type of Hbudget with
           | context [if ?c then _ else _] => destruct c
           end; try done.
    + injection Hbudget as Hadd.
      by eapply addModulesToChunksInfoMap_NoDup in Hadd.
    + by injection Hbudget as [= <-].
  - destruct (prepareChunk _ _ _ _) as [[newChunk g]|]; [|done].
    destruct (checkFilename item newChunk g) as [g'|]; simpl; [|done].
    intros [= <-]. simpl. by apply retract_NoDup.
Qed.
End DistinctKeys.

(** ** The example scenario *)

(** Two chunks A = {m1, m2, m3} and B = {m2, m3, m4}: the pass creates the
    chunk "shared" with m2 and m3 and leaves m1 in A and m4 in B. *)
Example scenario_shared_chunk :
  ∃ st,
    optimizeChunks exampleOptions (λ _, Some [scenarioSource]) [chunkA; chunkB]
      [jsModule 1 "m1" 10; jsModule 2 "m2" 10; jsModule 3 "m3" 10;
       jsModule 4 "m4" 10] 10 scenarioGraph = Ok st
    ∧ mem_chunkModules (graph st)
      = [(chunkA, [jsModule 1 "m1" 10]);
         (chunkB, [jsModule 4 "m4" 10]);
         ({| chunk_ref := 10; chunk_name := Some "shared" |},
          [jsModule 2 "m2" 10; jsModule 3 "m3" 10])]
    ∧ chunksInfoMap st = []
    ∧ errors st = [].
Proof.
  eexists. split; [vm_compute; reflexivity|]. by split_and!.
Qed.

(** * Further properties of the plugin *)

(** ** Size maps: merging, combining, totals *)

(** X1: [mergeSizes(value, defaultValue)] answers, under every key, the size
    the normalised [value] gives and otherwise the size the normalised
    [defaultValue] gives, also when [value] is [undefined]; a number as
    [value] overrides the key [javascript] alone. *)
Theorem mergeSizes_lookup :
  (∀ value defaultValue key,
     mergeSizes value defaultValue !! key
     = match normalizeSizes value !! key with
       | Some size => Some size
       | None => normalizeSizes defaultValue !! key
       end)
  ∧ (∀ n defaultValue key,
       mergeSizes (JsNumber n) defaultValue !! key
       = if decide (key = "javascript") then Some n
         else normalizeSizes defaultValue !! key).
Proof.
  assert (∀ value defaultValue key,
    mergeSizes value defaultValue !! key
    = match normalizeSizes value !! key with
      | Some size => Some size
      | None => normalizeSizes defaultValue !! key
      end) as Hlookup.
  { intros value defaultValue key.
    assert (∀ sizes : gmap string Z,
      assign (assign emptySizes (normalizeSizes defaultValue)) sizes !! key
      = match sizes !! key with
        | Some size => Some size
        | None => normalizeSizes defaultValue !! key
        end) as Hassign.
    { intros sizes. rewrite assign_empty_l. unfold assign.
      rewrite lookup_union. destruct (sizes !! key) as [size|]; simpl.
      - by destruct (normalizeSizes defaultValue !! key).
      - by destruct (normalizeSizes defaultValue !! key). }
    destruct value; try apply Hassign.
    simpl. unfold emptySizes. by rewrite lookup_empty. }
  split; [exact Hlookup|].
  intros n defaultValue key. rewrite Hlookup. simpl. unfold emptySizes.
  destruct (decide (key = "javascript")) as [->|Hne].
  - by rewrite lookup_insert_eq.
  - by rewrite lookup_insert_ne, lookup_empty.
Qed.

Lemma combineSizes_lookup (a b : gmap string Z) (combine : Z → Z → Z) key :
  combineSizes a b combine !! key
  = match a !! key, b !! key with
    | Some va, Some vb => Some (combine va vb)
    | Some va, None => Some va
    | None, Some vb => Some vb
    | None, None => None
    end.
Proof.
  unfold combineSizes. rewrite lookup_merge.
  by destruct (a !! key), (b !! key).
Qed.

(** X2: [combineSizes] keeps exactly the keys of its two arguments.  With
    [Math.max] every size of either argument is at most the combined size
    under its key, with [Math.min] at least; combining a map with itself by
    either gives the map back. *)
Theorem combineSizes_bounds (a b : gmap string Z) :
  (∀ combine, dom (combineSizes a b combine) = dom a ∪ dom b)
  ∧ (∀ key size, a !! key = Some size ∨ b !! key = Some size →
       ∃ combined, combineSizes a b Z.max !! key = Some combined ∧ size ≤ combined)
  ∧ (∀ key size, a !! key = Some size ∨ b !! key = Some size →
       ∃ combined, combineSizes a b Z.min !! key = Some combined ∧ combined ≤ size)
  ∧ combineSizes a a Z.max = a
  ∧ combineSizes a a Z.min = a.
Proof.
  split_and!.
  - intros combine. apply set_eq. intros key.
    rewrite elem_of_union, !elem_of_dom, combineSizes_lookup.
    unfold is_Some.
    destruct (a !! key), (b !! key); split;
      [eauto|eauto|eauto|eauto|eauto|eauto| |];
      [by intros [? ?]|by intros [[? ?]|[? ?]]].
  - intros key size. rewrite combineSizes_lookup.
    destruct (a !! key) as [va|], (b !! key) as [vb|];
      intros [[= <-]|[= <-]]; eexists; split; try reflexivity; lia.
  - intros key size. rewrite combineSizes_lookup.
    destruct (a !! key) as [va|], (b !! key) as [vb|];
      intros [[= <-]|[= <-]]; eexists; split; try reflexivity; lia.
  - apply map_eq. intros key. rewrite combineSizes_lookup.
    destruct (a !! key); [|done]. f_equal. lia.
  - apply map_eq. intros key. rewrite combineSizes_lookup.
    destruct (a !! key); [|done]. f_equal. lia.
Qed.



Lemma totalSize_empty : totalSize ∅ = 0.
Proof. unfold totalSize. by rewrite map_to_list_empty. Qed.




Lemma addSizes_lookup (module : Module) (sizes : gmap string Z) key :
  addSizes module sizes !! key
  = match module_sizes module !! key with
    | Some size => Some (default 0 (sizes !! key) + size)
    | None => sizes !! key
    end.
Proof.
  unfold addSizes.
  rewrite (foldl_sizes_lookup Z.add) by apply NoDup_fst_map_to_list.
  by rewrite list_to_map_to_list.
Qed.






(** X5: when every size of a module is non-negative and none of its source
    types is a property name of [Object.prototype], adding the module to
    sizes that satisfy a minSize threshold gives sizes that satisfy it
    too. *)
Theorem addSizes_keeps_minSize (module : Module) (sizes minSize : gmap string Z) :
  (∀ key size, module_sizes module !! key = Some size → 0 ≤ size) →
  (∀ key, is_Some (module_sizes module !! key) → key ∉ objectPrototypeNames) →
  checkMinSize sizes minSize = true →
  checkMinSize (addSizes module sizes) minSize = true.
Proof.
  intros Hnonneg Htypes. rewrite !checkMinSize_spec.
  intros Hcheck key minValue Hmin. specialize (Hcheck key minValue Hmin).
  rewrite addSizes_lookup.
  destruct (module_sizes module !! key) as [added|] eqn:Hadded; [|done].
  specialize (Hnonneg key added Hadded).
  destruct (sizes !! key) as [size|]; simpl; [lia|].
  destruct (Htypes key); [by eexists|done].
Qed.

Lemma addSizes_keeps_minSize_witness :
  checkMinSize (addSizes (jsModule 1 "./a.js" 10) (<["javascript" := 30]> ∅))
    (<["javascript" := 30]> ∅) = true.
Proof.
  apply addSizes_keeps_minSize.
  - intros key size Hlookup. unfold jsModule in Hlookup. simpl in Hlookup.
    destruct (decide (key = "javascript")) as [->|Hne].
    + rewrite lookup_insert_eq in Hlookup. injection Hlookup as <-. lia.
    + by rewrite lookup_insert_ne, lookup_empty in Hlookup.
  - intros key [size Hlookup]. unfold jsModule in Hlookup. simpl in Hlookup.
    destruct (decide (key = "javascript")) as [->|Hne].
    + apply (bool_decide_unpack _). vm_compute. exact I.
    + by rewrite lookup_insert_ne, lookup_empty in Hlookup.
  - vm_compute. reflexivity.
Defined.

(** ** The minSize filter, request counts and overlap *)

Lemma filterMinSize_loop_lookup keys (m : list (string * ChunksInfoItem)) k :
  NoDup keys →
  mapGet k
    (foldl (λ m key,
       match mapGet key m with
       | Some info =>
           if info_validateSize info
              && negb (checkMinSize (info_sizes info)
                         (cg_minSize (info_cacheGroup info)))
           then mapDelete key m else m
       | None => m
       end) m keys)
  = if bool_decide (k ∈ keys)
    then match mapGet k m with
         | Some info => if belowMinSize info then None else Some info
         | None => None
         end
    else mapGet k m.
Proof.
  intros Hnodup. revert m.
  induction Hnodup as [|x keys Hnotin Hnodup IH]; intros m; simpl; [done|].
  rewrite IH. unfold belowMinSize.
  destruct (decide (k = x)) as [->|Hne].
  - rewrite (bool_decide_eq_false_2 (x ∈ keys)) by done.
    rewrite bool_decide_eq_true_2 by left.
    destruct (mapGet x m) as [info|] eqn:Hx; [|done].
    destruct (info_validateSize info && _); [|done].
    apply mapGet_mapDelete_eq.
  - assert (mapGet k
              match mapGet x m with
              | Some info =>
                  if info_validateSize info
                     && negb (checkMinSize (info_sizes info)
                                (cg_minSize (info_cacheGroup info)))
                  then mapDelete x m else m
              | None => m
              end = mapGet k m) as Hsame.
    { destruct (mapGet x m) as [info|]; [|done].
      destruct (info_validateSize info && _); [|done].
      apply mapGet_mapDelete_ne. congruence. }
    rewrite Hsame.
    destruct (decide (k ∈ keys)) as [Hin|Hnot].
    + by rewrite !bool_decide_eq_true_2 by (done || by right).
    + rewrite !bool_decide_eq_false_2; [done| |done].
      rewrite not_elem_of_cons. done.
Qed.

(** X6: on a pending map with distinct keys, the filter that follows the walk
    over the modules deletes exactly the entries with size tracking whose
    sizes fail the minSize of their cache group; every other entry stays as
    it is, so afterwards each size-tracked entry satisfies its minSize. *)
Theorem filterMinSize_correct (m : list (string * ChunksInfoItem)) :
  NoDup (mapKeys m) →
  (∀ k,
     mapGet k (filterMinSize m)
     = match mapGet k m with
       | Some info => if belowMinSize info then None else Some info
       | None => None
       end)
  ∧ (∀ k info, mapGet k (filterMinSize m) = Some info →
       info_validateSize info = true →
       checkMinSize (info_sizes info) (cg_minSize (info_cacheGroup info)) = true)
  ∧ (∀ k info, mapGet k m = Some info → info_validateSize info = false →
       mapGet k (filterMinSize m) = Some info).
Proof.
  intros Hnodup.
  assert (∀ k,
    mapGet k (filterMinSize m)
    = match mapGet k m with
      | Some info => if belowMinSize info then None else Some info
      | None => None
      end) as Hlookup.
  { intros k. unfold filterMinSize. rewrite filterMinSize_loop_lookup by done.
    destruct (decide (k ∈ mapKeys m)) as [Hin|Hnot].
    - by rewrite bool_decide_eq_true_2.
    - rewrite bool_decide_eq_false_2 by done.
      apply mapGet_None in Hnot. by rewrite Hnot. }
  split_and!.
  - exact Hlookup.
  - intros k info. rewrite Hlookup.
    destruct (mapGet k m) as [info0|]; [|done].
    destruct (belowMinSize info0) eqn:Hbelow; [done|].
    intros [= <-] Hvalidate. unfold belowMinSize in Hbelow.
    rewrite Hvalidate in Hbelow. simpl in Hbelow.
    by apply negb_false_iff in Hbelow.
  - intros k info Hget Hoff. rewrite Hlookup, Hget.
    unfold belowMinSize. by rewrite Hoff.
Qed.

Lemma filterMinSize_correct_witness :
  mapGet "default chunks:1,2" (filterMinSize minSizePending) = None
  ∧ is_Some (mapGet "vendors chunks:1,2" (filterMinSize minSizePending)).
Proof.
  destruct (filterMinSize_correct minSizePending) as (Hlookup & _ & Hkept).
  - apply (bool_decide_unpack _). vm_compute. exact I.
  - split.
    + rewrite Hlookup. vm_compute. reflexivity.
    + eexists. apply Hkept; [reflexivity|]. vm_compute. reflexivity.
Defined.

Lemma foldl_max_spec (l : list Z) (a : Z) :
  a ≤ foldl (λ requests length, Z.max requests length) a l
  ∧ (∀ x, x ∈ l → x ≤ foldl (λ requests length, Z.max requests length) a l)
  ∧ (foldl (λ requests length, Z.max requests length) a l = a
     ∨ foldl (λ requests length, Z.max requests length) a l ∈ l).
Proof.
  revert a. induction l as [|x l IH]; intros a; simpl.
  - split_and!; [lia| |by left]. intros x Hx. inversion Hx.
  - destruct (IH (Z.max a x)) as (Hge & Hall & Hcase). split_and!.
    + lia.
    + intros y Hy. apply elem_of_cons in Hy as [->|Hy]; [lia|by apply Hall].
    + destruct Hcase as [Heq|Hin]; [|right; by right].
      rewrite Heq. destruct (Z.max_spec a x) as [[_ ->]|[_ ->]]; [right; left|by left].
Qed.

(** X7: [getRequests(chunk)] is the size of the largest chunk group of the
    chunk: it is at least the number of chunks of every chunk group of the
    chunk, it is the number of chunks of one of them unless it is 0, and it
    is 0 for a chunk without chunk group. *)
Theorem getRequests_is_maximum {G : Type} `{GraphOps G} (g : G) (chunk : Chunk) :
  0 ≤ getRequests g chunk
  ∧ (∀ length, length ∈ groupsChunksLength g chunk → length ≤ getRequests g chunk)
  ∧ (getRequests g chunk = 0
     ∨ getRequests g chunk ∈ groupsChunksLength g chunk)
  ∧ (groupsChunksLength g chunk = [] → getRequests g chunk = 0).
Proof.
  unfold getRequests.
  destruct (foldl_max_spec (groupsChunksLength g chunk) 0) as (Hge & Hall & Hcase).
  split_and!; try done. by intros ->.
Qed.

(** X8: [isOverlap(a, b)] is true exactly when some item is in both sets; it
    does not depend on the order of its arguments, and a set overlaps itself
    unless it is empty. *)
Theorem isOverlap_symmetric {K : Type} `{EqDecision K} (a b : list K) :
  (isOverlap a b = true ↔ ∃ item, item ∈ a ∧ item ∈ b)
  ∧ isOverlap a b = isOverlap b a
  ∧ isOverlap a [] = false
  ∧ (isOverlap a a = true ↔ a ≠ []).
Proof.
  split_and!.
  - apply isOverlap_true.
  - destruct (isOverlap a b) eqn:Hab, (isOverlap b a) eqn:Hba; try done.
    + apply isOverlap_true in Hab as (item & ? & ?).
      assert (isOverlap b a = true) as Habs by (apply isOverlap_true; eauto).
      congruence.
    + apply isOverlap_true in Hba as (item & ? & ?).
      assert (isOverlap a b = true) as Habs by (apply isOverlap_true; eauto).
      congruence.
  - destruct (isOverlap a []) eqn:Hnil; [|done].
    apply isOverlap_true in Hnil as (item & _ & Hin). inversion Hin.
  - rewrite isOverlap_true. split.
    + intros (item & Hin & _) ->. inversion Hin.
    + destruct a as [|x a]; [done|]. intros _. exists x. split; left.
Qed.

(** ** Keys of chunk sets *)

#[global] Instance numberLe_trans : Transitive numberLe.
Proof. intros a b c. unfold numberLe, compareNumbers. lia. Qed.

#[global] Instance numberLe_antisym : AntiSymm (=) numberLe.
Proof. intros a b. unfold numberLe, compareNumbers. lia. Qed.

#[global] Instance numberLe_total : Total numberLe.
Proof. intros a b. unfold numberLe, compareNumbers. lia. Qed.

Lemma merge_sort_numbers_Permutation (l l' : list Z) :
  l ≡ₚ l' → merge_sort numberLe l = merge_sort numberLe l'.
Proof.
  intros Hperm. apply (Sorted_unique numberLe).
  - apply Sorted_merge_sort. apply _.
  - apply Sorted_merge_sort. apply _.
  - by rewrite !merge_sort_Permutation.
Qed.

Lemma map_const_length {A B} (b : B) (l l' : list A) :
  length l = length l' → map (λ _, b) l = map (λ _, b) l'.
Proof.
  revert l'. induction l as [|x l IH]; intros [|x' l'] Hlen; simpl in *; try done.
  f_equal. apply IH. lia.
Qed.

Lemma getKey_Permutation (indexMap : list (Chunk * Z)) (chunks chunks' : list Chunk) :
  chunks ≡ₚ chunks' → getKey indexMap chunks = getKey indexMap chunks'.
Proof.
  intros Hperm. unfold getKey.
  assert (map (λ c, mapGet c indexMap) chunks
          ≡ₚ map (λ c, mapGet c indexMap) chunks') as Hindices.
  { by apply Permutation_map. }
  f_equal. f_equal.
  - f_equal. apply merge_sort_numbers_Permutation.
    apply omap_Permutation. exact Hindices.
  - apply map_const_length. apply Permutation_length.
    by apply filter_Permutation.
Qed.

Lemma append_comma_free (s s' t t' : string) :
  noComma s = true → noComma s' = true →
  (t = "" ∨ ∃ u, t = String ","%char u) → (t' = "" ∨ ∃ u, t' = String ","%char u) →
  (s +:+ t = s' +:+ t')%string → s = s' ∧ t = t'.
Proof.
  revert s'. induction s as [|c s IH]; intros [|c' s'] Hs Hs' Ht Ht' Heq.
  - done.
  - change (t = String c' (s' +:+ t'))%string in Heq. subst t.
    simpl in Hs'. destruct Ht as [Ht|[u Ht]]; [done|].
    injection Ht as -> _. by rewrite Ascii.eqb_refl in Hs'.
  - change (String c (s +:+ t) = t')%string in Heq. subst t'.
    simpl in Hs. destruct Ht' as [Ht'|[u Ht']]; [done|].
    injection Ht' as -> _. by rewrite Ascii.eqb_refl in Hs.
  - change (String c (s +:+ t) = String c' (s' +:+ t'))%string in Heq.
    injection Heq as -> Hrest. simpl in Hs, Hs'.
    apply andb_true_iff in Hs as [_ Hs]. apply andb_true_iff in Hs' as [_ Hs'].
    destruct (IH s' Hs Hs' Ht Ht' Hrest) as [-> ->]. done.
Qed.

Lemma join_cons (x : string) (xs : list string) :
  join (x :: xs)
  = (x +:+ match xs with [] => "" | _ :: _ => String ","%char (join xs) end)%string.
Proof.
  unfold join. destruct xs as [|y ys].
  - change (x = x +:+ "")%string. induction x as [|c x IH]; [done|].
    change (String c x = String c (x +:+ ""))%string. by rewrite <- IH.
  - done.
Qed.

Lemma join_inj (l l' : list string) :
  Forall (λ s, s ≠ "" ∧ noComma s = true) l →
  Forall (λ s, s ≠ "" ∧ noComma s = true) l' →
  join l = join l' → l = l'.
Proof.
  intros Hl. revert l'. induction Hl as [|x xs [Hx Hcx] Hxs IH]; intros l' Hl' Hjoin.
  - destruct Hl' as [|x' xs' [Hx' _] _]; [done|].
    rewrite join_cons in Hjoin. destruct x'; [done|]. done.
  - destruct Hl' as [|x' xs' [Hx' Hcx'] Hxs'].
    { rewrite join_cons in Hjoin. destruct x; [done|]. done. }
    rewrite !join_cons in Hjoin.
    apply append_comma_free in Hjoin as [-> Htail]; try done.
    + f_equal. destruct xs as [|y ys], xs' as [|y' ys']; try done.
      injection Htail as Htail. by apply IH.
    + destruct xs; [by left|right; eauto].
    + destruct xs'; [by left|right; eauto].
Qed.

Lemma string_of_uint_noComma (d : Decimal.uint) :
  noComma (NilEmpty.string_of_uint d) = true.
Proof. induction d; simpl; done. Qed.

Lemma numberToString_noComma (n : Z) :
  numberToString n ≠ "" ∧ noComma (numberToString n) = true.
Proof.
  unfold numberToString, NilZero.string_of_int, NilZero.string_of_uint.
  destruct (Z.to_int n) as [d|d].
  - destruct d; simpl; split; try done; apply string_of_uint_noComma.
  - destruct d; simpl; split; try done; apply string_of_uint_noComma.
Qed.

Lemma numberToString_inj (a b : Z) : numberToString a = numberToString b → a = b.
Proof.
  unfold numberToString. intros Heq. apply DecimalZ.to_int_inj.
  assert (∀ n, Z.to_int n ≠ Decimal.Pos Decimal.Nil
               ∧ Z.to_int n ≠ Decimal.Neg Decimal.Nil) as Hnonnil.
  { intros [|p|p]; simpl; split; try done.
    - intros [= Hp]. by apply DecimalPos.Unsigned.to_uint_nonnil in Hp.
    - intros [= Hp]. by apply DecimalPos.Unsigned.to_uint_nonnil in Hp. }
  destruct (Hnonnil a) as [Ha1 Ha2]. destruct (Hnonnil b) as [Hb1 Hb2].
  pose proof (NilZero.isi _ Ha1 Ha2) as Hia.
  pose proof (NilZero.isi _ Hb1 Hb2) as Hib.
  rewrite Heq in Hia. congruence.
Qed.

Lemma indexMap_loop_keep (chunks : list Chunk) :
  ∀ (indexMap : list (Chunk * Z)) (index : Z) (c : Chunk) (i : Z),
    c ∉ chunks → mapGet c indexMap = Some i →
    mapGet c
      (foldl (λ '(indexMap, index) chunk, (mapSet chunk index indexMap, index + 1))
         (indexMap, index) chunks).1 = Some i.
Proof.
  induction chunks as [|x chunks IH]; intros indexMap index c i Hnot Hget; simpl;
    [done|].
  apply not_elem_of_cons in Hnot as [Hne Hnot].
  apply IH; [done|]. by rewrite mapGet_mapSet_ne.
Qed.

Lemma indexMap_loop (chunks : list Chunk) :
  ∀ (indexMap : list (Chunk * Z)) (index : Z),
    (∀ c i, mapGet c indexMap = Some i → 1 ≤ i < index) →
    (∀ c c' i, mapGet c indexMap = Some i → mapGet c' indexMap = Some i → c = c') →
    1 ≤ index →
    let result :=
      (foldl (λ '(indexMap, index) chunk, (mapSet chunk index indexMap, index + 1))
         (indexMap, index) chunks).1 in
    (∀ c i, mapGet c result = Some i → 1 ≤ i < index + Z.of_nat (length chunks))
    ∧ (∀ c c' i, mapGet c result = Some i → mapGet c' result = Some i → c = c')
    ∧ (∀ c, is_Some (mapGet c result) ↔ is_Some (mapGet c indexMap) ∨ c ∈ chunks)
    ∧ (NoDup chunks → (∀ c, c ∈ chunks → mapGet c indexMap = None) →
       ∀ j c, chunks !! j = Some c → mapGet c result = Some (index + Z.of_nat j)).
Proof.
  induction chunks as [|chunk chunks IH]; intros indexMap index Hrange Hinj Hpos; simpl.
  - split_and!.
    + intros c i Hget. specialize (Hrange c i Hget). lia.
    + exact Hinj.
    + intros c. split; [by left|]. intros [?|Hin]; [done|inversion Hin].
    + intros _ _ j c Hj. by rewrite lookup_nil in Hj.
  - destruct (IH (mapSet chunk index indexMap) (index + 1))
      as (Hrange' & Hinj' & Hdom' & Hpos').
    + intros c i. rewrite mapGet_mapSet. destruct (decide (chunk = c)).
      * intros [= <-]. lia.
      * intros Hget. specialize (Hrange c i Hget). lia.
    + intros c c' i. rewrite !mapGet_mapSet.
      destruct (decide (chunk = c)) as [<-|Hc], (decide (chunk = c')) as [<-|Hc'];
        try done.
      * intros [= <-] Hget. specialize (Hrange c' index Hget). lia.
      * intros Hget [= <-]. specialize (Hrange c index Hget). lia.
      * apply Hinj.
    + lia.
    + split_and!.
      * intros c i Hget. specialize (Hrange' c i Hget). lia.
      * exact Hinj'.
      * intros c. rewrite Hdom', mapGet_mapSet, elem_of_cons.
        destruct (decide (chunk = c)) as [<-|Hne].
        -- split; [intros _; right; by left|intros _; left; by eexists].
        -- split; intros [?|?]; auto. destruct H as [?|?]; [congruence|auto].
      * intros Hnodup Hfresh j c Hj. apply NoDup_cons in Hnodup as [Hnotin Hnodup].
        destruct j as [|j]; simpl in Hj.
        -- injection Hj as <-.
           assert (mapGet chunk (mapSet chunk index indexMap) = Some index) as Hset
             by apply mapGet_mapSet_eq.
           destruct (Hdom' chunk) as [_ Hsome].
           destruct Hsome as [i Hi]; [left; by eexists|].
           rewrite Z.add_0_r.
           destruct (decide (i = index)) as [->|Hne]; [done|].
           exfalso.
           rewrite (indexMap_loop_keep chunks _ (index + 1) chunk index Hnotin Hset)
             in Hi.
           congruence.
        -- replace (index + Z.of_nat (S j)) with (index + 1 + Z.of_nat j) by lia.
           apply Hpos'; [done| |done].
           intros c0 Hc0. rewrite mapGet_mapSet_ne.
           ++ apply Hfresh. by right.
           ++ intros ->. done.
Qed.

Lemma makeIndexMap_spec (chunks : list Chunk) :
  (∀ c i, mapGet c (makeIndexMap chunks) = Some i →
     1 ≤ i < 1 + Z.of_nat (length chunks))
  ∧ (∀ c c' i, mapGet c (makeIndexMap chunks) = Some i →
       mapGet c' (makeIndexMap chunks) = Some i → c = c')
  ∧ (∀ c, is_Some (mapGet c (makeIndexMap chunks)) ↔ c ∈ chunks)
  ∧ (NoDup chunks → ∀ j c, chunks !! j = Some c →
       mapGet c (makeIndexMap chunks) = Some (1 + Z.of_nat j)).
Proof.
  destruct (indexMap_loop chunks [] 1) as (Hrange & Hinj & Hdom & Hpos);
    [done|done|lia|].
  unfold makeIndexMap. split_and!; try done.
  - intros c. rewrite Hdom. simpl. split; [|by right].
    intros [[? ?]|?]; done.
  - intros Hnodup. by apply Hpos.
Qed.

(** X9: the index map gives an index to exactly the chunks of the pass; the
    indices run from 1 to the number of chunks, two different chunks never
    share an index, and when no chunk is listed twice the chunk at position
    [j] (from 0) has index [j + 1]. *)
Theorem makeIndexMap_indexes (chunks : list Chunk) :
  (∀ c i, mapGet c (makeIndexMap chunks) = Some i →
     1 ≤ i ≤ Z.of_nat (length chunks))
  ∧ (∀ c c' i, mapGet c (makeIndexMap chunks) = Some i →
       mapGet c' (makeIndexMap chunks) = Some i → c = c')
  ∧ (∀ c, is_Some (mapGet c (makeIndexMap chunks)) ↔ c ∈ chunks)
  ∧ (NoDup chunks → ∀ j c, chunks !! j = Some c →
       mapGet c (makeIndexMap chunks) = Some (Z.of_nat j + 1)).
Proof.
  destruct (makeIndexMap_spec chunks) as (Hrange & Hinj & Hdom & Hpos).
  split_and!; try done.
  - intros c i Hget. specialize (Hrange c i Hget). lia.
  - intros Hnodup j c Hj. rewrite (Hpos Hnodup j c Hj). f_equal. lia.
Qed.

Lemma makeIndexMap_indexes_witness :
  mapGet chunkB (makeIndexMap [chunkA; chunkB; chunkC]) = Some 2.
Proof.
  destruct (makeIndexMap_indexes [chunkA; chunkB; chunkC]) as (_ & _ & _ & Hpos).
  apply (λ Hnodup, Hpos Hnodup 1%nat chunkB); [|reflexivity].
  apply (bool_decide_unpack _). vm_compute. exact I.
Defined.

(** X10: the key of a chunk set does not depend on the order in which its
    chunks are listed. *)
Theorem getKey_order_independent (indexMap : list (Chunk * Z))
    (chunks chunks' : list Chunk) :
  chunks ≡ₚ chunks' → getKey indexMap chunks = getKey indexMap chunks'.
Proof. apply getKey_Permutation. Qed.

Lemma getKey_order_independent_witness :
  getKey (makeIndexMap [chunkA; chunkB; chunkC]) [chunkC; chunkA]
  = getKey (makeIndexMap [chunkA; chunkB; chunkC]) [chunkA; chunkC].
Proof. apply getKey_order_independent. apply perm_swap. Defined.

Lemma indexed_chunks (indexMap : list (Chunk * Z)) (chunks : list Chunk) :
  (∀ c, c ∈ chunks → is_Some (mapGet c indexMap)) →
  ∃ indices,
    Forall2 (λ c i, mapGet c indexMap = Some i) chunks indices
    ∧ getKey indexMap chunks
      = join (numberToString <$> merge_sort numberLe indices).
Proof.
  intros Hall.
  assert (∃ indices, Forall2 (λ c i, mapGet c indexMap = Some i) chunks indices)
    as [indices Hindices].
  { induction chunks as [|c chunks IH]; [by exists []|].
    destruct IH as [indices Hindices]; [intros c' Hc'; apply Hall; by right|].
    destruct (Hall c) as [i Hi]; [left|].
    exists (i :: indices). by constructor. }
  exists indices. split; [done|]. unfold getKey. cbv zeta.
  assert (map (λ c, mapGet c indexMap) chunks = Some <$> indices) as ->.
  { clear Hall. induction Hindices as [|c i chunks indices Hci _ IH]; [done|].
    simpl. by rewrite Hci, IH. }
  assert (omap id (Some <$> indices) = indices) as ->.
  { clear. induction indices as [|i indices IH]; [done|]. csimpl. by rewrite IH. }
  assert (filter (λ o : option Z, o = None) (Some <$> indices) = []) as ->.
  { clear. induction indices as [|i indices IH]; [done|].
    csimpl. by rewrite filter_cons_False. }
  simpl. by rewrite app_nil_r.
Qed.

(** X11: among the chunks of the pass, two chunk sets without repeated
    chunks have the same key exactly when they hold the same chunks. *)
Theorem getKey_identifies_chunk_set (allChunks chunks chunks' : list Chunk) :
  chunks ⊆ allChunks → chunks' ⊆ allChunks →
  NoDup chunks → NoDup chunks' →
  getKey (makeIndexMap allChunks) chunks = getKey (makeIndexMap allChunks) chunks'
  ↔ chunks ≡ₚ chunks'.
Proof.
  intros Hsub Hsub' Hnodup Hnodup'. split; [|apply getKey_Permutation].
  destruct (makeIndexMap_spec allChunks) as (_ & Hinj & Hdom & _).
  destruct (indexed_chunks (makeIndexMap allChunks) chunks)
    as (indices & Hindices & ->).
  { intros c Hc. apply Hdom. by apply Hsub. }
  destruct (indexed_chunks (makeIndexMap allChunks) chunks')
    as (indices' & Hindices' & ->).
  { intros c Hc. apply Hdom. by apply Hsub'. }
  intros Hjoin. apply join_inj in Hjoin.
  2,3: apply Forall_fmap, Forall_forall; intros n _; apply numberToString_noComma.
  assert (merge_sort numberLe indices = merge_sort numberLe indices') as Hsorted.
  { revert Hjoin. generalize (merge_sort numberLe indices).
    generalize (merge_sort numberLe indices'). intros l' l. revert l'.
    induction l as [|x l IH]; intros [|x' l'] Heq; try done.
    injection Heq as Hx Hrest. f_equal; [by apply numberToString_inj|by apply IH]. }
  assert (indices ≡ₚ indices') as Hperm.
  { rewrite <- (merge_sort_Permutation numberLe indices), Hsorted.
    apply merge_sort_Permutation. }
  assert (∀ l l' ixs ixs',
    Forall2 (λ c i, mapGet c (makeIndexMap allChunks) = Some i) l ixs →
    Forall2 (λ c i, mapGet c (makeIndexMap allChunks) = Some i) l' ixs' →
    ixs ≡ₚ ixs' → ∀ c : Chunk, c ∈ l → c ∈ l') as Hincl.
  { intros l l' ixs ixs' Hl Hl' Hp c Hc.
    apply list_elem_of_lookup in Hc as [j Hj].
    destruct (Forall2_lookup_l _ _ _ _ _ Hl Hj) as (i & Hi & Hget).
    assert (i ∈ ixs') as Hin.
    { rewrite <- Hp. apply list_elem_of_lookup. eauto. }
    apply list_elem_of_lookup in Hin as [j' Hj'].
    destruct (Forall2_lookup_r _ _ _ _ _ Hl' Hj') as (c' & Hc' & Hget').
    rewrite (Hinj c c' i Hget Hget'). apply list_elem_of_lookup. eauto. }
  apply NoDup_Permutation; [done|done|].
  intros c. split.
  - by apply (Hincl chunks chunks' indices indices').
  - by apply (Hincl chunks' chunks indices' indices).
Qed.

Lemma getKey_identifies_chunk_set_witness :
  getKey (makeIndexMap [chunkA; chunkB; chunkC]) [chunkA; chunkB]
  = getKey (makeIndexMap [chunkA; chunkB; chunkC]) [chunkB; chunkA].
Proof.
  apply getKey_identifies_chunk_set.
  - intros c Hc. apply (bool_decide_unpack _).
    apply elem_of_cons in Hc as [->|Hc]; [done|].
    apply list_elem_of_singleton in Hc as ->. done.
  - intros c Hc. apply (bool_decide_unpack _).
    apply elem_of_cons in Hc as [->|Hc]; [done|].
    apply list_elem_of_singleton in Hc as ->. done.
  - apply (bool_decide_unpack _). vm_compute. exact I.
  - apply (bool_decide_unpack _). vm_compute. exact I.
  - apply perm_swap.
Defined.

(** ** The registry of chunk sets and the module walk *)

Lemma elem_of_mapValues {K V} `{EqDecision K} (m : list (K * V)) v :
  v ∈ mapValues m ↔ ∃ k, (k, v) ∈ m.
Proof.
  unfold mapValues. rewrite list_elem_of_fmap. split.
  - intros ([k v'] & -> & Hin). by exists k.
  - intros [k Hin]. by exists (k, v).
Qed.

Section Registry.
Context {G : Type} `{GraphOps G}.
Variable g : G.
Variable indexMap : list (Chunk * Z).

Lemma chunkSetsInGraph_loop (modules : list Module) :
  ∀ acc : list (string * list Chunk),
    let step := λ (chunkSetsInGraph : list (string * list Chunk)) module,
      if mapHas (getKey indexMap (getModuleChunksIterable g module))
           chunkSetsInGraph
      then chunkSetsInGraph
      else mapSet (getKey indexMap (getModuleChunksIterable g module))
             (getModuleChunksIterable g module) chunkSetsInGraph in
    (∀ k v, mapGet k acc = Some v → mapGet k (foldl step acc modules) = Some v)
    ∧ (∀ module, module ∈ modules →
         is_Some (mapGet (getKey indexMap (getModuleChunksIterable g module))
                    (foldl step acc modules)))
    ∧ (∀ k v, mapGet k (foldl step acc modules) = Some v →
         mapGet k acc = Some v
         ∨ ∃ module, module ∈ modules
             ∧ k = getKey indexMap (getModuleChunksIterable g module)
             ∧ v = getModuleChunksIterable g module).
Proof.
  induction modules as [|module modules IH]; intros acc step.
  - split_and!; simpl; [done| |by left].
    intros module Hin. inversion Hin.
  - simpl. destruct (IH (step acc module)) as (Hkeep & Hcomplete & Horigin).
    fold step in Hkeep, Hcomplete, Horigin.
    assert (∀ k v, mapGet k acc = Some v → mapGet k (step acc module) = Some v)
      as Hstep.
    { intros k v Hget. unfold step, mapHas.
      destruct (mapGet (getKey indexMap (getModuleChunksIterable g module)) acc)
        as [v'|] eqn:Hkey; simpl; [done|].
      rewrite mapGet_mapSet_ne; [done|]. intros <-. congruence. }
    split_and!.
    + intros k v Hget. by apply Hkeep, Hstep.
    + intros module' Hin. apply elem_of_cons in Hin as [->|Hin]; [|by apply Hcomplete].
      destruct (mapGet (getKey indexMap (getModuleChunksIterable g module)) acc)
        as [v'|] eqn:Hkey.
      * exists v'. by apply Hkeep, Hstep.
      * eexists. apply Hkeep. unfold step, mapHas. rewrite Hkey. simpl.
        apply mapGet_mapSet_eq.
    + intros k v Hget. apply Horigin in Hget as [Hget|(module' & Hin & -> & ->)].
      * unfold step, mapHas in Hget.
        destruct (mapGet (getKey indexMap (getModuleChunksIterable g module)) acc)
          as [v'|] eqn:Hkey; simpl in Hget; [by left|].
        rewrite mapGet_mapSet in Hget.
        destruct (decide (getKey indexMap (getModuleChunksIterable g module) = k))
          as [<-|Hne]; [|by left].
        injection Hget as <-. right. exists module. split; [left|done].
      * right. exists module'. split; [by right|done].
Qed.

Lemma makeChunkSetsInGraph_lookup (modules : list Module) (k : string)
    (chunksSet : list Chunk) :
  mapGet k (makeChunkSetsInGraph g indexMap modules) = Some chunksSet →
  ∃ module, module ∈ modules
    ∧ k = getKey indexMap (getModuleChunksIterable g module)
    ∧ chunksSet = getModuleChunksIterable g module.
Proof.
  intros Hget. destruct (chunkSetsInGraph_loop modules []) as (_ & _ & Horigin).
  by destruct (Horigin k chunksSet Hget) as [?|?].
Qed.

Lemma makeChunkSetsInGraph_complete (modules : list Module) (module : Module) :
  module ∈ modules →
  is_Some (mapGet (getKey indexMap (getModuleChunksIterable g module))
             (makeChunkSetsInGraph g indexMap modules)).
Proof.
  intros Hin. destruct (chunkSetsInGraph_loop modules []) as (_ & Hcomplete & _).
  by apply Hcomplete.
Qed.

Lemma makeChunkSetsInGraph_NoDup (modules : list Module) :
  NoDup (mapKeys (makeChunkSetsInGraph g indexMap modules)).
Proof.
  unfold makeChunkSetsInGraph.
  assert (NoDup (mapKeys ([] : list (string * list Chunk)))) as Hacc
    by apply NoDup_nil_2.
  revert Hacc. generalize ([] : list (string * list Chunk)).
  induction modules as [|module modules IH]; intros acc Hacc; simpl; [done|].
  apply IH. destruct (mapHas _ acc); [done|]. by apply NoDup_mapKeys_mapSet.
Qed.

Lemma getCombinations_registered (chunkSetsInGraph : list (string * list Chunk))
    (key : string) (combs : list (list Chunk)) :
  getCombinations chunkSetsInGraph (makeChunkSetsByCount chunkSetsInGraph) key
    = Ok combs →
  ∀ set, set ∈ combs → set ∈ mapValues chunkSetsInGraph.
Proof.
  unfold getCombinations.
  destruct (mapGet key chunkSetsInGraph) as [chunksSet|] eqn:Hget; [|done].
  intros [= <-] set Hin.
  destruct (bucketsOf_makeChunkSetsByCount chunkSetsInGraph)
    as (Hnodup & Hbuckets & _).
  apply elem_of_cons in Hin as [->|Hin].
  - apply elem_of_mapValues. exists key. by apply mapGet_elem_of.
  - destruct (1 <? setSize chunksSet); [|inversion Hin].
    apply list_elem_of_In, in_flat_map in Hin as ([count array] & Hbucket & Hset).
    apply list_elem_of_In in Hbucket, Hset.
    destruct (count <? setSize chunksSet); [|inversion Hset].
    apply list_elem_of_filter in Hset as [_ Hset].
    apply (elem_of_mapGet _ _ _ Hnodup) in Hbucket.
    by apply (Hbuckets _ _ Hbucket) in Hset as [? _].
Qed.
End Registry.

(** X12: every module of the compilation finds its chunk set registered: the
    registry holds, under the key of the module's chunks, the chunks of a
    module with the same key, and [getCombinations] answers for that key with
    this set first. *)
Theorem chunk_set_registry_complete {G : Type} `{GraphOps G} (g : G)
    (indexMap : list (Chunk * Z)) (modules : list Module) (module : Module) :
  module ∈ modules →
  ∃ first smaller,
    first ∈ modules
    ∧ getKey indexMap (getModuleChunksIterable g first)
      = getKey indexMap (getModuleChunksIterable g module)
    ∧ mapGet (getKey indexMap (getModuleChunksIterable g module))
        (makeChunkSetsInGraph g indexMap modules)
      = Some (getModuleChunksIterable g first)
    ∧ getCombinations (makeChunkSetsInGraph g indexMap modules)
        (makeChunkSetsByCount (makeChunkSetsInGraph g indexMap modules))
        (getKey indexMap (getModuleChunksIterable g module))
      = Ok (getModuleChunksIterable g first :: smaller).
Proof.
  intros Hin.
  destruct (makeChunkSetsInGraph_complete g indexMap modules module Hin)
    as [chunksSet Hget].
  destruct (makeChunkSetsInGraph_lookup g indexMap modules _ _ Hget)
    as (first & Hfirst & Hkey & ->).
  exists first. eexists. split_and!; [done|done|done|].
  unfold getCombinations. rewrite Hget. reflexivity.
Qed.

Lemma chunk_set_registry_complete_witness :
  ∃ first smaller,
    getCombinations
      (makeChunkSetsInGraph scenarioGraph (makeIndexMap [chunkA; chunkB])
         [jsModule 1 "m1" 10; jsModule 2 "m2" 10; jsModule 3 "m3" 10])
      (makeChunkSetsByCount
         (makeChunkSetsInGraph scenarioGraph (makeIndexMap [chunkA; chunkB])
            [jsModule 1 "m1" 10; jsModule 2 "m2" 10; jsModule 3 "m3" 10]))
      (getKey (makeIndexMap [chunkA; chunkB])
         (getModuleChunksIterable scenarioGraph (jsModule 3 "m3" 10)))
    = Ok (getModuleChunksIterable scenarioGraph first :: smaller).
Proof.
  destruct (chunk_set_registry_complete scenarioGraph
              (makeIndexMap [chunkA; chunkB])
              [jsModule 1 "m1" 10; jsModule 2 "m2" 10; jsModule 3 "m3" 10]
              (jsModule 3 "m3" 10))
    as (first & smaller & _ & _ & _ & Hcombs).
  - apply (bool_decide_unpack _). vm_compute. exact I.
  - by exists first, smaller.
Defined.

Section Walk.
Context {G : Type} `{GraphOps G}.
Variable indexMap : list (Chunk * Z).

Lemma addModuleToChunksInfoMap_ok cacheGroup selectedChunks selectedChunksKey
    module (st : PassState) :
  is_Some (cg_getName cacheGroup) →
  ∃ st', addModuleToChunksInfoMap cacheGroup selectedChunks selectedChunksKey
           module st = Ok st'
    ∧ graph st' = graph st.
Proof.
  intros [getName HgetName]. unfold addModuleToChunksInfoMap. rewrite HgetName.
  destruct (setSize selectedChunks <? cg_minChunks cacheGroup).
  - by exists st.
  - eexists. split; [reflexivity|]. simpl. apply validateName_graph.
Qed.

Lemma addCombinations_ok cacheGroup module combs (st : PassState) :
  is_Some (cg_getName cacheGroup) →
  ∃ st', addCombinations indexMap cacheGroup module combs st = Ok st'
    ∧ graph st' = graph st.
Proof.
  intros HgetName. revert st.
  induction combs as [|chunkCombination combs IH]; intros st; simpl.
  - by exists st.
  - destruct (setSize chunkCombination <? cg_minChunks cacheGroup); [apply IH|].
    destruct (addModuleToChunksInfoMap_ok cacheGroup
                (filter (λ chunk, cg_chunksFilter cacheGroup chunk = true)
                   chunkCombination)
                (getKey indexMap
                   (filter (λ chunk, cg_chunksFilter cacheGroup chunk = true)
                      chunkCombination))
                module st HgetName) as (st1 & -> & Hgraph).
    simpl. destruct (IH st1) as (st' & -> & Hgraph'). exists st'.
    split; [done|congruence].
Qed.

Lemma addCacheGroups_ok options module combs cacheGroups (st : PassState) :
  (∀ source, source ∈ cacheGroups → is_Some (src_getName source)) →
  ∃ st', addCacheGroups indexMap options module combs cacheGroups st = Ok st'
    ∧ graph st' = graph st.
Proof.
  revert st. induction cacheGroups as [|source cacheGroups IH]; intros st Hall;
    simpl.
  - by exists st.
  - destruct (addCombinations_ok (makeCacheGroup options source) module combs st)
      as (st1 & -> & Hgraph).
    { simpl. destruct (Hall source) as [getName ->]; [left|]. by eexists. }
    simpl. destruct (IH st1) as (st' & -> & Hgraph').
    { intros source' Hin. apply Hall. by right. }
    exists st'. split; [done|congruence].
Qed.
End Walk.

Lemma bind_Ok {A B} (a : A) (k : A → Result B) : (Ok a ≫= k) = k a.
Proof. reflexivity. Qed.

(** X13: the walk over the modules raises nothing when every cache group
    source it is given has a [getName]: each module finds its chunk set in
    the registry built from the same chunk graph, and the walk leaves the
    chunk graph as it was. *)
Theorem module_walk_succeeds {G : Type} `{GraphOps G}
    (indexMap : list (Chunk * Z)) (options : Options)
    (getCacheGroups : Module → option (list CacheGroupSource))
    (allModules modules : list Module) (st : @PassState G) :
  modules ⊆ allModules →
  (∀ module sources source,
     module ∈ modules → getCacheGroups module = Some sources →
     source ∈ sources → is_Some (src_getName source)) →
  ∃ st',
    walkModules indexMap options getCacheGroups
      (makeChunkSetsInGraph (graph st) indexMap allModules)
      (makeChunkSetsByCount (makeChunkSetsInGraph (graph st) indexMap allModules))
      modules st = Ok st'
    ∧ graph st' = graph st.
Proof.
  remember (graph st) as g eqn:Hg. revert st Hg.
  induction modules as [|module modules IH]; intros st Hg Hsub Hnames.
  - by exists st.
  - assert (modules ⊆ allModules) as Hsub'.
    { intros m Hm. apply Hsub. by right. }
    assert (∀ module sources source,
              module ∈ modules → getCacheGroups module = Some sources →
              source ∈ sources → is_Some (src_getName source)) as Hnames'.
    { intros m sources source Hm. apply Hnames. by right. }
    cbn [walkModules].
    destruct (getCacheGroups module) as [[|source sources]|] eqn:Hgroups;
      [by apply IH| |by apply IH].
    rewrite <- Hg.
    destruct (makeChunkSetsInGraph_complete g indexMap allModules module)
      as [chunksSet Hget]; [apply Hsub; left|].
    assert (∃ combs,
      getCombinations (makeChunkSetsInGraph g indexMap allModules)
        (makeChunkSetsByCount (makeChunkSetsInGraph g indexMap allModules))
        (getKey indexMap (getModuleChunksIterable g module)) = Ok combs)
      as [combs ->].
    { unfold getCombinations. rewrite Hget. by eexists. }
    rewrite bind_Ok.
    destruct (addCacheGroups_ok indexMap options module combs
                (source :: sources) st) as (st1 & -> & Hgraph1).
    { intros source' Hin.
      by apply (Hnames module _ source' (list_elem_of_here _ _) Hgroups). }
    rewrite bind_Ok.
    destruct (IH st1) as (st' & Hwalk & Hgraph'); [congruence|done|done|].
    exists st'. split; [done|congruence].
Qed.

Lemma module_walk_succeeds_witness :
  ∃ st',
    walkModules (makeIndexMap [chunkA; chunkB]) exampleOptions
      (λ _, Some [scenarioSource])
      (makeChunkSetsInGraph scenarioGraph (makeIndexMap [chunkA; chunkB])
         [jsModule 1 "m1" 10; jsModule 2 "m2" 10])
      (makeChunkSetsByCount
         (makeChunkSetsInGraph scenarioGraph (makeIndexMap [chunkA; chunkB])
            [jsModule 1 "m1" 10; jsModule 2 "m2" 10]))
      [jsModule 2 "m2" 10]
      {| graph := scenarioGraph; errors := []; warnings := [];
         alreadyValidatedNames := []; chunksInfoMap := [];
         maxSizeQueueMap := [] |} = Ok st'
    ∧ graph st' = scenarioGraph.
Proof.
  apply (module_walk_succeeds (makeIndexMap [chunkA; chunkB]) exampleOptions
           (λ _, Some [scenarioSource])
           [jsModule 1 "m1" 10; jsModule 2 "m2" 10] [jsModule 2 "m2" 10]
           {| graph := scenarioGraph; errors := []; warnings := [];
              alreadyValidatedNames := []; chunksInfoMap := [];
              maxSizeQueueMap := [] |}).
  - intros module Hin. apply list_elem_of_singleton in Hin as ->. right. left.
  - intros module sources source _ [= <-] Hin.
    apply list_elem_of_singleton in Hin as ->. by eexists.
Defined.

(** ** Every candidate spans enough chunks *)

Lemma foldl_setAdd_NoDup (init l : list Chunk) :
  NoDup init → NoDup (foldl (λ chunks chunk, setAdd chunk chunks) init l).
Proof.
  revert init. induction l as [|x l IH]; intros init Hinit; simpl; [done|].
  by apply IH, NoDup_setAdd.
Qed.

Lemma foldl_setAdd_size (init l : list Chunk) :
  NoDup l →
  setSize init ≤ setSize (foldl (λ chunks chunk, setAdd chunk chunks) init l)
  ∧ setSize l ≤ setSize (foldl (λ chunks chunk, setAdd chunk chunks) init l).
Proof.
  intros Hl. unfold setSize. split.
  - apply inj_le.
    assert (∀ l init : list Chunk, length init
              ≤ length (foldl (λ chunks chunk, setAdd chunk chunks) init l))%nat
      as Hgrow.
    { clear. induction l as [|x l IH]; intros init; simpl; [done|].
      etrans; [|apply IH]. unfold setAdd.
      destruct (setHas x init); [done|]. rewrite length_app. lia. }
    apply Hgrow.
  - apply inj_le, submseteq_length, NoDup_submseteq; [done|].
    intros x Hx. apply foldl_setAdd_elem_of. by right.
Qed.

Lemma spansMinChunks_addToInfo cacheGroup name selectedChunks selectedChunksKey
    module info :
  NoDup selectedChunks →
  cg_minChunks cacheGroup ≤ setSize selectedChunks →
  spansMinChunks info ∨ info = newInfo cacheGroup name →
  spansMinChunks (addToInfo selectedChunks selectedChunksKey module info).
Proof.
  intros Hnodup Hmin [[Hchunks Hsize]| ->]; unfold spansMinChunks, addToInfo;
    simpl.
  - destruct (negb (setHas selectedChunksKey (info_chunksKeys info))); [|done].
    split; [by apply foldl_setAdd_NoDup|].
    destruct (foldl_setAdd_size (info_chunks info) selectedChunks Hnodup). lia.
  - split; [apply foldl_setAdd_NoDup, NoDup_nil_2|].
    destruct (foldl_setAdd_size [] selectedChunks Hnodup). lia.
Qed.

Section SpanInvariant.
Context {G : Type} `{GraphOps G}.
Variable indexMap : list (Chunk * Z).

Lemma addModuleToChunksInfoMap_spans cacheGroup selectedChunks selectedChunksKey
    module (st st' : PassState) :
  NoDup selectedChunks →
  mapForall spansMinChunks (chunksInfoMap st) →
  addModuleToChunksInfoMap cacheGroup selectedChunks selectedChunksKey module st
    = Ok st' →
  mapForall spansMinChunks (chunksInfoMap st').
Proof.
  intros Hnodup Hst. unfold addModuleToChunksInfoMap.
  destruct (Z.ltb_spec (setSize selectedChunks) (cg_minChunks cacheGroup))
    as [|Hmin]; [by intros [= <-]|].
  destruct (cg_getName cacheGroup) as [getName|]; [|done].
  intros [= <-]. simpl. rewrite chunksInfoMap_validateName.
  apply mapForall_mapSet; [done|].
  eapply spansMinChunks_addToInfo; [done|done|].
  destruct (mapGet _ (chunksInfoMap st)) as [info|] eqn:Hget; [|by right].
  left. by eapply mapForall_mapGet.
Qed.

Lemma addModulesToChunksInfoMap_spans cacheGroup selectedChunks
    selectedChunksKey modules (st st' : PassState) :
  NoDup selectedChunks →
  mapForall spansMinChunks (chunksInfoMap st) →
  addModulesToChunksInfoMap cacheGroup selectedChunks selectedChunksKey modules st
    = Ok st' →
  mapForall spansMinChunks (chunksInfoMap st').
Proof.
  intros Hnodup. revert st.
  induction modules as [|module modules IH]; intros st Hst; simpl.
  - by intros [= <-].
  - destruct (addModuleToChunksInfoMap cacheGroup selectedChunks
                selectedChunksKey module st) as [st1|] eqn:Hadd; simpl; [|done].
    apply IH. by eapply addModuleToChunksInfoMap_spans.
Qed.

Lemma addCombinations_spans cacheGroup module combs (st st' : PassState) :
  Forall NoDup combs →
  mapForall spansMinChunks (chunksInfoMap st) →
  addCombinations indexMap cacheGroup module combs st = Ok st' →
  mapForall spansMinChunks (chunksInfoMap st').
Proof.
  intros Hcombs. revert st.
  induction Hcombs as [|chunkCombination combs Hcomb _ IH]; intros st Hst; simpl.
  - by intros [= <-].
  - destruct (setSize chunkCombination <? cg_minChunks cacheGroup); [by apply IH|].
    destruct (addModuleToChunksInfoMap cacheGroup _ _ module st) as [st1|]
      eqn:Hadd; simpl; [|done].
    apply IH. eapply addModuleToChunksInfoMap_spans; [|done|exact Hadd].
    by apply NoDup_filter.
Qed.

Lemma addCacheGroups_spans options module combs cacheGroups (st st' : PassState) :
  Forall NoDup combs →
  mapForall spansMinChunks (chunksInfoMap st) →
  addCacheGroups indexMap options module combs cacheGroups st = Ok st' →
  mapForall spansMinChunks (chunksInfoMap st').
Proof.
  intros Hcombs. revert st.
  induction cacheGroups as [|source cacheGroups IH]; intros st Hst; simpl.
  - by intros [= <-].
  - destruct (addCombinations indexMap (makeCacheGroup options source) module
                combs st) as [st1|] eqn:Hadd; simpl; [|done].
    apply IH. by eapply addCombinations_spans.
Qed.

Lemma walkModules_spans options getCacheGroups
    (chunkSetsInGraph : list (string * list Chunk)) modules (st st' : PassState) :
  Forall NoDup (mapValues chunkSetsInGraph) →
  mapForall spansMinChunks (chunksInfoMap st) →
  walkModules indexMap options getCacheGroups chunkSetsInGraph
    (makeChunkSetsByCount chunkSetsInGraph) modules st = Ok st' →
  mapForall spansMinChunks (chunksInfoMap st').
Proof.
  intros Hsets. revert st.
  induction modules as [|module modules IH]; intros st Hst.
  - by intros [= <-].
  - cbn [walkModules].
    destruct (getCacheGroups module) as [[|source sources]|] eqn:Hgroups;
      [by apply IH| |by apply IH].
    destruct (getCombinations chunkSetsInGraph _ _) as [combs|] eqn:Hcombs;
      [|done].
    rewrite bind_Ok.
    destruct (addCacheGroups indexMap options module combs (source :: sources) st)
      as [st1|] eqn:Hadd; [|done].
    rewrite bind_Ok. apply IH.
    eapply addCacheGroups_spans; [|done|exact Hadd].
    apply Forall_forall. intros set Hin.
    eapply (proj1 (Forall_forall _ _) Hsets).
    by eapply getCombinations_registered.
Qed.

Lemma filterMinSize_mapForall (P : ChunksInfoItem → Prop)
    (m : list (string * ChunksInfoItem)) :
  mapForall P m → mapForall P (filterMinSize m).
Proof.
  unfold filterMinSize. generalize (mapKeys m). intros keys. revert m.
  induction keys as [|key keys IH]; intros m Hm; simpl; [done|].
  apply IH. destruct (mapGet key m) as [info|]; [|done].
  destruct (_ && _); [by apply mapForall_mapDelete|done].
Qed.

Lemma spansMinChunks_sorted info : spansMinChunks info → spansMinChunks (sorted info).
Proof. done. Qed.

Lemma spansMinChunks_withModulesSizes info modules sizes :
  spansMinChunks info → spansMinChunks (withModulesSizes modules sizes info).
Proof. done. Qed.

Lemma chunksInLimitOf_NoDup (g : G) item r :
  NoDup (info_chunks item) →
  NoDup (chunksInLimitOf g item r (usedChunksOf item r)).
Proof.
  intros Hchunks. unfold chunksInLimitOf.
  assert (NoDup (usedChunksOf item r)) as Hused by by apply NoDup_filter.
  destruct (isReused r); [|by apply NoDup_filter].
  destruct (newChunk r) as [chunk|] eqn:Hnew; [|by apply NoDup_filter].
  apply NoDup_app. split_and!.
  - by apply NoDup_filter.
  - intros x Hx Hx'. apply list_elem_of_singleton in Hx' as ->.
    apply list_elem_of_filter in Hx as [_ Hx]. unfold usedChunksOf in Hx.
    apply list_elem_of_filter in Hx as [Hx _].
    rewrite Hnew in Hx. apply andb_prop in Hx as [_ Hx].
    by rewrite bool_decide_eq_true_2 in Hx.
  - apply NoDup_singleton.
Qed.

Lemma selectionStep_spans (st st' : PassState) :
  mapForall spansMinChunks (chunksInfoMap st) →
  selectionStep indexMap st = Ok st' →
  mapForall spansMinChunks (chunksInfoMap st').
Proof.
  intros Hst. unfold selectionStep.
  destruct (takeBestEntry (chunksInfoMap st)) as [[item m]|] eqn:Htake;
    [|by intros [= <-]].
  destruct (takeBestEntry_mapForall spansMinChunks spansMinChunks_sorted
              _ _ _ Hst Htake) as [Hitem Hm].
  match goal with |- context [if ?c then _ else _] => destruct c end;
    [by intros [= <-]|].
  destruct (requestBudget _ _ _ _ _) as [continue|] eqn:Hbudget.
  - intros ->. unfold requestBudget in Hbudget.
    repeat match type of Hbudget with
           | context [if ?c then _ else _] => destruct c
           end; try done.
    + injection Hbudget as Hadd.
      eapply addModulesToChunksInfoMap_spans in Hadd; [done| |done].
      apply chunksInLimitOf_NoDup, Hitem.
    + by injection Hbudget as [= <-].
  - destruct (prepareChunk _ _ _ _) as [[newChunk g]|]; [|done].
    destruct (checkFilename item newChunk g) as [g'|]; simpl; [|done].
    intros [= <-]. simpl. apply retract_mapForall; [|done].
    intros info modules sizes Hinfo _.
    by apply spansMinChunks_withModulesSizes.
Qed.

Lemma selectionLoop_spans fuel (st st' : PassState) :
  mapForall spansMinChunks (chunksInfoMap st) →
  selectionLoop indexMap fuel st = Ok st' →
  mapForall spansMinChunks (chunksInfoMap st').
Proof.
  revert st. induction fuel as [|fuel IH]; intros st Hst; simpl.
  - by intros [= <-].
  - destruct (0 <? setSize (chunksInfoMap st)); [|by intros [= <-]].
    destruct (selectionStep indexMap st) as [st1|] eqn:Hstep; simpl; [|done].
    apply IH. by eapply selectionStep_spans.
Qed.
End SpanInvariant.

(** X14: when the chunk graph lists no chunk twice for a module, every
    candidate in the pending map, after the walk and the [minSize] filter and
    after any number of rounds of the selection loop, lists no chunk twice
    and has at least the [minChunks] of its cache group. *)
Theorem candidates_span_minChunks {G : Type} `{GraphOps G} (options : Options)
    (getCacheGroups : Module → option (list CacheGroupSource))
    (chunks : list Chunk) (modules : list Module) (fuel : nat) (g : G)
    (st : PassState) :
  (∀ module, NoDup (getModuleChunksIterable g module)) →
  optimizeChunks options getCacheGroups chunks modules fuel g = Ok st →
  mapForall spansMinChunks (chunksInfoMap st).
Proof.
  intros Hgraph. unfold optimizeChunks.
  destruct (walkModules _ _ _ _ _ _ _) as [st1|] eqn:Hwalk; [|done].
  rewrite bind_Ok. intros Hloop.
  eapply selectionLoop_spans; [|exact Hloop]. simpl.
  apply filterMinSize_mapForall.
  eapply walkModules_spans; [| |exact Hwalk]; [|by apply mapForall_nil].
  apply Forall_forall. intros set Hin.
  apply elem_of_mapValues in Hin as [k Hin].
  apply elem_of_mapGet in Hin.
  - apply makeChunkSetsInGraph_lookup in Hin as (module & _ & _ & ->).
    apply Hgraph.
  - apply makeChunkSetsInGraph_NoDup.
Qed.

Lemma candidates_span_minChunks_witness :
  ∃ st,
    optimizeChunks exampleOptions (λ _, Some [scenarioSource]) [chunkA; chunkB]
      [jsModule 1 "m1" 10; jsModule 2 "m2" 10; jsModule 3 "m3" 10;
       jsModule 4 "m4" 10] 0 scenarioGraph = Ok st
    ∧ chunksInfoMap st ≠ []
    ∧ mapForall spansMinChunks (chunksInfoMap st).
Proof.
  eexists. split; [vm_compute; reflexivity|]. split; [done|].
  apply (candidates_span_minChunks exampleOptions (λ _, Some [scenarioSource])
           [chunkA; chunkB]
           [jsModule 1 "m1" 10; jsModule 2 "m2" 10; jsModule 3 "m3" 10;
            jsModule 4 "m4" 10] 0 scenarioGraph).
  - intros module.
    apply (sublist_NoDup _ (mem_chunkModules scenarioGraph).*1).
    + apply (bool_decide_unpack _). vm_compute. exact I.
    + apply fmap_sublist, sublist_filter.
  - vm_compute. reflexivity.
Defined.

(** ** The selection loop comes to an end *)

Section Termination.
Context {G : Type} `{GraphOps G}.
Variable indexMap : list (Chunk * Z).

Lemma length_mapKeys {K V} (m : list (K * V)) : length (mapKeys m) = length m.
Proof. unfold mapKeys. apply length_fmap. Qed.

Lemma length_mapSet_present {K V} `{EqDecision K} (m : list (K * V)) k v :
  k ∈ mapKeys m → length (mapSet k v m) = length m.
Proof.
  intros Hin. rewrite <- (length_mapKeys (mapSet k v m)), <- (length_mapKeys m).
  by rewrite mapKeys_mapSet_present.
Qed.

Lemma length_mapDelete {K V} `{EqDecision K} (m : list (K * V)) k :
  (length (mapDelete k m) ≤ length m)%nat.
Proof. apply length_filter. Qed.

Lemma length_mapDelete_present {K V} `{EqDecision K} (m : list (K * V)) k :
  k ∈ mapKeys m → (length (mapDelete k m) < length m)%nat.
Proof.
  intros Hin. apply mapGet_is_Some in Hin as [v Hget].
  apply mapGet_elem_of in Hget.
  apply (length_filter_lt _ _ (k, v)); [done|]. simpl. by intros Hne.
Qed.

Lemma takeBestEntry_shrinks (m : list (string * ChunksInfoItem)) :
  m ≠ [] →
  ∃ item rest,
    takeBestEntry m = Some (item, rest) ∧ (length rest < length m)%nat.
Proof.
  intros Hm. destruct (findBestEntry_all m Hm) as (key & m' & Hfind & Hequiv & Hkey & _).
  unfold takeBestEntry. rewrite Hfind.
  pose proof (mapEquiv_mapKeys _ _ Hequiv) as Hkeys.
  assert (key ∈ mapKeys m') as Hkey' by by rewrite Hkeys.
  destruct (proj2 (mapGet_is_Some m' key) Hkey') as [item ->].
  exists item, (mapDelete key m'). split; [done|].
  rewrite <- (length_mapKeys m), <- Hkeys, length_mapKeys.
  by apply length_mapDelete_present.
Qed.

Lemma retractEntry_length item key info (m : list (string * ChunksInfoItem)) :
  mapGet key m = Some info →
  (length (retractEntry item key info m) ≤ length m)%nat.
Proof.
  intros Hget.
  assert (key ∈ mapKeys m) as Hkey by (apply mapGet_is_Some; by eexists).
  assert (∀ v, length (mapDelete key (mapSet key v m)) ≤ length m)%nat as Hdel.
  { intros v. etrans; [apply length_mapDelete|]. by rewrite length_mapSet_present. }
  unfold retractEntry.
  repeat (match goal with
          | |- context [if ?c then _ else _] => destruct c
          | |- context [let '(_, _) := ?p in _] => destruct p as [[? ?] ?]
          end);
    try done; try apply Hdel; by rewrite length_mapSet_present.
Qed.

Lemma retract_length item (m : list (string * ChunksInfoItem)) :
  (length (retract item m) ≤ length m)%nat.
Proof.
  unfold retract. generalize (mapKeys m). intros keys. revert m.
  induction keys as [|key keys IH]; intros m; simpl; [done|].
  etrans; [apply IH|].
  destruct (mapGet key m) as [info|] eqn:Hget; [|done].
  by apply retractEntry_length.
Qed.

Lemma requestBudget_unlimited item r usedChunks (st : PassState) :
  unlimitedRequests item → requestBudget indexMap item r usedChunks st = None.
Proof. intros [Hinitial Hasync]. unfold requestBudget. by rewrite Hinitial, Hasync. Qed.

Lemma selectionStep_shrinks (st st' : PassState) :
  mapForall unlimitedRequests (chunksInfoMap st) →
  chunksInfoMap st ≠ [] →
  selectionStep indexMap st = Ok st' →
  (length (chunksInfoMap st') < length (chunksInfoMap st))%nat
  ∧ mapForall unlimitedRequests (chunksInfoMap st').
Proof.
  intros Hst Hne. unfold selectionStep.
  destruct (takeBestEntry_shrinks _ Hne) as (item & rest & Htake & Hlength).
  rewrite Htake.
  destruct (takeBestEntry_mapForall unlimitedRequests (λ info Hinfo, Hinfo)
              _ _ _ Hst Htake) as [Hitem Hrest].
  match goal with |- context [if ?c then _ else _] => destruct c end;
    [by intros [= <-]|].
  rewrite requestBudget_unlimited by done.
  destruct (prepareChunk _ _ _ _) as [[newChunk g]|]; [|done].
  destruct (checkFilename item newChunk g) as [g'|]; simpl; [|done].
  intros [= <-]. simpl. split.
  - eapply Nat.le_lt_trans; [apply retract_length|done].
  - apply retract_mapForall; [|done]. by intros info modules sizes Hinfo _.
Qed.

End Termination.

(** X15: when no candidate has a finite request limit, each round of the
    selection loop makes the pending map smaller, so the loop is over after
    at most as many rounds as the map has entries: further rounds change
    nothing, and when the loop ends without an error the map is empty. *)
Theorem selection_ends_without_request_limits {G : Type} `{GraphOps G}
    (indexMap : list (Chunk * Z)) (fuel : nat) (st : @PassState G) :
  mapForall unlimitedRequests (chunksInfoMap st) →
  (length (chunksInfoMap st) ≤ fuel)%nat →
  (∀ fuel', (fuel ≤ fuel')%nat →
     selectionLoop indexMap fuel' st = selectionLoop indexMap fuel st)
  ∧ (∀ st', selectionLoop indexMap fuel st = Ok st' → chunksInfoMap st' = []).
Proof.
  revert st. induction fuel as [|fuel IH]; intros st Hst Hlength.
  - assert (chunksInfoMap st = []) as Hempty.
    { destruct (chunksInfoMap st); [done|simpl in Hlength; lia]. }
    split.
    + intros [|fuel'] _; simpl; [done|]. by rewrite Hempty.
    + by intros st' [= <-].
  - destruct (chunksInfoMap st) as [|entry m] eqn:Hmap.
    { split.
      - intros [|fuel'] _; simpl; by rewrite ?Hmap.
      - simpl. rewrite Hmap. by intros st' [= <-]. }
    assert ((0 <? setSize (chunksInfoMap st)) = true) as Hpos.
    { rewrite Hmap. apply Z.ltb_lt. unfold setSize. simpl. lia. }
    split.
    + intros [|fuel'] Hfuel; [lia|]. simpl. rewrite Hpos.
      destruct (selectionStep indexMap st) as [st1|] eqn:Hstep; [|done].
      rewrite !bind_Ok.
      destruct (selectionStep_shrinks indexMap st st1) as [Hshrink Hst1];
        [by rewrite Hmap|by rewrite Hmap|done|].
      apply IH; [done| |lia]. rewrite Hmap in Hshrink. simpl in Hshrink, Hlength.
      lia.
    + intros st'. simpl. rewrite Hpos.
      destruct (selectionStep indexMap st) as [st1|] eqn:Hstep; [|done].
      rewrite bind_Ok.
      destruct (selectionStep_shrinks indexMap st st1) as [Hshrink Hst1];
        [by rewrite Hmap|by rewrite Hmap|done|].
      apply IH; [done|]. rewrite Hmap in Hshrink. simpl in Hshrink, Hlength.
      lia.
Qed.

Lemma selection_ends_without_request_limits_witness :
  ∃ st',
    selectionLoop [] 2
      {| graph := scenarioGraph; errors := []; warnings := [];
         alreadyValidatedNames := []; chunksInfoMap := examplePending;
         maxSizeQueueMap := [] |} = Ok st'
    ∧ chunksInfoMap st' = [].
Proof.
  eexists. split; [vm_compute; reflexivity|].
  apply (proj2 (selection_ends_without_request_limits [] 2
           {| graph := scenarioGraph; errors := []; warnings := [];
              alreadyValidatedNames := []; chunksInfoMap := examplePending;
              maxSizeQueueMap := [] |}
           ltac:(intros k v Hin; simpl in Hin;
                 apply elem_of_cons in Hin as [[= -> ->]|Hin]; [by split|];
                 apply list_elem_of_singleton in Hin as [= -> ->]; by split)
           ltac:(simpl; lia))).
  vm_compute. reflexivity.
Defined.

(** ** The chunks a round splits, and the errors of the pass *)

Lemma reuseDecision_cases {G : Type} `{GraphOps G} (g : G) (item : ChunksInfoItem) :
  reuseDecision g item
    = {| newChunk := None; chunkName := info_name item; isReused := false |}
  ∨ (isReused (reuseDecision g item) = true
     ∧ chunkName (reuseDecision g item) = None
     ∧ ∃ chosen, newChunk (reuseDecision g item) = Some chosen
         ∧ chosen ∈ info_chunks item
         ∧ matchesExactly g item chosen = true).
Proof.
  pose proof (reuseInv_fold g item (info_chunks item)
                {| newChunk := None; chunkName := info_name item;
                   isReused := false |} []) as Hfold.
  simpl in Hfold. destruct Hfold as [Hnone Hsome]; [by split|].
  unfold reuseDecision.
  destruct (cg_reuseExistingChunk (info_cacheGroup item)); [|by left].
  destruct (filter (λ chunk, matchesExactly g item chunk = true)
              (info_chunks item)) as [|c l] eqn:Hmatching.
  - left. by apply Hnone.
  - right. destruct Hsome as (Hreused & Hname & chosen & Hnew & Hin & _); [done|].
    split; [done|]. split; [done|]. exists chosen. split; [done|].
    rewrite <- Hmatching in Hin. by apply list_elem_of_filter in Hin as [? ?].
Qed.

Lemma elem_of_usedChunksOf (item : ChunksInfoItem) (r : Reuse) (c : Chunk) :
  c ∈ usedChunksOf item r
  ↔ c ∈ info_chunks item
    ∧ (truthy (chunkName r) = true → chunk_name c ≠ chunkName r)
    ∧ Some c ≠ newChunk r.
Proof.
  unfold usedChunksOf. rewrite list_elem_of_filter, andb_true_iff, orb_true_iff,
    !negb_true_iff, !bool_decide_eq_false.
  split.
  - intros [[[Hname|Hname] Hnew] Hin]; split_and!; try done.
    intros Htruthy. congruence.
  - intros (Hin & Hname & Hnew). split; [|done]. split; [|done].
    destruct (truthy (chunkName r)); [right; by apply Hname|by left].
Qed.

(** X16: the chunks a round splits are chunks of the candidate, in their
    order.  When a chunk is reused, it is a chunk of the candidate holding
    exactly the candidate's modules, and the chunks split are all the other
    chunks of the candidate; when none is reused, they are the chunks of the
    candidate that do not already carry the candidate's name. *)
Theorem used_chunks_exclude_target {G : Type} `{GraphOps G} (g : G)
    (item : ChunksInfoItem) :
  usedChunksOf item (reuseDecision g item) `sublist_of` info_chunks item
  ∧ (isReused (reuseDecision g item) = true →
     ∃ chosen,
       newChunk (reuseDecision g item) = Some chosen
       ∧ chosen ∈ info_chunks item
       ∧ matchesExactly g item chosen = true
       ∧ ∀ c, c ∈ usedChunksOf item (reuseDecision g item)
              ↔ c ∈ info_chunks item ∧ c ≠ chosen)
  ∧ (isReused (reuseDecision g item) = false →
     newChunk (reuseDecision g item) = None
     ∧ ∀ c, c ∈ usedChunksOf item (reuseDecision g item)
            ↔ c ∈ info_chunks item
              ∧ (truthy (info_name item) = true → chunk_name c ≠ info_name item)).
Proof.
  split; [apply sublist_filter|].
  destruct (reuseDecision_cases g item)
    as [Hstart|(Hreused & Hname & chosen & Hnew & Hin & Hmatch)].
  - rewrite Hstart. simpl. split; [done|]. intros _. split; [done|].
    intros c. rewrite elem_of_usedChunksOf. simpl. naive_solver.
  - split; [|by rewrite Hreused].
    intros _. exists chosen. split_and!; try done.
    intros c. rewrite elem_of_usedChunksOf, Hname, Hnew. simpl. naive_solver.
Qed.

Section Errors.
Context {G : Type} `{GraphOps G}.
Variable indexMap : list (Chunk * Z).

Lemma addModuleToChunksInfoMap_graphKept cacheGroup selectedChunks
    selectedChunksKey module (st : PassState) :
  graphKept (graph st)
    (addModuleToChunksInfoMap cacheGroup selectedChunks selectedChunksKey
       module st).
Proof.
  unfold addModuleToChunksInfoMap.
  destruct (setSize selectedChunks <? cg_minChunks cacheGroup); [done|].
  destruct (cg_getName cacheGroup); [|done]. simpl. apply validateName_graph.
Qed.

Lemma addModulesToChunksInfoMap_graphKept cacheGroup selectedChunks
    selectedChunksKey modules (st : PassState) :
  graphKept (graph st)
    (addModulesToChunksInfoMap cacheGroup selectedChunks selectedChunksKey
       modules st).
Proof.
  revert st. induction modules as [|module modules IH]; intros st; simpl; [done|].
  pose proof (addModuleToChunksInfoMap_graphKept cacheGroup selectedChunks
                selectedChunksKey module st) as Hadd.
  destruct (addModuleToChunksInfoMap _ _ _ _ st) as [st1|]; [|done].
  rewrite bind_Ok. simpl in Hadd. rewrite <- Hadd. apply IH.
Qed.

Lemma addCombinations_graphKept cacheGroup module combs (st : PassState) :
  graphKept (graph st) (addCombinations indexMap cacheGroup module combs st).
Proof.
  revert st. induction combs as [|chunkCombination combs IH]; intros st; simpl;
    [done|].
  destruct (setSize chunkCombination <? cg_minChunks cacheGroup); [apply IH|].
  match goal with
  | |- context [addModuleToChunksInfoMap ?cg ?sel ?key module st] =>
      pose proof (addModuleToChunksInfoMap_graphKept cg sel key module st) as Hadd;
      destruct (addModuleToChunksInfoMap cg sel key module st) as [st1|]; [|done]
  end.
  rewrite bind_Ok. simpl in Hadd. rewrite <- Hadd. apply IH.
Qed.

Lemma addCacheGroups_graphKept options module combs cacheGroups (st : PassState) :
  graphKept (graph st)
    (addCacheGroups indexMap options module combs cacheGroups st).
Proof.
  revert st. induction cacheGroups as [|source cacheGroups IH]; intros st;
    [done|].
  cbn [addCacheGroups].
  pose proof (addCombinations_graphKept (makeCacheGroup options source) module
                combs st) as Hadd.
  destruct (addCombinations _ _ _ _ st) as [st1|]; [|done].
  rewrite bind_Ok. simpl in Hadd. rewrite <- Hadd. apply IH.
Qed.

Lemma walkModules_graphKept options getCacheGroups (allModules modules : list Module)
    (st : PassState) :
  modules ⊆ allModules →
  graphKept (graph st)
    (walkModules indexMap options getCacheGroups
       (makeChunkSetsInGraph (graph st) indexMap allModules)
       (makeChunkSetsByCount (makeChunkSetsInGraph (graph st) indexMap allModules))
       modules st).
Proof.
  remember (graph st) as g eqn:Hg. revert st Hg.
  induction modules as [|module modules IH]; intros st Hg Hsub.
  - by simpl.
  - assert (modules ⊆ allModules) as Hsub'.
    { intros m Hm. apply Hsub. by right. }
    cbn [walkModules].
    destruct (getCacheGroups module) as [[|source sources]|] eqn:Hgroups;
      [by apply IH| |by apply IH].
    rewrite <- Hg.
    destruct (makeChunkSetsInGraph_complete g indexMap allModules module)
      as [chunksSet Hget]; [apply Hsub; left|].
    assert (∃ combs,
      getCombinations (makeChunkSetsInGraph g indexMap allModules)
        (makeChunkSetsByCount (makeChunkSetsInGraph g indexMap allModules))
        (getKey indexMap (getModuleChunksIterable g module)) = Ok combs)
      as [combs ->].
    { unfold getCombinations. rewrite Hget. by eexists. }
    rewrite bind_Ok.
    pose proof (addCacheGroups_graphKept options module combs (source :: sources)
                  st) as Hadd.
    destruct (addCacheGroups _ _ _ _ _ st) as [st1|]; [|done].
    rewrite bind_Ok. simpl in Hadd. apply IH; [congruence|done].
Qed.

Lemma prepareChunk_reuseDecision (st : PassState) item usedChunks :
  is_Some (prepareChunk item (reuseDecision (graph st) item) usedChunks (graph st)).
Proof.
  unfold prepareChunk.
  destruct (reuseDecision_cases (graph st) item)
    as [->|(-> & _ & chosen & -> & _)]; simpl.
  - destruct (addChunk (info_name item) (graph st)). by eexists.
  - by eexists.
Qed.

Lemma selectionStep_errors (st : PassState) message :
  selectionStep indexMap st = Throw message →
  message = "TypeError: cacheGroup.getName is not a function"
  ∨ ∃ key, message = filenameMessage key.
Proof.
  unfold selectionStep.
  destruct (takeBestEntry (chunksInfoMap st)) as [[item m]|]; [|done].
  match goal with |- context [if ?c then _ else _] => destruct c end; [done|].
  destruct (requestBudget _ _ _ _ _) as [continue|] eqn:Hbudget.
  - intros ->. unfold requestBudget in Hbudget.
    repeat match type of Hbudget with
           | context [if ?c then _ else _] => destruct c
           end; try done.
    injection Hbudget as Hadd. left.
    match type of Hadd with
    | addModulesToChunksInfoMap ?cg ?sel ?key ?mods ?st0 = _ =>
        pose proof (addModulesToChunksInfoMap_graphKept cg sel key mods st0) as Hkept
    end.
    by rewrite Hadd in Hkept.
  - simpl.
    destruct (prepareChunk_reuseDecision (withChunksInfoMap m st) item
                (usedChunksOf item (reuseDecision (graph st) item)))
      as [[newChunk g] Hprepare].
    simpl in Hprepare. rewrite Hprepare.
    unfold checkFilename.
    destruct (cg_filename (info_cacheGroup item)) as [filename|]; [|done].
    destruct (truthy (Some filename)); [|done].
    destruct (negb (isOnlyInitial g newChunk)); [|done].
    intros [= <-]. right. by eexists.
Qed.

Lemma selectionLoop_errors fuel (st : PassState) message :
  selectionLoop indexMap fuel st = Throw message →
  message = "TypeError: cacheGroup.getName is not a function"
  ∨ ∃ key, message = filenameMessage key.
Proof.
  revert st. induction fuel as [|fuel IH]; intros st; simpl; [done|].
  destruct (0 <? setSize (chunksInfoMap st)); [|done].
  destruct (selectionStep indexMap st) as [st1|message'] eqn:Hstep.
  - rewrite bind_Ok. apply IH.
  - intros [= <-]. by eapply selectionStep_errors.
Qed.
End Errors.

(** X17: with options that have a chunk filter and with the chunk graph
    raising nothing, the pass up to the end of the selection loop raises at
    most two errors: the [TypeError] of a cache group that has no [getName],
    and the error about a [filename] on a chunk that is not exclusively
    initial.  In particular every module finds its chunk set, and a round
    that reuses a chunk always has one. *)
Theorem optimizeChunks_errors {G : Type} `{GraphOps G} (options : Options)
    (getCacheGroups : Module → option (list CacheGroupSource))
    (chunks : list Chunk) (modules : list Module) (fuel : nat) (g : G)
    (message : string) :
  optimizeChunks options getCacheGroups chunks modules fuel g = Throw message →
  message = "TypeError: cacheGroup.getName is not a function"
  ∨ ∃ key, message = filenameMessage key.
Proof.
  unfold optimizeChunks.
  pose proof (walkModules_graphKept (makeIndexMap chunks) options getCacheGroups
                modules modules
                {| graph := g; errors := []; warnings := [];
                   alreadyValidatedNames := []; chunksInfoMap := [];
                   maxSizeQueueMap := [] |}) as Hwalk.
  simpl in Hwalk.
  destruct (walkModules _ _ _ _ _ _ _) as [st1|message'].
  - rewrite bind_Ok. apply selectionLoop_errors.
  - intros [= <-]. left. by apply Hwalk.
Qed.

Lemma optimizeChunks_errors_witness :
  "TypeError: cacheGroup.getName is not a function"
    = "TypeError: cacheGroup.getName is not a function"
  ∨ ∃ key, "TypeError: cacheGroup.getName is not a function" = filenameMessage key.
Proof.
  apply (optimizeChunks_errors exampleOptions (λ _, Some [namelessSource])
           [chunkA; chunkB]
           [jsModule 1 "m1" 10; jsModule 2 "m2" 10; jsModule 3 "m3" 10;
            jsModule 4 "m4" 10] 10 scenarioGraph).
  vm_compute. reflexivity.
Defined.

(** ** The queue of the max-size pass *)

(** X18: recording a materialized candidate whose cache group has a
    [maxSize] gives the target chunk an entry in the queue and changes no
    other entry.  Its [maxSize] is at most the cache group's under every
    type.  When the chunk had an entry already, the key of the cache group is
    appended to its keys, no [maxSize] grows, and the [minSize] is at least
    the earlier one and the cache group's [minSizeForMaxSize]; otherwise the
    entry holds the cache group's [minSize], [maxSize] and key. *)
Theorem recordMaxSize_tightens (item : ChunksInfoItem) (newChunk : Chunk)
    (q : list (Chunk * MaxSizeSettings)) :
  hasKeys (cg_maxSize (info_cacheGroup item)) = true →
  ∃ settings,
    mapGet newChunk (recordMaxSize item newChunk q) = Some settings
    ∧ (∀ chunk, chunk ≠ newChunk →
         mapGet chunk (recordMaxSize item newChunk q) = mapGet chunk q)
    ∧ (∀ type limit, cg_maxSize (info_cacheGroup item) !! type = Some limit →
         ∃ limit', mq_maxSize settings !! type = Some limit' ∧ limit' ≤ limit)
    ∧ (∀ old, mapGet newChunk q = Some old →
         mq_keys settings = mq_keys old ++ [cg_key (info_cacheGroup item)]
         ∧ (∀ type limit, mq_maxSize old !! type = Some limit →
              ∃ limit', mq_maxSize settings !! type = Some limit' ∧ limit' ≤ limit)
         ∧ (∀ type size,
              mq_minSize old !! type = Some size
              ∨ cg_minSizeForMaxSize (info_cacheGroup item) !! type = Some size →
              ∃ size', mq_minSize settings !! type = Some size' ∧ size ≤ size'))
    ∧ (mapGet newChunk q = None →
         mq_keys settings = [cg_key (info_cacheGroup item)]
         ∧ mq_minSize settings = cg_minSize (info_cacheGroup item)
         ∧ mq_maxSize settings = cg_maxSize (info_cacheGroup item)).
Proof.
  intros Hkeys. unfold recordMaxSize. rewrite Hkeys.
  eexists. split; [apply mapGet_mapSet_eq|]. split.
  { intros chunk Hne. by apply mapGet_mapSet_ne. }
  destruct (mapGet newChunk q) as [old|]; simpl.
  - split_and!.
    + intros type limit Hlimit. rewrite combineSizes_lookup, Hlimit.
      destruct (mq_maxSize old !! type) as [limit0|]; eexists; split; try done.
      lia.
    + intros old' [= <-]. split_and!; [done| |].
      * intros type limit Hlimit. rewrite combineSizes_lookup, Hlimit.
        destruct (cg_maxSize (info_cacheGroup item) !! type) as [limit0|];
          eexists; split; try done. lia.
      * intros type size Hsize. rewrite combineSizes_lookup.
        destruct (mq_minSize old !! type) as [size0|],
          (cg_minSizeForMaxSize (info_cacheGroup item) !! type) as [size1|];
          destruct Hsize as [[= <-]|[= <-]]; eexists; split; try done; lia.
    + done.
  - split_and!.
    + intros type limit Hlimit. exists limit. split; [done|lia].
    + done.
    + done.
Qed.

Lemma recordMaxSize_tightens_witness :
  ∃ settings,
    mapGet chunkA (recordMaxSize maxSizeItem chunkA inversionQueue) = Some settings
    ∧ mq_keys settings = ["vendors"; "vendors"]
    ∧ mq_maxSize settings !! "javascript" = Some 100.
Proof.
  destruct (recordMaxSize_tightens maxSizeItem chunkA inversionQueue)
    as (settings & Hget & _ & _ & Hold & _); [vm_compute; reflexivity|].
  exists settings. split; [done|].
  destruct (Hold inversionSettings) as (Hkeys & _ & _); [reflexivity|].
  split; [done|].
  vm_compute in Hget. injection Hget as <-. vm_compute. reflexivity.
Defined.

(** ** Normalisation of the options *)

(** X19: normalising sizes that are normalised already changes nothing, so
    a cache group gets the same sizes from a source whose [minSize] or
    [maxSize] was normalised beforehand as from the option itself. *)
Theorem normalised_sizes_merge_alike (value defaultValue : JsValue) :
  normalizeSizes (JsObject (normalizeSizes value)) = normalizeSizes value
  ∧ mergeSizes (JsObject (normalizeSizes value)) defaultValue
    = mergeSizes value defaultValue.
Proof.
  assert (∀ props : gmap string Z, assign emptySizes props = props) as Hassign.
  { intros props. unfold assign, emptySizes. apply (right_id ∅ (∪)). }
  split.
  - simpl. apply Hassign.
  - unfold mergeSizes. cbn [normalizeSizes]. rewrite !Hassign.
    destruct value; try done.
    cbn [normalizeSizes]. unfold assign, emptySizes.
    by rewrite (left_id ∅ (∪)).
Qed.

(** X20: the filters for [initial] and [async] split the chunks in two: a
    chunk passes exactly one of them, whatever the chunk graph; the filter
    for [all] lets every chunk pass; a function is taken as it is; any other
    string gives no filter. *)
Theorem chunk_filters_partition {G : Type} `{GraphOps G} (g : G)
    (chunks : list Chunk) :
  normalizeChunksFilter g (ChunksString "initial") = Some (INITIAL_CHUNK_FILTER g)
  ∧ normalizeChunksFilter g (ChunksString "async") = Some (ASYNC_CHUNK_FILTER g)
  ∧ normalizeChunksFilter g (ChunksString "all") = Some ALL_CHUNK_FILTER
  ∧ (∀ f, normalizeChunksFilter g (ChunksFunction f) = Some f)
  ∧ (∀ s, s ≠ "initial" → s ≠ "async" → s ≠ "all" →
       normalizeChunksFilter g (ChunksString s) = None)
  ∧ (∀ chunk, INITIAL_CHUNK_FILTER g chunk = negb (ASYNC_CHUNK_FILTER g chunk))
  ∧ filter (λ chunk, INITIAL_CHUNK_FILTER g chunk = true) chunks
      ++ filter (λ chunk, ASYNC_CHUNK_FILTER g chunk = true) chunks ≡ₚ chunks
  ∧ filter (λ chunk, ALL_CHUNK_FILTER chunk = true) chunks = chunks.
Proof.
  split_and!; try done.
  - intros s Hinitial Hasync Hall. unfold normalizeChunksFilter.
    by rewrite !bool_decide_eq_false_2.
  - intros chunk. unfold INITIAL_CHUNK_FILTER, ASYNC_CHUNK_FILTER.
    by rewrite negb_involutive.
  - induction chunks as [|chunk chunks IH]; [done|].
    unfold INITIAL_CHUNK_FILTER, ASYNC_CHUNK_FILTER in *.
    destruct (canBeInitial g chunk) eqn:Hinitial.
    + rewrite filter_cons_True by done.
      rewrite (filter_cons_False (λ chunk, negb (canBeInitial g chunk) = true))
        by (by rewrite Hinitial).
      simpl. by rewrite IH.
    + rewrite filter_cons_False by (by rewrite Hinitial).
      rewrite (filter_cons_True (λ chunk, negb (canBeInitial g chunk) = true))
        by (by rewrite Hinitial).
      rewrite <- Permutation_middle. by rewrite IH.
  - induction chunks as [|chunk chunks IH]; [done|].
    rewrite filter_cons_True by done. by rewrite IH.
Qed.

Lemma normalizeCacheGroups_loop {G : Type} `{GraphOps G} (g : G)
    (nameForCondition : Module → option string) (moduleType : Module → string)
    (name : NameOption) (module : Module)
    (cacheGroups : list (string * CacheGroupOption)) :
  (∀ key entry, (key, entry) ∈ cacheGroups → isFunctionEntry entry = false) →
  ∀ results : option (list CacheGroupSource),
    foldl (λ results entry,
      match entry.2 with
      | OptionFunction f =>
          match f module with
          | ResultFalsy => results
          | result =>
              Some (default [] results
                    ++ (functionSource g entry.1 <$> resultGroups result))
          end
      | _ =>
          match optionConfig entry.2 with
          | None => results
          | Some config =>
              if checkTest nameForCondition (cfg_test config) module
                 && checkModuleType moduleType (cfg_type config) module
              then Some (default [] results ++ [sourceOf g name entry.1 config])
              else results
          end
      end) results cacheGroups
    = match selectedSources g nameForCondition moduleType cacheGroups name module with
      | [] => results
      | sources => Some (default [] results ++ sources)
      end.
Proof.
  unfold selectedSources.
  induction cacheGroups as [|[key entry] cacheGroups IH]; intros Hentries results;
    [done|].
  cbn [foldl omap list_omap].
  rewrite IH by (intros key' entry' Hin; apply (Hentries key'); by right).
  assert (isFunctionEntry entry = false) as Hentry
    by (apply (Hentries key); left).
  destruct entry as [|matches|test|f|config];
    cbn [optionConfig fst snd isFunctionEntry] in *; try done;
    (destruct (checkTest _ _ _ && checkModuleType _ _ _); [|done];
     simpl;
     destruct (omap _ cacheGroups) as [|source sources];
     [done|by rewrite <- app_assoc]).
Qed.

(** X21: for [cacheGroups] given as an object, none of whose entries is a
    function, the function made by [normalizeCacheGroups] answers
    [undefined] when no entry selects the module, and otherwise the sources
    of the entries that are not [false] and pass [checkTest] and
    [checkModuleType], once each, in the order of the keys.  Each source
    carries the key of its entry, a [getName] and normalised sizes. *)
Theorem normalizeCacheGroups_sources {G : Type} `{GraphOps G} (g : G)
    (nameForCondition : Module → option string) (moduleType : Module → string)
    (cacheGroups : list (string * CacheGroupOption)) (name : NameOption)
    (module : Module) :
  (∀ key entry, (key, entry) ∈ cacheGroups → isFunctionEntry entry = false) →
  normalizeCacheGroups g nameForCondition moduleType cacheGroups name module
  = match selectedSources g nameForCondition moduleType cacheGroups name module with
    | [] => None
    | sources => Some sources
    end
  ∧ src_key <$> selectedSources g nameForCondition moduleType cacheGroups name module
      `sublist_of` cacheGroups.*1
  ∧ ∀ source,
      source ∈ selectedSources g nameForCondition moduleType cacheGroups name module →
      is_Some (src_getName source)
      ∧ (∃ sizes, src_minSize source = JsObject sizes)
      ∧ (∃ sizes, src_maxSize source = JsObject sizes)
      ∧ ∃ entry config,
          (src_key source, entry) ∈ cacheGroups
          ∧ optionConfig entry = Some config
          ∧ checkTest nameForCondition (cfg_test config) module = true
          ∧ checkModuleType moduleType (cfg_type config) module = true
          ∧ source = sourceOf g name (src_key source) config.
Proof.
  intros Hentries. split_and!.
  - unfold normalizeCacheGroups. rewrite normalizeCacheGroups_loop by done.
    by destruct (selectedSources _ _ _ _ _ _).
  - unfold selectedSources. clear Hentries.
    induction cacheGroups as [|[key entry] cacheGroups IH]; [done|].
    cbn [omap list_omap]. simpl.
    destruct (optionConfig entry) as [config|]; [|by apply sublist_cons].
    destruct (checkTest _ _ _ && checkModuleType _ _ _); [|by apply sublist_cons].
    simpl. by apply sublist_skip.
  - intros source Hin. unfold selectedSources in Hin.
    apply list_elem_of_omap in Hin as ([key entry] & Hin & Hsource).
    simpl in Hsource.
    destruct (optionConfig entry) as [config|] eqn:Hconfig; [|done].
    destruct (checkTest _ _ _ && checkModuleType _ _ _) eqn:Hchecks; [|done].
    apply andb_prop in Hchecks as [Htest Htype].
    injection Hsource as <-. simpl.
    split_and!; [by eexists|by eexists|by eexists|].
    by exists entry, config.
Qed.

Lemma normalizeCacheGroups_sources_witness :
  normalizeCacheGroups asyncGraph (λ module, Some (module_identifier module))
    (λ _, "javascript/auto") exampleCacheGroups NameUndefined
    (jsModule 1 "./a.js" 10)
  = Some [sourceOf asyncGraph NameUndefined "vendors" vendorsConfig].
Proof.
  destruct (normalizeCacheGroups_sources asyncGraph
              (λ module, Some (module_identifier module)) (λ _, "javascript/auto")
              exampleCacheGroups NameUndefined (jsModule 1 "./a.js" 10))
    as (Hsources & _).
  - intros key entry Hin.
    apply elem_of_cons in Hin as [[= -> ->]|Hin]; [done|].
    by apply list_elem_of_singleton in Hin as [= -> ->].
  - rewrite Hsources. reflexivity.
Defined.

(** ** The max-size pass *)



Lemma length_append (s1 s2 : string) :
  String.length (s1 +:+ s2) = (String.length s1 + String.length s2)%nat.
Proof.
  induction s1 as [|c s1 IH]; [done|].
  change (S (String.length (s1 +:+ s2))
          = S (String.length s1 + String.length s2)). by rewrite IH.
Qed.

Lemma length_substring_le (s : string) (m : nat) :
  (String.length (substring 0 m s) ≤ m)%nat.
Proof.
  revert s. induction m as [|m IH]; intros [|c s]; simpl; try lia.
  specialize (IH s). lia.
Qed.

(** X23: a part of a chunk without a name gets no name.  For a named chunk
    the name is the chunk's name, the delimiter and the key of the group, or
    in place of the key its hash when [hidePathInfo] is set, provided that
    has at most 100 characters; in every case it has at most 108 characters
    more than the delimiter, whatever the digest. *)
Theorem partName_bounded (md4Hex : string → string) (hidePathInfo : bool)
    (chunkName automaticNameDelimiter : option string) (groupKey : string) :
  (partName md4Hex hidePathInfo chunkName automaticNameDelimiter groupKey = None
   ↔ truthy chunkName = false)
  ∧ (∀ name,
       partName md4Hex hidePathInfo chunkName automaticNameDelimiter groupKey
         = Some name →
       (String.length name
        ≤ 108 + String.length (renderName automaticNameDelimiter))%nat)
  ∧ (truthy chunkName = true →
     (String.length (renderName chunkName +:+ renderName automaticNameDelimiter
                       +:+ (if hidePathInfo then hashFilename md4Hex groupKey
                            else groupKey)) ≤ 100)%nat →
     partName md4Hex hidePathInfo chunkName automaticNameDelimiter groupKey
     = Some (renderName chunkName +:+ renderName automaticNameDelimiter
               +:+ (if hidePathInfo then hashFilename md4Hex groupKey
                    else groupKey)))
  ∧ (String.length (hashFilename md4Hex groupKey) ≤ 8)%nat.
Proof.
  pose proof (length_substring_le) as Hsub.
  unfold partName, hashFilename. split_and!.
  - destruct (truthy chunkName); [|done].
    split; [|done]. by destruct (100 <? _).
  - intros name. destruct (truthy chunkName); [|done].
    destruct (Z.ltb_spec 100 (Z.of_nat (String.length
                (renderName chunkName +:+ renderName automaticNameDelimiter +:+
                 (if hidePathInfo then substring 0 8 (md4Hex groupKey)
                  else groupKey))))) as [Hlong|Hshort]; intros [= <-].
    + rewrite !length_append.
      pose proof (Hsub (renderName chunkName +:+
                        renderName automaticNameDelimiter +:+
                        (if hidePathInfo then substring 0 8 (md4Hex groupKey)
                         else groupKey)) 100%nat).
      pose proof (Hsub (md4Hex (renderName chunkName +:+
                        renderName automaticNameDelimiter +:+
                        (if hidePathInfo then substring 0 8 (md4Hex groupKey)
                         else groupKey))) 8%nat).
      lia.
    + lia.
  - intros -> Hshort.
    destruct (Z.ltb_spec 100 (Z.of_nat (String.length
                (renderName chunkName +:+ renderName automaticNameDelimiter +:+
                 (if hidePathInfo then substring 0 8 (md4Hex groupKey)
                  else groupKey))))) as [Hlong|_]; [lia|done].
  - apply Hsub.
Qed.

(** ** When the request budget stops a round *)

Lemma filter_bool_length {A} (b : A → bool) (l : list A) :
  (length (filter (λ x, b x = true) l) + length (filter (λ x, b x = false) l)
   = length l)%nat.
Proof.
  induction l as [|x l IH]; [done|].
  destruct (b x) eqn:Hb.
  - rewrite filter_cons_True by done.
    rewrite (filter_cons_False (λ x, b x = false)) by (by rewrite Hb).
    simpl. lia.
  - rewrite filter_cons_False by (by rewrite Hb).
    rewrite (filter_cons_True (λ x, b x = false)) by done.
    simpl. lia.
Qed.

(** X24: with both request limits infinite the budget check lets every round
    through.  With a finite limit, a round that reuses no chunk goes on to
    split chunks only when every used chunk is within its limit; a round that
    reuses a chunk counts the reused chunk among the chunks within the
    limit, so it goes on also when one used chunk is over its limit, and is
    stopped only from two such chunks on. *)
Theorem request_budget_threshold {G : Type} `{GraphOps G}
    (indexMap : list (Chunk * Z)) (st : @PassState G) (item : ChunksInfoItem) :
  (isFinite (cg_maxInitialRequests (info_cacheGroup item))
   || isFinite (cg_maxAsyncRequests (info_cacheGroup item)) = false →
   requestBudget indexMap item (reuseDecision (graph st) item)
     (usedChunksOf item (reuseDecision (graph st) item)) st = None)
  ∧ (isFinite (cg_maxInitialRequests (info_cacheGroup item))
     || isFinite (cg_maxAsyncRequests (info_cacheGroup item)) = true →
     (requestBudget indexMap item (reuseDecision (graph st) item)
        (usedChunksOf item (reuseDecision (graph st) item)) st = None
      ↔ setSize (filter (λ chunk,
                   withinLimit (graph st) (info_cacheGroup item) chunk = false)
                  (usedChunksOf item (reuseDecision (graph st) item)))
        ≤ if isReused (reuseDecision (graph st) item) then 1 else 0)).
Proof.
  split.
  - intros Hinfinite. unfold requestBudget. by rewrite Hinfinite.
  - intros Hfinite. unfold requestBudget. rewrite Hfinite.
    set (r := reuseDecision (graph st) item).
    set (used := usedChunksOf item r).
    pose proof (filter_bool_length
                  (withinLimit (graph st) (info_cacheGroup item)) used) as Hlength.
    assert (setSize (chunksInLimitOf (graph st) item r used)
            = setSize (filter (λ chunk,
                         withinLimit (graph st) (info_cacheGroup item) chunk = true)
                        used)
              + if isReused r then 1 else 0) as Hlimit.
    { unfold chunksInLimitOf, r.
      destruct (reuseDecision_cases (graph st) item)
        as [->|(-> & _ & chosen & -> & _)]; simpl.
      - unfold withinLimit. lia.
      - unfold setSize. rewrite length_app. simpl. unfold withinLimit. lia. }
    destruct (Z.ltb_spec (setSize (chunksInLimitOf (graph st) item r used))
                (setSize used)) as [Hfewer|Hall].
    + split.
      * by destruct (cg_minChunks (info_cacheGroup item) <=? _).
      * unfold setSize in *. lia.
    + split; [|done]. intros _. unfold setSize in *. lia.
Qed.

(** ** Cache groups given as an object never lack a name function *)

Section Named.
Context {G : Type} `{GraphOps G}.
Variable indexMap : list (Chunk * Z).







End Named.




(** A function-valued entry that returns an object with neither a [name] nor
    a [getName] gives a source without [getName], and the walk over the
    modules ends with the [TypeError]. *)
Example function_entry_without_name :
  optimizeChunks exampleOptions
    (normalizeCacheGroups asyncGraph (λ module, Some (module_identifier module))
       (λ _, "javascript/auto") (functionCacheGroups None) NameUndefined)
    [chunkA; chunkB] [jsModule 1 "./a.js" 10; jsModule 2 "./b.js" 10] 5 asyncGraph
  = Throw "TypeError: cacheGroup.getName is not a function".
Proof. vm_compute. reflexivity. Qed.

(** ** The cache of combinations *)

(** X26: the cache in front of [getCombinations] does not change the walk
    over the modules: started with an empty cache, the walk that looks
    combinations up in [combinationsCache] ends in the same state, or with
    the same error, as the walk that computes them for every module. *)
Theorem combinations_cache_transparent {G : Type} `{GraphOps G}
    (indexMap : list (Chunk * Z)) (options : Options)
    (getCacheGroups : Module → option (list CacheGroupSource))
    (chunkSetsInGraph : list (string * list Chunk))
    (chunkSetsByCount : list (Z * list (list Chunk)))
    (modules : list Module) (st : @PassState G) :
  (found ← @walkModulesCached G _ indexMap options getCacheGroups chunkSetsInGraph
             chunkSetsByCount modules [] st;
   Ok found.1)
  = walkModules indexMap options getCacheGroups chunkSetsInGraph chunkSetsByCount
      modules st.
Proof.
  assert (∀ (combinationsCache : list (string * list (list Chunk))),
    (∀ key combs, mapGet key combinationsCache = Some combs →
       getCombinations chunkSetsInGraph chunkSetsByCount key = Ok combs) →
    ∀ st : @PassState G,
      (found ← @walkModulesCached G _ indexMap options getCacheGroups chunkSetsInGraph
                 chunkSetsByCount modules combinationsCache st;
       Ok found.1)
      = walkModules indexMap options getCacheGroups chunkSetsInGraph
          chunkSetsByCount modules st) as Hgeneral.
  { induction modules as [|module modules IH]; intros combinationsCache Hcache st0.
    - done.
    - cbn [walkModulesCached walkModules].
      destruct (getCacheGroups module) as [[|source sources]|];
        [by apply IH| |by apply IH].
      unfold cachedCombinations.
      destruct (mapGet _ combinationsCache) as [combs|] eqn:Hfound.
      + rewrite (Hcache _ _ Hfound), !bind_Ok. cbn [fst snd].
        destruct (addCacheGroups indexMap options module combs (source :: sources)
                    st0) as [st1|]; [|done].
        rewrite !bind_Ok. by apply IH.
      + destruct (getCombinations chunkSetsInGraph chunkSetsByCount _)
          as [combs|] eqn:Hcombs; [|done].
        rewrite !bind_Ok. cbn [fst snd].
        destruct (addCacheGroups indexMap options module combs (source :: sources)
                    st0) as [st1|]; [|done].
        rewrite !bind_Ok. apply IH.
        intros key combs'. rewrite mapGet_mapSet.
        destruct (decide (_ = key)) as [<-|Hne]; [|by apply Hcache].
        by intros [= <-]. }
  by apply Hgeneral.
Qed.
